(** * syz-execprog (SyzGPT variant): the concurrent execution harness

    A shallow embedding of [tools/syz-execprog/execprog.go]: program
    loading, the worker loop with its shared cursor, the retrying executor,
    coverage dumping, the coverage-record map and the evaluation report.

    Go's [int] is a 64-bit two's complement integer and is modelled as [Z]
    with the wrap-around written out ([wrap64]).  [float64] is modelled by
    Rocq's primitive binary64 floats, so the report percentages are computed
    with the very same IEEE-754 operations as the Go program.  The outside
    world (executor, file system, clock, symbol restoration, map iteration
    order) is passed in explicitly. *)

From Stdlib Require Import ZArith NArith Lia Ascii String List.
From Stdlib Require Import PrimFloat FloatOps Uint63 SpecFloat.
From Stdlib Require Import Decimal DecimalString Hexadecimal HexadecimalString.
From Stdlib Require Import DecimalZ HexadecimalN HexadecimalPos.
From stdpp Require Import base gmap strings list fin_maps fin_sets.

Local Open Scope string_scope.
Local Open Scope Z_scope.

Set Warnings "-clear-no-such-hyp".

(* ================================================================== *)
(** ** Machine integers *)

(** Reduction of a mathematical integer to Go's 64-bit [int]. *)
Definition wrap64 (z : Z) : Z := (z + 2^63) mod 2^64 - 2^63.

Definition int_add (a b : Z) : Z := wrap64 (a + b).
Definition int_mul (a b : Z) : Z := wrap64 (a * b).

Definition int_min : Z := - 2^63.
Definition int_max : Z := 2^63 - 1.

(** [len(xs)] as a Go [int]. *)
Definition len {A} (xs : list A) : Z := Z.of_nat (length xs).

(* ================================================================== *)
(** ** Formatting ([strconv], [fmt]) *)

(** [strconv.Itoa], also [%d] and [%v] on an [int]. *)
Definition itoa (z : Z) : string :=
  DecimalString.NilZero.string_of_int (Z.to_int z).

(** [%x] on an unsigned integer: lower-case hexadecimal, no prefix. *)
Definition hex (n : N) : string :=
  HexadecimalString.NilZero.string_of_uint (N.to_hex_uint n).

(** [strings.HasSuffix]. *)
Fixpoint HasSuffix (s suffix : string) : bool :=
  if String.eqb s suffix then true
  else match s with
       | EmptyString => false
       | String _ s' => HasSuffix s' suffix
       end.

(** [strings.TrimSuffix]: [s] without the trailing [suffix], or [s] itself. *)
Definition TrimSuffix (s suffix : string) : string :=
  if HasSuffix s suffix
  then String.substring 0 (String.length s - String.length suffix) s
  else s.

(** [float64(n)] for an [int] [n] with [|n| < 2^63]: the conversion rounds
    to nearest, ties to even, as Go's does. *)
Definition float64 (z : Z) : float :=
  if z <? 0 then PrimFloat.opp (PrimFloat.of_uint63 (Uint63.of_Z (- z)))
  else PrimFloat.of_uint63 (Uint63.of_Z z).

(** Nearest integer to [n * 2^e], ties to even: the rounding
    [strconv.FormatFloat] applies to the exact binary value. *)
Definition round_half_even (n e : Z) : Z :=
  if 0 <=? e then n * 2 ^ e
  else
    let d := 2 ^ (- e) in
    let q := n / d in
    let r := n mod d in
    if 2 * r <? d then q
    else if d <? 2 * r then q + 1
    else if Z.even q then q else q + 1.

Definition two_digits (z : Z) : string :=
  if z <? 10 then "0" ++ itoa z else itoa z.

(** [fmt.Sprintf("%.2f", f)]. *)
Definition fmt_f2 (f : float) : string :=
  match Prim2SF f with
  | S754_nan => "NaN"
  | S754_infinity false => "+Inf"
  | S754_infinity true => "-Inf"
  | S754_zero s => (if s then "-" else "") ++ "0.00"
  | S754_finite s m e =>
      let q := round_half_even (Z.pos m * 100) e in
      (if s then "-" else "") ++ itoa (q / 100) ++ "." ++ two_digits (q mod 100)
  end.

(** [fmt.Sprintf("%.2f%%", f)]. *)
Definition fmt_pct (f : float) : string := fmt_f2 f ++ "%".

(** The newline character as a string. *)
Definition nl : string := String "010" "".

(* ================================================================== *)
(** ** Data model *)

(** [prog.Prog], consumed opaquely: its serialization is used here and,
    through [NumCalls] below, the number of its calls. *)
Record Prog := { Serialize : string }.

(** [ipc.CallInfo]: signal and coverage are slices of [uint32]; [Comps]
    is the [prog.CompMap] of comparison operands, each operand with its
    arguments, listed in the order the runtime ranges over the map. *)
Record CallInfo := {
  Flags : N;
  Signal : list N;
  Cover : list N;
  Comps : list (N * list N);
  Errno : Z
}.

(** [ipc.ProgInfo]: one [CallInfo] per call plus the extra aggregate. *)
Record ProgInfo := {
  Calls : list CallInfo;
  Extra : CallInfo
}.

(** [ipc.CallFlags] bits. *)
Definition CallExecuted : N := 1.
Definition CallFinished : N := 2.
Definition CallBlocked : N := 4.
Definition CallFaultInjected : N := 8.

(** The command-line flags the harness reads. *)
Record FlagSet := {
  flagCoverFile : string;
  flagRepeat : Z;
  flagProcs : Z;
  flagOutput : bool;
  flagHints : bool;
  flagSemantic : bool;
  flagProgDir : string;
  flagNoDumpCall : bool;
  flagMaxRetry : Z
}.

(** The error value returned by [env.Exec]: the designated sentinel
    [prog.ErrExecBufferTooSmall], or any other error with its text. *)
Inductive error :=
| ErrExecBufferTooSmall
| ErrOther (msg : string).

Definition error_text (e : error) : string :=
  match e with
  | ErrExecBufferTooSmall => "encodingexec: provided buffer is too small"
  | ErrOther msg => msg
  end.

(** What one call of [env.Exec] returns: [(output, info, hanged, err)]. *)
Record ExecResult := {
  ex_output : string;
  ex_info : option ProgInfo;
  ex_hanged : bool;
  ex_err : option error
}.

(** [coverRecord]'s value type [[3]int]:
    [(cov0_of_origin, cov1_of_reverse, prog_line_num)]. *)
Abbreviation cover_entry := (Z * Z * Z)%type (only parsing).

(* ================================================================== *)
(** ** Effects *)

(** What the harness does to the outside world, in program order.
    [EvPrint] is text written to standard output by [fmt.Printf].
    [EvDispatch] is a ghost event: it marks the point where a worker calls
    [ctx.execute], with the worker, the index of the program in [progs] and
    the cursor value it is tagged with.  [EvExecute] is a ghost event as
    well: a dispatcher that records its calls marks with it the arguments
    it was given (worker, program, tag and coverage type). *)
Inductive event :=
| EvLog (level : Z) (msg : string)
| EvSleep (nanoseconds : Z)
| EvWriteFile (name data : string)
| EvCreate (name : string)
| EvWriteString (name data : string)
| EvClose (name : string)
| EvGateEnter
| EvGateLeave
| EvPrint (text : string)
| EvDispatch (pid progIndex tag : Z)
| EvExecute (pid : Z) (p : Prog) (tag covType : Z).

(** The process-wide mutable state: the two globals and the event trace
    (oldest event first). *)
Record World := {
  coverRecord : gmap string cover_entry;
  execFailCnt : Z;
  trace : list event
}.

Definition initial_world : World :=
  {| coverRecord := ∅; execFailCnt := 0; trace := [] |}.

(** How a computation ends: it returns, the process exits through
    [log.Fatalf], the Go runtime panics, or the model's loop fuel ran out. *)
Inductive outcome (A : Type) :=
| Ret (a : A) (w : World)
| Fatal (msg : string) (w : World)
| Panic (msg : string) (w : World)
| OutOfFuel.
Arguments Ret {A} a w.
Arguments Fatal {A} msg w.
Arguments Panic {A} msg w.
Arguments OutOfFuel {A}.

Definition M (A : Type) : Type := World -> outcome A.

Definition ret {A} (a : A) : M A := fun w => Ret a w.

Definition bind {A B} (m : M A) (k : A -> M B) : M B :=
  fun w =>
    match m w with
    | Ret a w' => k a w'
    | Fatal msg w' => Fatal msg w'
    | Panic msg w' => Panic msg w'
    | OutOfFuel => OutOfFuel
    end.

Notation "x <- m ;; k" := (bind m (fun x => k))
  (at level 90, m at level 80, right associativity).
Notation "m ;;; k" := (bind m (fun _ => k))
  (at level 90, right associativity).

Definition emit (e : event) : M unit :=
  fun w => Ret tt {| coverRecord := coverRecord w;
                     execFailCnt := execFailCnt w;
                     trace := app (trace w) [e] |}.

(** [log.Logf(level, ...)]. *)
Definition Logf (level : Z) (msg : string) : M unit := emit (EvLog level msg).

(** [log.Fatalf(...)]: log, then leave the process. *)
Definition Fatalf {A} (msg : string) : M A :=
  fun w => Fatal msg {| coverRecord := coverRecord w;
                        execFailCnt := execFailCnt w;
                        trace := app (trace w) [EvLog 0 msg] |}.

Definition panic {A} (msg : string) : M A := fun w => Panic msg w.

(** [time.Second] in nanoseconds, the unit of [time.Duration]. *)
Definition Second : Z := 1000000000.

(** The collaborators outside the repository. *)
Record Env := {
  (** [cover.RestorePC(pc, base)]. *)
  RestorePC : N -> N -> N;
  (** Whether [osutil.WriteFile] succeeds on a path. *)
  WriteFile_ok : string -> bool;
  (** Whether [ipc.MakeEnv] succeeds for a worker. *)
  MakeEnv_ok : Z -> bool;
  (** Whether [os.Create] succeeds on a path. *)
  Create_ok : string -> bool;
  (** Whether the [n]-th [WriteString] (counting from 0) on the file
      created at a path succeeds. *)
  WriteString_ok : string -> nat -> bool;
  (** The order in which a [range] statement visits the keys of
      [totalMap]; Go leaves it unspecified. *)
  range_keys : gmap string Z -> list string;
  (** The order in which a [range] statement visits [coverRecord]. *)
  range_records : gmap string cover_entry -> list (string * cover_entry);
  (** [len(p.Calls)], the number of calls of a program. *)
  NumCalls : Prog -> nat;
  (** The programs [p.MutateWithHints(i, comps, cb)] hands to its
      callback, in order. *)
  MutateWithHints : Prog -> Z -> list (N * list N) -> list Prog
}.

(** A legal iteration order visits every entry exactly once. *)
Definition range_ok (env : Env) : Prop :=
  (forall m : gmap string Z, range_keys env m ≡ₚ (map_to_list m).*1) /\
  (forall m : gmap string cover_entry, range_records env m ≡ₚ map_to_list m).

(* ================================================================== *)
(** ** The coverage-record map *)

Definition setCoverRecord (fileName : string) (value1 value2 progLength : Z)
  : M unit :=
  fun w => Ret tt {| coverRecord := <[fileName := (value1, value2, progLength)]>
                                      (coverRecord w);
                     execFailCnt := execFailCnt w;
                     trace := trace w |}.

Definition getCoverRecord (fileName : string) : M (bool * Z * Z) :=
  fun w =>
    match coverRecord w !! fileName with
    | Some values => Ret (true, values.1.1, values.1.2) w
    | None => Ret (false, 0, 0) w
    end.

(* ================================================================== *)
(** ** Coverage dumping *)

(** [fmt.Sprintf("0x%x", cover.RestorePC(pc, 0xffffffff))]. *)
Definition pc_text (env : Env) (pc : N) : string :=
  "0x" ++ hex (RestorePC env pc 0xffffffff).

Definition osutil_WriteFile (env : Env) (name data : string) (fatal : string)
  : M unit :=
  if WriteFile_ok env name then emit (EvWriteFile name data)
  else Fatalf fatal.

(** The buffer [dumpCallCoverage] fills: one restored program counter per
    line. *)
Definition pc_lines (env : Env) (cover : list N) : string :=
  String.concat "" (map (fun pc => pc_text env pc ++ nl) cover).

Definition dumpCallCoverage (env : Env) (coverFile : string) (info : CallInfo)
  : M unit :=
  if len (Cover info) =? 0 then ret tt
  else osutil_WriteFile env coverFile (pc_lines env (Cover info))
         "failed to write coverage file".

(** The first loop of [dumpCoverage], from call index [i] on. *)
Fixpoint dumpCalls (flags : FlagSet) (env : Env) (coverFile : string)
    (i : Z) (calls : list CallInfo) : M unit :=
  match calls with
  | [] => ret tt
  | inf :: rest =>
      Logf 0 ("call #" ++ itoa i ++ ": signal " ++ itoa (len (Signal inf))
              ++ ", coverage " ++ itoa (len (Cover inf))) ;;;
      (if negb (flagNoDumpCall flags) && negb (flagSemantic flags)
       then dumpCallCoverage env (coverFile ++ "." ++ itoa i) inf
       else ret tt) ;;;
      dumpCalls flags env coverFile (i + 1) rest
  end.

(** The accumulators of the second loop: [totalMap] and [covNum]. *)
Definition total_pc (env : Env) (acc : gmap string Z * Z) (pc : N)
  : gmap string Z * Z :=
  let newPC := pc_text env pc in
  match acc.1 !! newPC with
  | Some _ => acc
  | None => (<[newPC := 1]> (acc.1), acc.2 + 1)
  end.

(** One iteration of the second loop; the third component is
    [progLength].  Both counters are bounded by the number of slice
    elements visited, so the 64-bit additions cannot wrap. *)
Definition total_call (env : Env) (acc : gmap string Z * Z * Z) (inf : CallInfo)
  : gmap string Z * Z * Z :=
  (foldl (total_pc env) acc.1 (Cover inf), acc.2 + 1).

Definition total_cover (env : Env) (info : ProgInfo) : gmap string Z * Z * Z :=
  foldl (total_call env) (∅, 0, 0) (Calls info).

(** Lines 528-545 of [dumpCoverage]: record the count in the global map.
    [covType] is 0 for the original pool and 1 for the reverse pool. *)
Definition recordCoverage (coverFile : string) (covNum progLength covType : Z)
  : M unit :=
  let recordKey := TrimSuffix coverFile ".rev" in
  r <- getCoverRecord recordKey ;;
  let '(ok, cov0, cov1) := r in
  if covType =? 0 then
    if (ok : bool) then Logf 0 ("cover map error, repeated prog. " ++ recordKey)
    else setCoverRecord recordKey covNum cov1 progLength
  else
    if (ok : bool) then setCoverRecord recordKey cov0 covNum progLength
    else Logf 0 ("cover map error: non-existed origin prog. " ++ recordKey).

(** The bytes of the ".total" artifact: the keys of [totalMap], one per
    line, in the order the runtime ranges over the map. *)
Definition total_buf (env : Env) (totalMap : gmap string Z) : string :=
  String.concat "" (map (fun pc => pc ++ nl) (range_keys env totalMap)).

Definition dumpCoverage (flags : FlagSet) (env : Env) (ctx_pos : Z)
    (coverFile : string) (info : ProgInfo) (covType : Z) : M unit :=
  dumpCalls flags env coverFile 0 (Calls info) ;;;
  let '(totalMap, covNum, progLength) := total_cover env info in
  recordCoverage coverFile covNum progLength covType ;;;
  osutil_WriteFile env (coverFile ++ ".total") (total_buf env totalMap)
    "SyzGPT failed to write total coverage file" ;;;
  Logf 0 ("[debug] total coverage done for the " ++ itoa ctx_pos ++ " prog "
          ++ coverFile) ;;;
  Logf 0 ("extra: signal " ++ itoa (len (Signal (Extra info)))
          ++ ", coverage " ++ itoa (len (Cover (Extra info)))) ;;;
  dumpCallCoverage env (coverFile ++ ".extra") (Extra info).

(* ================================================================== *)
(** ** The scheduler context and the retrying executor *)

(** [Context]: the fields the scheduling and dispatch code reads.  The
    gate, the configuration and the mutexes are collaborators; [shutdown]
    is [true] once the channel is closed; [lastPrint] is [None] for the
    zero [time.Time]. *)
Record Context := {
  progs : list Prog;
  progFns : list string;
  cfgDebug : bool;
  shutdown : bool;
  repeat : Z;
  pos : Z;
  lastPrint : option Z
}.

(** [progs[i]] for a Go [int] index, with the runtime's bounds check. *)
Definition index {A} (xs : list A) (i : Z) : option A :=
  if i <? 0 then None else xs !! Z.to_nat i.

Definition printCallResult (i : Z) (inf : CallInfo) : M unit :=
  if (N.land (Flags inf) CallExecuted =? 0)%N then ret tt
  else
    let flags := (if (N.land (Flags inf) CallFinished =? 0)%N
                  then " unfinished" else "")
                 ++ (if negb (N.land (Flags inf) CallBlocked =? 0)%N
                     then " blocked" else "")
                 ++ (if negb (N.land (Flags inf) CallFaultInjected =? 0)%N
                     then " faulted" else "") in
    Logf 1 ("CALL " ++ itoa i ++ ": signal " ++ itoa (len (Signal inf))
            ++ ", coverage " ++ itoa (len (Cover inf))
            ++ " errno " ++ itoa (Errno inf) ++ flags).

Fixpoint printCallResults_from (i : Z) (calls : list CallInfo) : M unit :=
  match calls with
  | [] => ret tt
  | inf :: rest => printCallResult i inf ;;; printCallResults_from (i + 1) rest
  end.

Definition printCallResults (info : ProgInfo) : M unit :=
  printCallResults_from 0 (Calls info).

(** A [for ... range] loop over a slice whose body returns nothing. *)
Fixpoint for_each {A} (xs : list A) (body : A -> M unit) : M unit :=
  match xs with
  | [] => ret tt
  | x :: rest => body x ;;; for_each rest body
  end.

(** What [printHints] prints for one comparison operand under
    [-output]. *)
Definition print_comp (c : N * list N) : M unit :=
  emit (EvPrint ("comp 0x" ++ hex c.1 ++ ":")) ;;;
  for_each c.2 (fun arg => emit (EvPrint (" 0x" ++ hex arg))) ;;;
  emit (EvPrint nl).

(** [ncomps] after the operands of one call: the number of arguments of
    each operand is added.  The sum is bounded by the number of elements
    the executor reported, so the 64-bit additions cannot wrap. *)
Definition add_comps (ncomps : Z) (comps : list (N * list N)) : Z :=
  foldl (fun acc c => acc + len c.2) ncomps comps.

(** The loop of [printHints] over the calls of the program, from call
    [i] on, with [n] calls to go.  [info.Calls[i]] is indexed for every
    call of the program: the runtime panics when the executor reported
    fewer calls than the program has. *)
Fixpoint printHints_from (flags : FlagSet) (env : Env) (p : Prog)
    (info : ProgInfo) (i : Z) (n : nat) (ncomps ncandidates : Z) : M unit :=
  match n with
  | O => Logf 0 ("ncomps=" ++ itoa ncomps ++ " ncandidates=" ++ itoa ncandidates)
  | S n' =>
      (if flagOutput flags
       then emit (EvPrint ("call " ++ itoa i ++ ":" ++ nl)) else ret tt) ;;;
      match index (Calls info) i with
      | None => panic "index out of range"
      | Some inf =>
          (if flagOutput flags then for_each (Comps inf) print_comp
           else ret tt) ;;;
          let candidates := MutateWithHints env p i (Comps inf) in
          (if flagOutput flags
           then for_each candidates
                  (fun c => Logf 1 ("PROGRAM:" ++ nl ++ Serialize c))
           else ret tt) ;;;
          printHints_from flags env p info (i + 1) n'
            (add_comps ncomps (Comps inf)) (ncandidates + len candidates)
      end
  end.

Definition printHints (flags : FlagSet) (env : Env) (p : Prog) (info : ProgInfo)
  : M unit :=
  printHints_from flags env p info 0 (NumCalls env p) 0 0.

Definition logProgram (pid : Z) (p : Prog) : M unit :=
  Logf 0 ("executing program " ++ itoa pid ++ ":" ++ String "010" (Serialize p)).

(** The name handed to [dumpCoverage] for the program tagged [progIndex]. *)
Definition covFile_name (flags : FlagSet) (ctx : Context) (progIndex : Z)
  : M string :=
  if negb (String.eqb (flagProgDir flags) "") then
    if len (progFns ctx) =? 0 then panic "integer divide by zero"
    else match index (progFns ctx) (Z.rem progIndex (len (progFns ctx))) with
         | Some fn => ret (flagCoverFile flags ++ "_" ++ fn)
         | None => panic "index out of range"
         end
  else ret (flagCoverFile flags ++ "_prog" ++ itoa progIndex).

(** The part of the loop body after a successful [env.Exec]. *)
Definition execute_success (flags : FlagSet) (env : Env) (ctx : Context)
    (p : Prog) (progIndex covType : Z) (r : ExecResult) : M unit :=
  (if cfgDebug ctx || bool_decide (is_Some (ex_err r))
   then Logf 0 ("result: hanged=" ++ (if ex_hanged r then "true" else "false")
                ++ " err=" ++ from_option error_text "<nil>" (ex_err r)
                ++ String "010" (String "010" (ex_output r)))
   else ret tt) ;;;
  match ex_info r with
  | Some info =>
      printCallResults info ;;;
      (if flagHints flags then printHints flags env p info else ret tt) ;;;
      if negb (String.eqb (flagCoverFile flags) "") then
        covFile <- covFile_name flags ctx progIndex ;;
        dumpCoverage flags env (pos ctx) covFile info covType
      else ret tt
  | None => Logf 1 "RESULT: no calls executed"
  end.

(** [err != nil && err != prog.ErrExecBufferTooSmall]. *)
Definition is_failure (err : option error) : bool :=
  match err with
  | Some (ErrOther _) => true
  | _ => false
  end.

(** The retry loop [for try := 0; ; try++].  [exec try] is what the
    [try]-th call of [env.Exec] returns.  The recursion is on [fuel], an
    upper bound on the number of iterations. *)
Fixpoint execute_loop (fuel : nat) (flags : FlagSet) (env : Env) (ctx : Context)
    (exec : Z -> ExecResult) (p : Prog) (progIndex covType : Z) (try : Z)
  : M unit :=
  match fuel with
  | O => fun _ => OutOfFuel
  | S fuel' =>
      let r := exec try in
      if is_failure (ex_err r) then
        let failed :=
          "executor failed " ++ itoa try ++ " times: "
          ++ from_option error_text "<nil>" (ex_err r)
          ++ String "010" (ex_output r) in
        if try >? flagMaxRetry flags then
          if negb (String.eqb (flagProgDir flags) "") then
            Logf 0 failed ;;;
            Logf 0 ("[semantic dump mode] the " ++ itoa progIndex
                    ++ " prog failed, skip it") ;;;
            (fun w => Ret tt {| coverRecord := coverRecord w;
                                execFailCnt := int_add (execFailCnt w) 1;
                                trace := trace w |})
          else Fatalf failed
        else
          Logf 1 "executor failed, retrying" ;;;
          emit (EvSleep Second) ;;;
          execute_loop fuel' flags env ctx exec p progIndex covType (int_add try 1)
      else execute_success flags env ctx p progIndex covType r
  end.

(** [defer f()]: [f] runs when the body returns or panics, but not when
    the process exits through [log.Fatalf]. *)
Definition defer {A} (body : M A) (f : M unit) : M A :=
  fun w =>
    match body w with
    | Ret a w' => (f ;;; ret a) w'
    | Panic msg w' =>
        match f w' with
        | Ret _ w'' => Panic msg w''
        | _ => Panic msg w'
        end
    | other => other
    end.

(** [Context.execute]: gate admission around the retry loop. *)
Definition execute (fuel : nat) (flags : FlagSet) (env : Env) (ctx : Context)
    (exec : Z -> ExecResult) (pid : Z) (p : Prog) (progIndex covType : Z)
  : M unit :=
  emit EvGateEnter ;;;
  defer
    ((if flagOutput flags then logProgram pid p else ret tt) ;;;
     execute_loop fuel flags env ctx exec p progIndex covType 0)
    (emit EvGateLeave).

(* ================================================================== *)
(** ** The evaluation report *)

(** The eight counters of [saveToFile].  Each is bounded by the number of
    map entries, so the 64-bit increments cannot wrap. *)
Record Counters := {
  totalProgCnt : Z;
  totalWinCnt : Z;
  totalEqualCnt : Z;
  totalLoseCnt : Z;
  oneLineProgCnt : Z;
  oneLineWinCnt : Z;
  oneLineEqualCnt : Z;
  oneLineLoseCnt : Z
}.

Definition zero_counters : Counters :=
  {| totalProgCnt := 0; totalWinCnt := 0; totalEqualCnt := 0; totalLoseCnt := 0;
     oneLineProgCnt := 0; oneLineWinCnt := 0; oneLineEqualCnt := 0;
     oneLineLoseCnt := 0 |}.

Definition inc_totalProg (c : Counters) : Counters :=
  {| totalProgCnt := totalProgCnt c + 1; totalWinCnt := totalWinCnt c;
     totalEqualCnt := totalEqualCnt c; totalLoseCnt := totalLoseCnt c;
     oneLineProgCnt := oneLineProgCnt c; oneLineWinCnt := oneLineWinCnt c;
     oneLineEqualCnt := oneLineEqualCnt c; oneLineLoseCnt := oneLineLoseCnt c |}.
Definition inc_totalWin (c : Counters) : Counters :=
  {| totalProgCnt := totalProgCnt c; totalWinCnt := totalWinCnt c + 1;
     totalEqualCnt := totalEqualCnt c; totalLoseCnt := totalLoseCnt c;
     oneLineProgCnt := oneLineProgCnt c; oneLineWinCnt := oneLineWinCnt c;
     oneLineEqualCnt := oneLineEqualCnt c; oneLineLoseCnt := oneLineLoseCnt c |}.
Definition inc_totalEqual (c : Counters) : Counters :=
  {| totalProgCnt := totalProgCnt c; totalWinCnt := totalWinCnt c;
     totalEqualCnt := totalEqualCnt c + 1; totalLoseCnt := totalLoseCnt c;
     oneLineProgCnt := oneLineProgCnt c; oneLineWinCnt := oneLineWinCnt c;
     oneLineEqualCnt := oneLineEqualCnt c; oneLineLoseCnt := oneLineLoseCnt c |}.
Definition inc_totalLose (c : Counters) : Counters :=
  {| totalProgCnt := totalProgCnt c; totalWinCnt := totalWinCnt c;
     totalEqualCnt := totalEqualCnt c; totalLoseCnt := totalLoseCnt c + 1;
     oneLineProgCnt := oneLineProgCnt c; oneLineWinCnt := oneLineWinCnt c;
     oneLineEqualCnt := oneLineEqualCnt c; oneLineLoseCnt := oneLineLoseCnt c |}.
Definition inc_oneLineProg (c : Counters) : Counters :=
  {| totalProgCnt := totalProgCnt c; totalWinCnt := totalWinCnt c;
     totalEqualCnt := totalEqualCnt c; totalLoseCnt := totalLoseCnt c;
     oneLineProgCnt := oneLineProgCnt c + 1; oneLineWinCnt := oneLineWinCnt c;
     oneLineEqualCnt := oneLineEqualCnt c; oneLineLoseCnt := oneLineLoseCnt c |}.
Definition inc_oneLineWin (c : Counters) : Counters :=
  {| totalProgCnt := totalProgCnt c; totalWinCnt := totalWinCnt c;
     totalEqualCnt := totalEqualCnt c; totalLoseCnt := totalLoseCnt c;
     oneLineProgCnt := oneLineProgCnt c; oneLineWinCnt := oneLineWinCnt c + 1;
     oneLineEqualCnt := oneLineEqualCnt c; oneLineLoseCnt := oneLineLoseCnt c |}.
Definition inc_oneLineEqual (c : Counters) : Counters :=
  {| totalProgCnt := totalProgCnt c; totalWinCnt := totalWinCnt c;
     totalEqualCnt := totalEqualCnt c; totalLoseCnt := totalLoseCnt c;
     oneLineProgCnt := oneLineProgCnt c; oneLineWinCnt := oneLineWinCnt c;
     oneLineEqualCnt := oneLineEqualCnt c + 1; oneLineLoseCnt := oneLineLoseCnt c |}.
Definition inc_oneLineLose (c : Counters) : Counters :=
  {| totalProgCnt := totalProgCnt c; totalWinCnt := totalWinCnt c;
     totalEqualCnt := totalEqualCnt c; totalLoseCnt := totalLoseCnt c;
     oneLineProgCnt := oneLineProgCnt c; oneLineWinCnt := oneLineWinCnt c;
     oneLineEqualCnt := oneLineEqualCnt c; oneLineLoseCnt := oneLineLoseCnt c + 1 |}.

(** The counting part of one iteration of the [range coverRecord] loop. *)
Definition count_row (c : Counters) (value : cover_entry) : Counters :=
  let '(cov0, cov1, progLength) := value in
  let c := inc_totalProg c in
  let c := if progLength =? 1 then inc_oneLineProg c else c in
  if cov0 >? cov1 then
    let c := inc_totalWin c in
    if progLength =? 1 then inc_oneLineWin c else c
  else if cov0 =? cov1 then
    let c := inc_totalEqual c in
    if progLength =? 1 then inc_oneLineEqual c else c
  else
    let c := inc_totalLose c in
    if progLength =? 1 then inc_oneLineLose c else c.

(** The data row written for one entry. *)
Definition row_line (key : string) (value : cover_entry) : string :=
  let '(cov0, cov1, progLength) := value in
  key ++ "," ++ itoa cov0 ++ "," ++ itoa cov1 ++ "," ++ itoa progLength
      ++ String "010" "".

Definition header_line : string :=
  "Program Name" ++ "," ++ "Cover" ++ "," ++ "ReverseCover" ++ ","
  ++ "Program Length" ++ String "010" "".

(** The three rates, in [float64] arithmetic. *)
Definition OCER (c : Counters) : float :=
  (float64 (totalWinCnt c) / float64 (totalProgCnt c) * float64 100)%float.
Definition ECER (c : Counters) : float :=
  (float64 (totalWinCnt c - oneLineWinCnt c)
   / float64 (totalProgCnt c - oneLineWinCnt c) * float64 100)%float.
Definition CER (c : Counters) : float :=
  (float64 (totalWinCnt c - oneLineWinCnt c)
   / float64 (totalProgCnt c) * float64 100)%float.

(** The summary block. *)
Definition summary_block (c : Counters) (failCnt : Z) : string :=
  nl ++ "Evaluation Results of Contextual Effectiveness:" ++ nl
  ++ "Execution Fails:" ++ itoa failCnt ++ nl
  ++ "Total Progs: " ++ itoa (totalProgCnt c) ++ nl
  ++ "Total Win: " ++ itoa (totalWinCnt c) ++ nl
  ++ "Total Equal: " ++ itoa (totalEqualCnt c) ++ nl
  ++ "Total Lose: " ++ itoa (totalLoseCnt c) ++ nl ++ nl
  ++ "One-line Progs:" ++ itoa (oneLineProgCnt c) ++ nl
  ++ "One-line Win:" ++ itoa (oneLineWinCnt c) ++ nl
  ++ "One-line Equal:" ++ itoa (oneLineEqualCnt c) ++ nl
  ++ "One-line Lose:" ++ itoa (oneLineLoseCnt c) ++ nl ++ nl
  ++ "Overall Context Effective Rate (OCER): " ++ fmt_pct (OCER c) ++ nl
  ++ "Exclusive Context Effective Rate (ECER): " ++ fmt_pct (ECER c) ++ nl
  ++ "Context Effective Rate (CER): " ++ fmt_pct (CER c) ++ nl.

(** [file.WriteString(line)] as the [n]-th write on the file; the result
    is the error, [None] for [nil]. *)
Definition WriteString (env : Env) (fileName : string) (n : nat) (line : string)
  : M (option error) :=
  if WriteString_ok env fileName n
  then emit (EvWriteString fileName line) ;;; ret None
  else ret (Some (ErrOther ("write " ++ fileName))).

(** The [range coverRecord] loop: [n] writes were made before it, [c] holds
    the counters; a failed write returns its error at once. *)
Fixpoint saveRows (env : Env) (fileName : string)
    (rows : list (string * cover_entry)) (c : Counters) (n : nat)
  : M (option error * Counters * nat) :=
  match rows with
  | [] => ret (None, c, n)
  | (key, value) :: rest =>
      let c := count_row c value in
      err <- WriteString env fileName n (row_line key value) ;;
      match err with
      | Some e => ret (Some e, c, n)
      | None => saveRows env fileName rest c (S n)
      end
  end.

Definition saveToFile (env : Env) (fileName : string) : M (option error) :=
  if negb (Create_ok env fileName)
  then ret (Some (ErrOther ("open " ++ fileName)))
  else
    emit (EvCreate fileName) ;;;
    defer
      (err <- WriteString env fileName 0 header_line ;;
       match err with
       | Some e => ret (Some e)
       | None =>
           fun w =>
             (r <- saveRows env fileName (range_records env (coverRecord w))
                    zero_counters 1 ;;
              let '(err, c, n) := r in
              match err with
              | Some e => ret (Some e)
              | None =>
                  WriteString env fileName n (summary_block c (execFailCnt w))
              end) w
       end)
      (emit (EvClose fileName)).

(* ================================================================== *)
(** ** The shared cursor *)

(** [time.Since(lastPrint)]: the zero [time.Time] lies further back than a
    [Duration] can express, so the result saturates. *)
Definition Since (now : Z) (lastPrint : option Z) : Z :=
  match lastPrint with
  | None => int_max
  | Some t => now - t
  end.

Definition set_pos (ctx : Context) (p : Z) : Context :=
  {| progs := progs ctx; progFns := progFns ctx; cfgDebug := cfgDebug ctx;
     shutdown := shutdown ctx; repeat := repeat ctx; pos := p;
     lastPrint := lastPrint ctx |}.

Definition set_lastPrint (ctx : Context) (t : Z) : Context :=
  {| progs := progs ctx; progFns := progFns ctx; cfgDebug := cfgDebug ctx;
     shutdown := shutdown ctx; repeat := repeat ctx; pos := pos ctx;
     lastPrint := Some t |}.

Definition set_shutdown (ctx : Context) : Context :=
  {| progs := progs ctx; progFns := progFns ctx; cfgDebug := cfgDebug ctx;
     shutdown := true; repeat := repeat ctx; pos := pos ctx;
     lastPrint := lastPrint ctx |}.

(** [Context.getProgramIndex], one critical section of [posMu]; [now] is
    the clock reading inside it.  The remainder panics on an empty program
    list. *)
Definition getProgramIndex (now : Z) (ctx : Context) : M (Z * Context) :=
  let idx := pos ctx in
  let ctx := set_pos ctx (int_add (pos ctx) 1) in
  if len (progs ctx) =? 0 then panic "integer divide by zero"
  else if (Z.rem idx (len (progs ctx)) =? 0)
          && (Since now (lastPrint ctx) >? 5 * Second)
  then Logf 0 ("executed programs: " ++ itoa idx) ;;;
       ret (idx, set_lastPrint ctx now)
  else ret (idx, ctx).

(** A sequence of calls, each with the caller and its clock reading; the
    result lists the returned indices in call order.  [posMu] serialises
    the calls, so those of all workers of a pool form one sequence. *)
Fixpoint getProgramIndex_calls (calls : list (Z * Z)) (ctx : Context)
  : M (list Z * Context) :=
  match calls with
  | [] => ret ([], ctx)
  | (_, now) :: rest =>
      r <- getProgramIndex now ctx ;;
      r' <- getProgramIndex_calls rest r.2 ;;
      ret (r.1 :: r'.1, r'.2)
  end.

(* ================================================================== *)
(** ** The worker loop and the pool *)

(** What [ctx.execute] is for the scheduler: context, worker, program,
    tag and coverage type. *)
Definition dispatcher : Type := Context -> Z -> Prog -> Z -> Z -> M unit.

(** One iteration of the [for] loop of [Context.run]; the boolean tells
    whether the loop goes on. *)
Definition run_iteration (dispatch : dispatcher) (now pid covType : Z)
    (ctx : Context) : M (bool * Context) :=
  if shutdown ctx then ret (false, ctx)
  else
    r <- getProgramIndex now ctx ;;
    let '(idx, ctx) := r in
    if (repeat ctx >? 0) && (idx >=? int_mul (len (progs ctx)) (repeat ctx))
    then ret (false, ctx)
    else
      match index (progs ctx) (Z.rem idx (len (progs ctx))) with
      | None => panic "index out of range"
      | Some entry =>
          emit (EvDispatch pid (Z.rem idx (len (progs ctx))) idx) ;;;
          dispatch ctx pid entry idx covType ;;;
          ret (true, ctx)
      end.

(** Where a worker goroutine stands: started but before [ipc.MakeEnv], in
    the loop, or returned from [run]. *)
Inductive wstate := WStart | WLoop | WDone.

Global Instance wstate_eq_dec : EqDecision wstate.
Proof. solve_decision. Defined.

(** A pool: the context its workers share and the state of each worker,
    indexed by [pid]. *)
Record Pool := {
  pool_ctx : Context;
  workers : list wstate
}.

(** One scheduling turn of worker [pid]: the step it takes next.  The
    boolean tells whether [run] returned in this turn.  A turn given to a
    worker that does not exist or has returned changes nothing.  A turn in
    the loop runs a whole iteration; in the program the executions of
    different workers overlap, but the cursor is touched in
    [getProgramIndex] only, so who draws which index does not depend on
    it.  The shutdown channel is read at the top of the loop only: a
    close that arrives while a dispatch is under way takes effect at the
    worker's next iteration, which is where it falls here, between two
    turns.  The deferred [env.Close()] has no effect on the state
    modelled here. *)
Definition worker_turn (dispatch : dispatcher) (env : Env) (covType : Z)
    (pid : nat) (now : Z) (pl : Pool) : M (bool * Pool) :=
  match workers pl !! pid with
  | Some WStart =>
      if MakeEnv_ok env (Z.of_nat pid)
      then ret (false, {| pool_ctx := pool_ctx pl;
                          workers := <[pid := WLoop]> (workers pl) |})
      else Fatalf "failed to create ipc env"
  | Some WLoop =>
      r <- run_iteration dispatch now (Z.of_nat pid) covType (pool_ctx pl) ;;
      let '(continue, ctx) := r in
      ret (negb continue,
           {| pool_ctx := ctx;
              workers := if (continue : bool) then workers pl
                         else <[pid := WDone]> (workers pl) |})
  | _ => ret (false, pl)
  end.

(** A schedule: which worker moves next, and the clock reading then. *)
Fixpoint run_schedule (dispatch : dispatcher) (env : Env) (covType : Z)
    (sched : list (nat * Z)) (pl : Pool) : M Pool :=
  match sched with
  | [] => ret pl
  | (pid, now) :: rest =>
      r <- worker_turn dispatch env covType pid now pl ;;
      run_schedule dispatch env covType rest r.2
  end.

(** The pool as [main] leaves it after its spawn loop. *)
Definition start_pool (ctx : Context) (procs : nat) : Pool :=
  {| pool_ctx := ctx; workers := replicate procs WStart |}.

Definition all_returned (pl : Pool) : Prop := Forall (eq WDone) (workers pl).

(** The [EvDispatch] events of a trace, as (index into [progs], tag). *)
Definition dispatches (t : list event) : list (Z * Z) :=
  omap (fun e => match e with
                 | EvDispatch _ i tag => Some (i, tag)
                 | _ => None
                 end) t.

(* ================================================================== *)
(** ** [main]: the two pools, one after the other *)

(** What [main] has in hand once the programs are loaded. *)
Record MainInput := {
  in_progs : list Prog;
  in_fileNameList : list string;
  in_reverseProgs : list Prog;
  in_reverseFileNameList : list string;
  in_debug : bool
}.

(** Where the main goroutine stands, from the first [wg.Add] on. *)
Inductive main_pc :=
| MainSpawn (p : Z)
| MainWait
| MainSemantic
| MainRevSpawn (p : Z)
| MainRevWait
| MainReport
| MainExit.

(** The whole process: the main goroutine, the two wait-group counters and
    the pools.  [revPool] is [None] until [revCtx] is constructed. *)
Record Sys := {
  main_at : main_pc;
  wg : Z;
  revWg : Z;
  origPool : Pool;
  revPool : option Pool
}.

Definition new_context (ps : list Prog) (fns : list string) (debug : bool)
    (rep : Z) : Context :=
  {| progs := ps; progFns := fns; cfgDebug := debug; shutdown := false;
     repeat := rep; pos := 0; lastPrint := None |}.

(** [main] from the check of the loaded programs to the first [wg.Add];
    [None] when it returns at once because nothing was loaded.  The
    feature negotiation in between ([host.Check], [host.Setup],
    [createConfig]) belongs to the collaborators and is taken to succeed.
    A negative [-procs] makes [wg.Add] panic. *)
Definition main_start (flags : FlagSet) (inp : MainInput) : M (option Sys) :=
  if (len (in_progs inp) =? 0) && (len (in_reverseProgs inp) =? 0)
  then ret None
  else
    Logf 0 ("[success] load " ++ itoa (len (in_progs inp)) ++ " progs and "
            ++ itoa (len (in_reverseProgs inp)) ++ " rev_progs") ;;;
    if flagProcs flags <? 0 then panic "sync: negative WaitGroup counter"
    else
      ret (Some {| main_at := MainSpawn 0;
                   wg := flagProcs flags;
                   revWg := 0;
                   origPool :=
                     {| pool_ctx := new_context (in_progs inp) (in_fileNameList inp)
                                      (in_debug inp) (flagRepeat flags);
                        workers := [] |};
                   revPool := None |}).

Definition spawn (pl : Pool) : Pool :=
  {| pool_ctx := pool_ctx pl; workers := app (workers pl) [WStart] |}.

Definition close_shutdown (pl : Pool) : Pool :=
  {| pool_ctx := set_shutdown (pool_ctx pl); workers := workers pl |}.

(** One step of the main goroutine. *)
Definition main_step (flags : FlagSet) (env : Env) (inp : MainInput) (s : Sys)
  : M Sys :=
  match main_at s with
  | MainSpawn p =>
      if p <? flagProcs flags
      then ret {| main_at := MainSpawn (p + 1); wg := wg s; revWg := revWg s;
                  origPool := spawn (origPool s); revPool := revPool s |}
      else ret {| main_at := MainWait; wg := wg s; revWg := revWg s;
                  origPool := origPool s; revPool := revPool s |}
  | MainWait =>
      (* wg.Wait() returns only when the counter is zero *)
      if wg s =? 0
      then ret {| main_at := MainSemantic; wg := wg s; revWg := revWg s;
                  origPool := origPool s; revPool := revPool s |}
      else ret s
  | MainSemantic =>
      if flagSemantic flags
      then ret {| main_at := MainRevSpawn 0; wg := wg s;
                  revWg := flagProcs flags;
                  origPool := origPool s;
                  revPool :=
                    Some {| pool_ctx :=
                              new_context (in_reverseProgs inp)
                                (in_reverseFileNameList inp) (in_debug inp)
                                (flagRepeat flags);
                            workers := [] |} |}
      else ret {| main_at := MainReport; wg := wg s; revWg := revWg s;
                  origPool := origPool s; revPool := revPool s |}
  | MainRevSpawn p =>
      if p <? flagProcs flags
      then ret {| main_at := MainRevSpawn (p + 1); wg := wg s; revWg := revWg s;
                  origPool := origPool s; revPool := spawn <$> revPool s |}
      else ret {| main_at := MainRevWait; wg := wg s; revWg := revWg s;
                  origPool := origPool s; revPool := revPool s |}
  | MainRevWait =>
      if revWg s =? 0
      then ret {| main_at := MainReport; wg := wg s; revWg := revWg s;
                  origPool := origPool s; revPool := revPool s |}
      else ret s
  | MainReport =>
      let done := {| main_at := MainExit; wg := wg s; revWg := revWg s;
                     origPool := origPool s; revPool := revPool s |} in
      if flagSemantic flags && negb (String.eqb (flagCoverFile flags) "") then
        let coverRecordFile := flagCoverFile flags ++ "_Evaluation_Results" in
        err <- saveToFile env coverRecordFile ;;
        match err with
        | Some e =>
            Logf 0 "failed to save coverRecord." ;;;
            Fatalf (error_text e)
        | None =>
            Logf 0 ("context effectiveness evaluation results saved to "
                    ++ coverRecordFile) ;;;
            ret done
        end
      else ret done
  | MainExit => ret s
  end.

(** Whether [osutil.HandleInterrupts] has been called for a pool. *)
Definition orig_handler_installed (pc : main_pc) : bool :=
  match pc with MainSpawn _ => false | _ => true end.
Definition rev_handler_installed (pc : main_pc) : bool :=
  match pc with MainRevWait | MainReport | MainExit => true | _ => false end.

(** What can happen next in the process. *)
Inductive action :=
| ActMain
| ActOrig (pid : nat) (now : Z)
| ActRev (pid : nat) (now : Z)
| ActInterrupt.

(** Whether the main goroutine has returned; the process is over then. *)
Definition exited (pc : main_pc) : bool :=
  match pc with MainExit => true | _ => false end.

(** One step of the process.  A worker's deferred [wg.Done()] runs in the
    turn in which its [run] returns. *)
Definition sys_step (flags : FlagSet) (env : Env) (dispatch : dispatcher)
    (inp : MainInput) (a : action) (s : Sys) : M Sys :=
  if exited (main_at s) then ret s
  else
    match a with
    | ActMain => main_step flags env inp s
    | ActOrig pid now =>
        r <- worker_turn dispatch env 0 pid now (origPool s) ;;
        ret {| main_at := main_at s;
               wg := if (r.1 : bool) then wg s - 1 else wg s;
               revWg := revWg s; origPool := r.2; revPool := revPool s |}
    | ActRev pid now =>
        match revPool s with
        | None => ret s
        | Some pl =>
            r <- worker_turn dispatch env 1 pid now pl ;;
            ret {| main_at := main_at s; wg := wg s;
                   revWg := if (r.1 : bool) then revWg s - 1 else revWg s;
                   origPool := origPool s; revPool := Some r.2 |}
        end
    | ActInterrupt =>
        ret {| main_at := main_at s; wg := wg s; revWg := revWg s;
               origPool := if orig_handler_installed (main_at s)
                           then close_shutdown (origPool s) else origPool s;
               revPool := if rev_handler_installed (main_at s)
                          then close_shutdown <$> revPool s else revPool s |}
    end.

Fixpoint sys_run (flags : FlagSet) (env : Env) (dispatch : dispatcher)
    (inp : MainInput) (acts : list action) (s : Sys) : M Sys :=
  match acts with
  | [] => ret s
  | a :: rest =>
      s' <- sys_step flags env dispatch inp a s ;;
      sys_run flags env dispatch inp rest s'
  end.

(** Every original-pool worker goroutine has returned: all [-procs] of
    them were started and each is past its [run]. *)
Definition orig_workers_returned (flags : FlagSet) (s : Sys) : Prop :=
  len (workers (origPool s)) = flagProcs flags /\ all_returned (origPool s).

(* ================================================================== *)
(** ** Program loading *)

(** The program sources, consumed opaquely.  [db_Open] yields the record
    values of a corpus in the order the loader ranges over them, or [None]
    when the path does not open as a corpus. *)
Record Sources := {
  db_Open : string -> option (list string);
  os_ReadFile : string -> option string;
  Deserialize : string -> option Prog;
  ParseLog : string -> list Prog
}.

(** The loop of [loadPrograms], with the programs gathered so far. *)
Fixpoint loadPrograms_from (src : Sources) (files : list string)
    (acc : list Prog) : M (list Prog) :=
  match files with
  | [] => ret acc
  | fn :: rest =>
      match db_Open src fn with
      | Some records =>
          loadPrograms_from src rest (app acc (omap (Deserialize src) records))
      | None =>
          match os_ReadFile src fn with
          | None => Fatalf "failed to read log file"
          | Some data => loadPrograms_from src rest (app acc (ParseLog src data))
          end
      end
  end.

Definition loadPrograms (src : Sources) (files : list string) : M (list Prog) :=
  ps <- loadPrograms_from src files [] ;;
  Logf 0 ("parsed " ++ itoa (len ps) ++ " programs") ;;;
  ret ps.

(** A source is readable when it opens as a corpus or can be read as a
    log file. *)
Definition readable (src : Sources) (fn : string) : Prop :=
  is_Some (db_Open src fn) \/ is_Some (os_ReadFile src fn).

(* ================================================================== *)
(** ** Vocabulary of the statements *)

Definition add_events (w : World) (evs : list event) : World :=
  {| coverRecord := coverRecord w; execFailCnt := execFailCnt w;
     trace := app (trace w) evs |}.

(** What [n] retries leave in the trace: a log line and a one-second
    sleep each. *)
Definition retry_events (n : nat) : list event :=
  mjoin (replicate n [EvLog 1 "executor failed, retrying"; EvSleep Second]).

(** A mock executor that fails exactly [k] times with a non-sentinel
    error and then succeeds. *)
Definition fails_then_succeeds (k : Z) (exec : Z -> ExecResult) : Prop :=
  (forall t, 0 <= t < k -> is_failure (ex_err (exec t)) = true) /\
  is_failure (ex_err (exec k)) = false.

Definition batch_mode (flags : FlagSet) : Prop := flagProgDir flags <> "".

(** The number of one-second sleeps in a trace. *)
Definition is_sleep (e : event) : bool :=
  match e with EvSleep d => d =? Second | _ => false end.

Definition sleeps (t : list event) : nat := length (List.filter is_sleep t).

(** The mock executor of the retry test: attempt [try] fails with a
    non-sentinel error while [try < k], and succeeds without result
    information from attempt [k] on. *)
Definition mock_executor (k : Z) (try : Z) : ExecResult :=
  if try <? k
  then {| ex_output := "SYZFAIL"; ex_info := None; ex_hanged := false;
          ex_err := Some (ErrOther "executor failed") |}
  else {| ex_output := ""; ex_info := None; ex_hanged := false;
          ex_err := None |}.

(** The programs one source contributes: the records of a corpus that
    deserialize, or else the entries of the log. *)
Definition source_programs (src : Sources) (fn : string) : list Prog :=
  match db_Open src fn with
  | Some records => omap (Deserialize src) records
  | None =>
      match os_ReadFile src fn with
      | Some data => ParseLog src data
      | None => []
      end
  end.

Definition loaded (src : Sources) (files : list string) : list Prog :=
  mjoin (map (source_programs src) files).

(** The world with one entry of the coverage-record map set. *)
Definition set_record (w : World) (key : string) (e : cover_entry) : World :=
  {| coverRecord := <[key := e]> (coverRecord w);
     execFailCnt := execFailCnt w; trace := trace w |}.

(** The program-counter set of one call, after address restoration. *)
Definition restored (env : Env) (cover : list N) : gset N :=
  list_to_set (map (fun pc => RestorePC env pc 0xffffffff) cover).

(** The set-union of the per-call program-counter sets of a program. *)
Definition union_cover (env : Env) (info : ProgInfo) : gset N :=
  ⋃ (map (fun inf => restored env (Cover inf)) (Calls info)).

(** The line of an absolute program counter: [0x<hex>]. *)
Definition pc_string (a : N) : string := "0x" ++ hex a.

(** The classification of an entry, in the words of the specification:
    Win if [covOriginal > covReverse], Equal if they are equal, Lose
    otherwise; an entry of length 1 is one-line. *)
Inductive verdict := Win | Equal | Lose.

Global Instance verdict_eq_dec : EqDecision verdict.
Proof. solve_decision. Defined.

Definition classify (e : cover_entry) : verdict :=
  let '(covOriginal, covReverse, _) := e in
  if covReverse <? covOriginal then Win
  else if covOriginal =? covReverse then Equal
  else Lose.

Definition one_line (e : cover_entry) : bool := e.2 =? 1.

(** The number of entries that satisfy a test. *)
Definition count (test : cover_entry -> bool) (vals : list cover_entry) : Z :=
  Z.of_nat (length (List.filter test vals)).

Definition has_verdict (v : verdict) (e : cover_entry) : bool :=
  bool_decide (classify e = v).

(** The counters the report is to show for a list of entries. *)
Definition spec_counters (vals : list cover_entry) : Counters :=
  {| totalProgCnt := len vals;
     totalWinCnt := count (has_verdict Win) vals;
     totalEqualCnt := count (has_verdict Equal) vals;
     totalLoseCnt := count (has_verdict Lose) vals;
     oneLineProgCnt := count one_line vals;
     oneLineWinCnt := count (fun e => has_verdict Win e && one_line e) vals;
     oneLineEqualCnt := count (fun e => has_verdict Equal e && one_line e) vals;
     oneLineLoseCnt := count (fun e => has_verdict Lose e && one_line e) vals |}.

(** A rate as the specification words it, [num / den * 100], computed in
    [float64] and printed with two decimals and a percent sign. *)
Definition rate (num den : Z) : string :=
  fmt_pct (float64 num / float64 den * float64 100)%float.

(** The events of a report written in full: creation, header, one row per
    entry in iteration order, summary, close. *)
Definition report_events (fileName : string) (rows : list (string * cover_entry))
    (failCnt : Z) : list event :=
  app [EvCreate fileName; EvWriteString fileName header_line]
      (app (map (fun kv => EvWriteString fileName (row_line kv.1 kv.2)) rows)
           [EvWriteString fileName (summary_block (spec_counters rows.*2) failCnt);
            EvClose fileName]).

(** Two contexts that differ at most in the cursor and the time of the
    last progress line. *)
Definition same_pool (ctx ctx' : Context) : Prop :=
  progs ctx' = progs ctx /\ progFns ctx' = progFns ctx /\
  cfgDebug ctx' = cfgDebug ctx /\ shutdown ctx' = shutdown ctx /\
  repeat ctx' = repeat ctx.

(** A dispatcher that always returns and is not itself a scheduler: it
    leaves no dispatch mark of its own. *)
Definition dispatch_returns (dispatch : dispatcher) : Prop :=
  forall ctx pid p idx covType w,
    exists w', dispatch ctx pid p idx covType w = Ret tt w' /\
               dispatches (trace w') = dispatches (trace w).

(** A call of [ctx.execute], as the dispatcher received it. *)
Record Call := {
  call_pid : Z;
  call_prog : Prog;
  call_tag : Z;
  call_covType : Z
}.

(** The calls recorded in a trace, oldest first. *)
Definition executions (t : list event) : list Call :=
  omap (fun e => match e with
                 | EvExecute pid p tag covType =>
                     Some {| call_pid := pid; call_prog := p; call_tag := tag;
                             call_covType := covType |}
                 | _ => None
                 end) t.

(** A dispatcher that records its calls: it always returns, and what it
    adds to the trace holds exactly one call mark, with the arguments it
    was given, and no dispatch mark. *)
Definition records_calls (dispatch : dispatcher) : Prop :=
  forall ctx pid p idx covType w,
    exists w', dispatch ctx pid p idx covType w = Ret tt w' /\
               dispatches (trace w') = dispatches (trace w) /\
               executions (trace w')
               = app (executions (trace w))
                     [{| call_pid := pid; call_prog := p; call_tag := idx;
                         call_covType := covType |}].

(** The dispatcher that marks the arguments it is given and goes on as
    [dispatch]. *)
Definition recording (dispatch : dispatcher) : dispatcher :=
  fun ctx pid p idx covType =>
    emit (EvExecute pid p idx covType) ;;; dispatch ctx pid p idx covType.

(** The call the scheduling rule asks for at cursor value [i]: the
    program at position [i mod |ps|], tagged [i], with the coverage type
    of the pool. *)
Definition is_call_of (ps : list Prog) (covType : Z) (c : Call) (i : Z) : Prop :=
  call_tag c = i /\
  ps !! Z.to_nat (i mod len ps) = Some (call_prog c) /\
  call_covType c = covType.

(** The calls a pool has made since the calls [E0]: those of the cursor
    values below both the cursor and [|ps| * R], in cursor order. *)
Definition calls_inv (ps : list Prog) (R covType : Z) (E0 : list Call)
    (pl : Pool) (w : World) : Prop :=
  exists es,
    executions (trace w) = app E0 es /\
    Forall2 (is_call_of ps covType) es
      (seqZ 0 (Z.min (pos (pool_ctx pl)) (len ps * R))).

(** The number of workers that have returned. *)
Definition count_done (ws : list wstate) : nat := length (filter (eq WDone) ws).
Arguments count_done : simpl never.

(** The number of turns a schedule gives to a worker. *)
Definition turns_of (pid : nat) (sched : list (nat * Z)) : nat :=
  length (filter (fun t => t.1 = pid) sched).

(** The dispatch of cursor value [i] in a pool of [n] programs. *)
Definition dispatch_of (n i : Z) : Z * Z := (i mod n, i).

(** The invariant of a pool over the programs [ps] with repeat limit [R]
    and [P] workers, none of them interrupted: the cursor counts the
    draws, the workers that returned are those that drew beyond
    [|ps| * R], and the dispatches made since the trace [D0] are those of
    the cursor values below both the cursor and [|ps| * R]. *)
Definition pool_inv (ps : list Prog) (R : Z) (P : nat) (D0 : list (Z * Z))
    (pl : Pool) (w : World) : Prop :=
  progs (pool_ctx pl) = ps /\
  repeat (pool_ctx pl) = R /\
  shutdown (pool_ctx pl) = false /\
  0 <= pos (pool_ctx pl) /\
  length (workers pl) = P /\
  Z.of_nat (count_done (workers pl)) = Z.max 0 (pos (pool_ctx pl) - len ps * R) /\
  dispatches (trace w)
  = app D0 (map (dispatch_of (len ps))
                (seqZ 0 (Z.min (pos (pool_ctx pl)) (len ps * R)))).

(** How many turns of its own a worker needs at most before it has
    returned: one per dispatch still to be made by the pool, one to leave
    the loop, and one to create its environment. *)
Definition turns_left (ps : list Prog) (R : Z) (pid : nat) (pl : Pool) : nat :=
  match workers pl !! pid with
  | Some WStart => 2 + Z.to_nat (len ps * R - pos (pool_ctx pl))
  | Some WLoop => 1 + Z.to_nat (len ps * R - pos (pool_ctx pl))
  | _ => 0
  end.

(** The invariant of the process: [wg] counts the original workers that
    have not returned; while the main goroutine is in its first spawn
    loop or waits on [wg], the reverse pool does not exist; once it is
    past [wg.Wait()], every original worker has returned. *)
Definition sys_inv (flags : FlagSet) (s : Sys) : Prop :=
  wg s = flagProcs flags - Z.of_nat (count_done (workers (origPool s))) /\
  match main_at s with
  | MainSpawn p =>
      0 <= p <= flagProcs flags /\ len (workers (origPool s)) = p /\
      revPool s = None
  | MainWait =>
      len (workers (origPool s)) = flagProcs flags /\ revPool s = None
  | _ => orig_workers_returned flags s
  end.

(** The loop invariant of the accumulation: the keys of [totalMap] are the
    lines of the program counters seen so far, and [covNum] counts them. *)
Definition total_inv (acc : gmap string Z * Z) (seen : gset N) : Prop :=
  dom acc.1 = set_map pc_string seen /\
  size acc.1 = size seen /\
  acc.2 = Z.of_nat (size seen).

(** Unfold the invariant on a state given by its fields. *)
Ltac sys_simpl :=
  unfold sys_inv, orig_workers_returned, all_returned;
  cbn [main_at wg revWg origPool revPool spawn close_shutdown workers pool_ctx].

(* ================================================================== *)
(** ** Concrete inputs used by the examples *)

(** Flags of a run without cover file, in directory mode when [progDir]
    is not empty. *)
Definition retry_flags (progDir : string) (maxRetry : Z) : FlagSet :=
  {| flagCoverFile := ""; flagRepeat := 1; flagProcs := 1; flagOutput := false;
     flagHints := false; flagSemantic := false; flagProgDir := progDir;
     flagNoDumpCall := false; flagMaxRetry := maxRetry |}.

(** An outside world in which every file operation succeeds, addresses
    are restored as syzkaller does ([base << 32 + pc]) and maps are ranged
    over in the order of their listing. *)
Definition plain_env : Env :=
  {| RestorePC := fun pc base => (N.shiftl base 32 + pc)%N;
     WriteFile_ok := fun _ => true;
     MakeEnv_ok := fun _ => true;
     Create_ok := fun _ => true;
     WriteString_ok := fun _ _ => true;
     range_keys := fun m => (map_to_list m).*1;
     range_records := fun m => map_to_list m;
     NumCalls := fun _ => 1%nat;
     MutateWithHints := fun _ _ _ => [] |}.

Definition one_prog_context : Context :=
  new_context [ {| Serialize := "getpid()" |} ] ["prog0"] false 1.

(** Two sources: a corpus with one good and one malformed record, and a
    path that can be neither opened nor read. *)
Definition two_sources : Sources :=
  {| db_Open := fun fn => if String.eqb fn "corpus.db"
                          then Some ["getpid()"; "garbage"] else None;
     os_ReadFile := fun _ => None;
     Deserialize := fun data => if String.eqb data "garbage" then None
                                else Some {| Serialize := data |};
     ParseLog := fun _ => [] |}.

(** Flags of a run that writes coverage to [cov...]; [semantic] selects
    the dual-mode run. *)
Definition cover_flags (semantic : bool) : FlagSet :=
  {| flagCoverFile := "cov"; flagRepeat := 1; flagProcs := 1; flagOutput := false;
     flagHints := false; flagSemantic := semantic; flagProgDir := "";
     flagNoDumpCall := false; flagMaxRetry := 10 |}.

Definition call_with (cover : list N) : CallInfo :=
  {| Flags := 3; Signal := []; Cover := cover; Comps := []; Errno := 0 |}.

(** A program of three calls whose coverage overlaps: five program
    counters reported, three distinct ones. *)
Definition overlap_info : ProgInfo :=
  {| Calls := [call_with [1; 2]%N; call_with [2; 3]%N; call_with [3]%N];
     Extra := call_with [] |}.

(** A program of a single call. *)
Definition single_call_info : ProgInfo :=
  {| Calls := [call_with [7]%N]; Extra := call_with [] |}.

(** The synthetic record map of the specification's example:
    Win (length 3), Win (length 1), Equal (length 2), Lose (length 4). *)
Definition four_entries : gmap string cover_entry :=
  <["cov_a" := (10, 7, 3)]>
    (<["cov_b" := (4, 2, 1)]>
       (<["cov_c" := (5, 5, 2)]>
          {["cov_d" := (1, 6, 4)]})).

Definition four_entries_world : World :=
  {| coverRecord := four_entries; execFailCnt := 0; trace := [] |}.

(** A record map of two entries, both one-line wins. *)
Definition one_line_wins_world : World :=
  {| coverRecord := <["cov_a" := (3, 1, 1)]> {["cov_b" := (2, 0, 1)]};
     execFailCnt := 0; trace := [] |}.

(** The scheduling example of the specification: four programs, two
    workers, repeat limit 2. *)
Definition four_progs : list Prog :=
  [ {| Serialize := "getpid()" |}; {| Serialize := "getuid()" |};
    {| Serialize := "sync()" |}; {| Serialize := "gettid()" |} ].

Definition four_progs_context : Context :=
  new_context four_progs ["p0"; "p1"; "p2"; "p3"] false 2.

(** Four programs with a repeat limit whose product with their number
    is 2^64, which a 64-bit [int] holds as 0. *)
Definition wrapping_context : Context :=
  new_context four_progs ["p0"; "p1"; "p2"; "p3"] false (2 ^ 62).

(** [ctx.execute] over an executor that succeeds at once, without cover
    file. *)
Definition quiet_dispatch : dispatcher :=
  fun ctx pid p idx covType =>
    execute 1 (retry_flags "" 10) plain_env ctx (mock_executor 0) pid p idx covType.

(** The two workers take turns, ten each. *)
Definition alternating_schedule : list (nat * Z) :=
  mjoin (replicate 10 [(0%nat, 0); (1%nat, 0)]).

(** A dual-mode run with one worker per pool over one program and its
    reverse variant. *)
Definition dual_flags : FlagSet :=
  {| flagCoverFile := ""; flagRepeat := 1; flagProcs := 1; flagOutput := false;
     flagHints := false; flagSemantic := true; flagProgDir := "";
     flagNoDumpCall := false; flagMaxRetry := 10 |}.

Definition dual_input : MainInput :=
  {| in_progs := [ {| Serialize := "getpid()" |} ];
     in_fileNameList := ["p0"];
     in_reverseProgs := [ {| Serialize := "getpid()" |} ];
     in_reverseFileNameList := ["p0.rev"];
     in_debug := false |}.

(** The original worker is spawned, runs its program once and returns;
    the main goroutine passes the barrier, constructs the reverse pool
    and spawns its worker, which creates its environment. *)
Definition dual_actions : list action :=
  [ActMain; ActMain; ActOrig 0 1; ActOrig 0 2; ActOrig 0 3;
   ActMain; ActMain; ActMain; ActRev 0 4].

(* ================================================================== *)
(** ** Execution configuration *)

(** The flag constants of package [ipc].  The package defines each as
    [1 << iota]; the record holds the bit positions, which differ from
    one syzkaller revision to the next. *)
Record IpcBits := {
  (* [ipc.EnvFlags] *)
  bitSignal : N;
  bitExtraCover : N;
  bitDelayKcovMmap : N;
  bitEnableTun : N;
  bitEnableNetDev : N;
  bitEnableNetReset : N;
  bitEnableCgroups : N;
  bitEnableCloseFds : N;
  bitEnableDevlinkPCI : N;
  bitEnableNicVF : N;
  bitEnableVhciInjection : N;
  bitEnableWifi : N;
  (* [ipc.ExecFlags] *)
  bitCollectCover : N;
  bitDedupCover : N;
  bitCollectComps : N
}.

(** The flag whose only set bit is at position [b]. *)
Definition flag (b : N) : N := N.shiftl 1 b.

(** The host features [createConfig] consults. *)
Inductive HostFeature :=
| FeatureExtraCoverage
| FeatureDelayKcovMmap
| FeatureNetInjection
| FeatureNetDevices
| FeatureDevlinkPCI
| FeatureNicVF
| FeatureVhciInjection
| FeatureWifiEmulation.

(** What [createConfig] is given: the result of [ipcconfig.Default]
    ([config.Flags] and [execOpts.Flags], or the error), the
    [Enabled] field of each host feature, and that of each entry of
    [featuresFlags] (a missing key reads as not enabled). *)
Record ConfigInput := {
  ipc_Default : N * N + error;
  features : HostFeature -> bool;
  featuresFlags : string -> bool
}.

(** [flags |= f], [flags &^= f] and [flags ^= f]. *)
Definition set_flag (flags f : N) : N := N.lor flags f.
Definition clear_flag (flags f : N) : N := N.ldiff flags f.
Definition toggle_flag (flags f : N) : N := N.lxor flags f.

(** [flags&f != 0]. *)
Definition has_flag (flags f : N) : bool := negb (N.land flags f =? 0)%N.

(** [createConfig]: the pair of [config.Flags] and [execOpts.Flags] it
    returns. *)
Definition createConfig (bits : IpcBits) (flags : FlagSet) (inp : ConfigInput)
  : M (N * N) :=
  match ipc_Default inp with
  | inr err => Fatalf (error_text err)
  | inl (config, execOpts) =>
      let execOpts := if has_flag config (flag (bitSignal bits))
                      then set_flag execOpts (flag (bitCollectCover bits))
                      else execOpts in
      let '(config, execOpts) :=
        if negb (String.eqb (flagCoverFile flags) "")
        then (set_flag config (flag (bitSignal bits)),
              clear_flag (set_flag execOpts (flag (bitCollectCover bits)))
                         (flag (bitDedupCover bits)))
        else (config, execOpts) in
      let execOpts :=
        if flagHints flags
        then set_flag
               (if has_flag execOpts (flag (bitCollectCover bits))
                then toggle_flag execOpts (flag (bitCollectCover bits))
                else execOpts)
               (flag (bitCollectComps bits))
        else execOpts in
      let config := if features inp FeatureExtraCoverage
                    then set_flag config (flag (bitExtraCover bits)) else config in
      let config := if features inp FeatureDelayKcovMmap
                    then set_flag config (flag (bitDelayKcovMmap bits)) else config in
      let config := if featuresFlags inp "tun" && features inp FeatureNetInjection
                    then set_flag config (flag (bitEnableTun bits)) else config in
      let config := if featuresFlags inp "net_dev" && features inp FeatureNetDevices
                    then set_flag config (flag (bitEnableNetDev bits)) else config in
      let config := if featuresFlags inp "net_reset"
                    then set_flag config (flag (bitEnableNetReset bits)) else config in
      let config := if featuresFlags inp "cgroups"
                    then set_flag config (flag (bitEnableCgroups bits)) else config in
      let config := if featuresFlags inp "close_fds"
                    then set_flag config (flag (bitEnableCloseFds bits)) else config in
      let config := if featuresFlags inp "devlink_pci" && features inp FeatureDevlinkPCI
                    then set_flag config (flag (bitEnableDevlinkPCI bits)) else config in
      let config := if featuresFlags inp "nic_vf" && features inp FeatureNicVF
                    then set_flag config (flag (bitEnableNicVF bits)) else config in
      let config := if featuresFlags inp "vhci" && features inp FeatureVhciInjection
                    then set_flag config (flag (bitEnableVhciInjection bits))
                    else config in
      let config := if featuresFlags inp "wifi" && features inp FeatureWifiEmulation
                    then set_flag config (flag (bitEnableWifi bits)) else config in
      ret (config, execOpts)
  end.

(** Bit positions as one syzkaller revision has them. *)
Definition example_bits : IpcBits :=
  {| bitSignal := 1; bitExtraCover := 7; bitDelayKcovMmap := 15;
     bitEnableTun := 8; bitEnableNetDev := 9; bitEnableNetReset := 10;
     bitEnableCgroups := 11; bitEnableCloseFds := 12;
     bitEnableDevlinkPCI := 13; bitEnableNicVF := 16;
     bitEnableVhciInjection := 14; bitEnableWifi := 17;
     bitCollectCover := 0; bitDedupCover := 1; bitCollectComps := 2 |}.

(** Defaults with signal collection off and cover deduplication on, on a
    host with every feature enabled and [tun] requested. *)
Definition example_config_input : ConfigInput :=
  {| ipc_Default := inl (0%N, 2%N);
     features := fun _ => true;
     featuresFlags := fun name => String.eqb name "tun" |}.

Definition hints_flags (coverFile : string) (hints : bool) : FlagSet :=
  {| flagCoverFile := coverFile; flagRepeat := 1; flagProcs := 1;
     flagOutput := false; flagHints := hints; flagSemantic := false;
     flagProgDir := ""; flagNoDumpCall := false; flagMaxRetry := 10 |}.

(* ================================================================== *)
(** ** The file lists of [main] *)

(** [strings.LastIndex(s, substr)] when the search starts at byte [i] of
    the whole string: the byte index of the last occurrence of [substr],
    or -1. *)
Fixpoint LastIndex_from (s substr : string) (i : Z) : Z :=
  match s with
  | EmptyString => if String.prefix substr "" then i else -1
  | String _ s' =>
      let later := LastIndex_from s' substr (i + 1) in
      if 0 <=? later then later
      else if String.prefix substr s then i else -1
  end.

Definition LastIndex (s substr : string) : Z := LastIndex_from s substr 0.

(** [s[:index]], with the runtime's bounds check. *)
Definition slice_to (s : string) (index : Z) : option string :=
  if (index <? 0) || (Z.of_nat (String.length s) <? index) then None
  else Some (String.substring 0 (Z.to_nat index) s).

(** An [os.DirEntry]. *)
Record DirEntry := { Name : string; IsDir : bool }.

(** The file system as [main] sees it: [os.ReadDir] (the entries, or the
    error), [filepath.Join] of two elements and [filepath.Base]. *)
Record Paths := {
  os_ReadDir : string -> list DirEntry + error;
  filepath_Join : string -> string -> string;
  filepath_Base : string -> string
}.

(** The four lists [main] builds. *)
Record FileLists := {
  fileNameList : list string;
  filePathList : list string;
  reverseFileNameList : list string;
  reverseFilePathList : list string
}.

Definition no_files : FileLists :=
  {| fileNameList := []; filePathList := [];
     reverseFileNameList := []; reverseFilePathList := [] |}.

(** One iteration of the loop over the directory entries. *)
Definition add_dir_entry (flags : FlagSet) (fs : Paths) (acc : FileLists)
    (file : DirEntry) : M FileLists :=
  if IsDir file then ret acc
  else if flagSemantic flags then
    if HasSuffix (Name file) ".rev" then
      match slice_to (Name file) (LastIndex (Name file) ".rev") with
      | None => panic "slice bounds out of range"
      | Some origName =>
          ret {| fileNameList := app (fileNameList acc) [origName];
                 filePathList :=
                   app (filePathList acc)
                       [filepath_Join fs (flagProgDir flags) origName];
                 reverseFileNameList := app (reverseFileNameList acc) [Name file];
                 reverseFilePathList :=
                   app (reverseFilePathList acc)
                       [filepath_Join fs (flagProgDir flags) (Name file)] |}
      end
    else ret acc
  else
    ret {| fileNameList := app (fileNameList acc) [Name file];
           filePathList :=
             app (filePathList acc)
                 [filepath_Join fs (flagProgDir flags) (Name file)];
           reverseFileNameList := reverseFileNameList acc;
           reverseFilePathList := reverseFilePathList acc |}.

(** One iteration of the loop over the command-line arguments. *)
Definition add_arg (flags : FlagSet) (fs : Paths) (acc : FileLists)
    (filePath : string) : FileLists :=
  let acc' := {| fileNameList := app (fileNameList acc) [filepath_Base fs filePath];
                 filePathList := app (filePathList acc) [filePath];
                 reverseFileNameList := reverseFileNameList acc;
                 reverseFilePathList := reverseFilePathList acc |} in
  if flagSemantic flags then
    let reverseFilePath := filePath ++ ".rev" in
    {| fileNameList := fileNameList acc';
       filePathList := filePathList acc';
       reverseFileNameList :=
         app (reverseFileNameList acc') [filepath_Base fs reverseFilePath];
       reverseFilePathList := app (reverseFilePathList acc') [reverseFilePath] |}
  else acc'.

Fixpoint add_dir_entries (flags : FlagSet) (fs : Paths) (acc : FileLists)
    (files : list DirEntry) : M FileLists :=
  match files with
  | [] => ret acc
  | file :: rest =>
      acc' <- add_dir_entry flags fs acc file ;;
      add_dir_entries flags fs acc' rest
  end.

(** The list-building part of [main]; [args] is [flag.Args()].  When
    [os.ReadDir] fails, the program formats [err], not [errdir]: that is
    the error of the earlier [prog.GetTarget], which is nil at this
    point, and [%v] prints a nil error as [<nil>]. *)
Definition build_file_lists (flags : FlagSet) (fs : Paths) (args : list string)
  : M FileLists :=
  if negb (String.eqb (flagProgDir flags) "") then
    match os_ReadDir fs (flagProgDir flags) with
    | inr errdir => Fatalf "<nil>"
    | inl files => add_dir_entries flags fs no_files files
    end
  else ret (foldl (add_arg flags fs) no_files args).

(** A directory with an original program, its reverse variant, a
    sub-directory and a reverse variant without counterpart. *)
Definition example_paths : Paths :=
  {| os_ReadDir := fun dir =>
       if String.eqb dir "progs"
       then inl [ {| Name := "open"; IsDir := false |};
                  {| Name := "open.rev"; IsDir := false |};
                  {| Name := "old.rev"; IsDir := true |};
                  {| Name := "read.rev"; IsDir := false |} ]
       else inr (ErrOther "no such file or directory");
     filepath_Join := fun dir name => dir ++ "/" ++ name;
     filepath_Base := fun path => path |}.

Definition progdir_flags (semantic : bool) : FlagSet :=
  {| flagCoverFile := "cov"; flagRepeat := 1; flagProcs := 1;
     flagOutput := false; flagHints := false; flagSemantic := semantic;
     flagProgDir := "progs"; flagNoDumpCall := false; flagMaxRetry := 10 |}.

Definition cmdline_flags (semantic : bool) : FlagSet :=
  {| flagCoverFile := "cov"; flagRepeat := 1; flagProcs := 1;
     flagOutput := false; flagHints := false; flagSemantic := semantic;
     flagProgDir := ""; flagNoDumpCall := false; flagMaxRetry := 10 |}.

(** A write to the report file. *)
Definition is_report_write (fileName : string) (e : event) : Prop :=
  exists line, e = EvWriteString fileName line.

(** The counters of the report fit together: every entry counted has
    exactly one verdict, and the one-line counters count a part of what
    the total counters count. *)
Definition counters_consistent (c : Counters) : Prop :=
  totalProgCnt c = totalWinCnt c + totalEqualCnt c + totalLoseCnt c /\
  oneLineProgCnt c = oneLineWinCnt c + oneLineEqualCnt c + oneLineLoseCnt c /\
  0 <= oneLineWinCnt c <= totalWinCnt c /\
  0 <= oneLineEqualCnt c <= totalEqualCnt c /\
  0 <= oneLineLoseCnt c <= totalLoseCnt c.

(* ================================================================== *)
(** ** What a computation does to the trace *)

(** The two events of the gate. *)
Definition is_gate (e : event) : bool :=
  match e with
  | EvGateEnter | EvGateLeave => true
  | _ => false
  end.

(** [appends P m]: however [m] ends, the trace it leaves is the trace it
    found followed by events that satisfy [P]. *)
Definition appends (P : event -> Prop) {A} (m : M A) : Prop :=
  forall w,
    match m w with
    | Ret _ w' | Fatal _ w' | Panic _ w' =>
        exists evs, trace w' = app (trace w) evs /\ Forall P evs
    | OutOfFuel => True
    end.

(** [m] ends: it does not depend on loop fuel. *)
Definition terminates {A} (m : M A) : Prop := forall w, m w <> OutOfFuel.

(** [m] returns, and all it does is add events to the trace. *)
Definition adds (m : M unit) : Prop :=
  forall w, exists evs, m w = Ret tt (add_events w evs).

(** The turns a worker of a shut-down pool still takes before its [run]
    has returned: one to create its environment, one to see the closed
    channel. *)
Definition turns_to_return (st : wstate) : nat :=
  match st with
  | WStart => 2
  | WLoop => 1
  | WDone => 0
  end.

(** The invariant of the reverse pool.  Before [revCtx] is constructed
    its wait group is untouched, and the main goroutine is not in the
    second spawn loop or waiting on [revWg]; if it is past that point,
    [-semantic] was not given.  Once the pool exists, [-semantic] was
    given, [revWg] counts the reverse workers that have not returned, and
    the main goroutine is past [revWg.Wait()] only if all of them have
    returned. *)
Definition rev_inv (flags : FlagSet) (s : Sys) : Prop :=
  match revPool s with
  | None =>
      revWg s = 0 /\
      match main_at s with
      | MainRevSpawn _ | MainRevWait => False
      | MainReport | MainExit => flagSemantic flags = false
      | _ => True
      end
  | Some pl =>
      flagSemantic flags = true /\
      revWg s = flagProcs flags - Z.of_nat (count_done (workers pl)) /\
      match main_at s with
      | MainSpawn _ | MainWait | MainSemantic => False
      | MainRevSpawn p => 0 <= p <= flagProcs flags /\ len (workers pl) = p
      | MainRevWait => len (workers pl) = flagProcs flags
      | MainReport | MainExit =>
          len (workers pl) = flagProcs flags /\ all_returned pl
      end
  end.

(** The dual-mode run continued to the report: the reverse worker runs
    its program and returns, and the main goroutine passes
    [revWg.Wait()]. *)
Definition dual_full_actions : list action :=
  app dual_actions [ActRev 0 5; ActRev 0 6; ActMain; ActMain].

(** The events that touch the file system. *)
Definition is_file_event (e : event) : bool :=
  match e with
  | EvWriteFile _ _ | EvCreate _ | EvWriteString _ _ | EvClose _ => true
  | _ => false
  end.

(** [w'] differs from [w] by log lines, sleeps, gate moves and printed
    text only: no file is touched and the record map is as it was. *)
Definition no_artifacts (w w' : World) : Prop :=
  coverRecord w' = coverRecord w /\
  exists evs, trace w' = app (trace w) evs /\
              Forall (fun e => is_file_event e = false) evs.

(** However [m] ends, it leaves the world related by [R] to the one it
    found. *)
Definition stable (R : World -> World -> Prop) {A} (m : M A) : Prop :=
  forall w,
    match m w with
    | Ret _ w' | Fatal _ w' | Panic _ w' => R w w'
    | OutOfFuel => True
    end.

(** An executor that succeeds at once and reports the coverage of
    [overlap_info]. *)
Definition cover_executor (try : Z) : ExecResult :=
  {| ex_output := ""; ex_info := Some overlap_info; ex_hanged := false;
     ex_err := None |}.

(* ================================================================== *)
(** * Properties *)

(** ** Machine integers and the monad *)

Lemma wrap64_small z : int_min <= z <= int_max -> wrap64 z = z.
Proof.
  unfold wrap64, int_min, int_max. intros H.
  rewrite Z.mod_small; lia.
Qed.

Lemma add_events_nil w : add_events w [] = w.
Proof. destruct w; unfold add_events; simpl. by rewrite app_nil_r. Qed.

Lemma add_events_app w e1 e2 :
  add_events (add_events w e1) e2 = add_events w (app e1 e2).
Proof. unfold add_events; simpl. by rewrite app_assoc. Qed.

Lemma emit_add w e : emit e w = Ret tt (add_events w [e]).
Proof. reflexivity. Qed.

Lemma retry_events_S n :
  retry_events (S n)
  = app [EvLog 1 "executor failed, retrying"; EvSleep Second] (retry_events n).
Proof. reflexivity. Qed.

Lemma retry_events_snoc n :
  retry_events (S n)
  = app (retry_events n) [EvLog 1 "executor failed, retrying"; EvSleep Second].
Proof.
  induction n as [|n IH]; [reflexivity|].
  rewrite retry_events_S, IH at 1. rewrite retry_events_S.
  by rewrite <- !app_assoc.
Qed.

Lemma sleeps_retry_events n : sleeps (retry_events n) = n.
Proof.
  induction n as [|n IH]; [reflexivity|].
  rewrite retry_events_S. unfold sleeps in *. simpl. by rewrite IH.
Qed.

(** ** The retrying executor *)

Section Retry.
Variables (flags : FlagSet) (env : Env) (ctx : Context).
Variables (exec : Z -> ExecResult) (p : Prog) (progIndex covType : Z).

Let loop fuel := execute_loop fuel flags env ctx exec p progIndex covType.

(** [n] failing attempts from [try] on, none beyond the budget: the
    loop sleeps [n] times and stands at attempt [try + n]. *)
Lemma execute_loop_retries n : forall fuel try w,
  0 <= try ->
  try + Z.of_nat n <= int_max ->
  (forall t, try <= t < try + Z.of_nat n ->
             is_failure (ex_err (exec t)) = true /\ t <= flagMaxRetry flags) ->
  loop (n + fuel)%nat try w
  = loop fuel (try + Z.of_nat n) (add_events w (retry_events n)).
Proof.
  induction n as [|n IH]; intros fuel try w H0 Hmax Hfail.
  - simpl. by rewrite Z.add_0_r, add_events_nil.
  - destruct (Hfail try ltac:(lia)) as [Hf Hle].
    change (S n + fuel)%nat with (S (n + fuel)).
    unfold loop at 1. simpl. fold (loop (n + fuel)%nat).
    rewrite Hf.
    destruct (Z.gtb_spec try (flagMaxRetry flags)) as [Hgt|_]; [lia|].
    unfold bind, Logf. rewrite !emit_add. rewrite add_events_app.
    unfold int_add. rewrite wrap64_small by (unfold int_min, int_max in *; lia).
    rewrite IH.
    + rewrite add_events_app. rewrite retry_events_S.
      replace (try + 1 + Z.of_nat n) with (try + Z.of_nat (S n)) by lia.
      reflexivity.
    + lia.
    + lia.
    + intros t Ht. apply Hfail. lia.
Qed.

(** The executor fails [k] times and then succeeds, and no failing
    attempt is beyond the budget ([k <= maxRetry + 1]): the dispatch
    sleeps one second [k] times, runs [k] retries and goes on with the
    result of attempt [k]. *)
Lemma execute_loop_success k fuel w :
  0 <= k <= flagMaxRetry flags + 1 ->
  k <= int_max ->
  fails_then_succeeds k exec ->
  loop (Z.to_nat k + S fuel)%nat 0 w
  = execute_success flags env ctx p progIndex covType (exec k)
      (add_events w (retry_events (Z.to_nat k))).
Proof.
  intros Hk Hmax [Hfail Hok].
  rewrite execute_loop_retries.
  - rewrite Z2Nat.id by lia. rewrite Z.add_0_l.
    unfold loop. simpl. by rewrite Hok.
  - lia.
  - rewrite Z2Nat.id; lia.
  - intros t Ht. rewrite Z2Nat.id in Ht by lia. split; [apply Hfail|]; lia.
Qed.

(** The executor fails at least [maxRetry + 2] times: the attempt
    numbered [maxRetry + 1] is the first beyond the budget, after
    [maxRetry + 1] sleeps. *)
Lemma execute_loop_exhausted fuel w :
  0 <= flagMaxRetry flags < int_max ->
  (forall t, 0 <= t <= flagMaxRetry flags + 1 ->
             is_failure (ex_err (exec t)) = true) ->
  let n := Z.to_nat (flagMaxRetry flags + 1) in
  let try := flagMaxRetry flags + 1 in
  let failed := "executor failed " ++ itoa try ++ " times: "
                ++ from_option error_text "<nil>" (ex_err (exec try))
                ++ String "010" (ex_output (exec try)) in
  loop (n + S fuel)%nat 0 w
  = if decide (batch_mode flags)
    then Ret tt
           {| coverRecord := coverRecord w;
              execFailCnt := int_add (execFailCnt w) 1;
              trace := app (trace w)
                         (app (retry_events n)
                            [EvLog 0 failed;
                             EvLog 0 ("[semantic dump mode] the "
                                      ++ itoa progIndex
                                      ++ " prog failed, skip it")]) |}
    else Fatal failed (add_events w (app (retry_events n) [EvLog 0 failed])).
Proof.
  intros Hm Hfail n try failed.
  rewrite execute_loop_retries.
  - unfold n. rewrite Z2Nat.id by lia. rewrite Z.add_0_l. fold try.
    unfold loop. simpl. rewrite Hfail by (unfold try; lia).
    destruct (Z.gtb_spec try (flagMaxRetry flags)) as [_|Hle];
      [|unfold try in Hle; lia].
    unfold batch_mode. destruct (String.eqb_spec (flagProgDir flags) "") as [E|E].
    + simpl. rewrite decide_False by (intros H; by apply H).
      unfold Fatalf, add_events. simpl. by rewrite <- ?app_assoc.
    + simpl. rewrite decide_True by done.
      unfold bind, Logf. rewrite !emit_add, !add_events_app.
      unfold add_events. simpl. by rewrite <- ?app_assoc.
  - lia.
  - unfold n. rewrite Z2Nat.id; lia.
  - intros t Ht. unfold n in Ht. rewrite Z2Nat.id in Ht by lia.
    split; [apply Hfail|]; lia.
Qed.
End Retry.

(** C1 (the code departs from the claim): with [k = maxRetry + 1]
    failures, one more than the retry budget named by [-retry], the
    dispatch does not skip the program or abort: it sleeps one second
    [maxRetry + 1] times, runs [maxRetry + 1] retries and carries on with
    the successful result of attempt [maxRetry + 1]. *)
Theorem execute_loop_one_retry_beyond_budget
    (flags : FlagSet) (env : Env) (ctx : Context) (exec : Z -> ExecResult)
    (p : Prog) (progIndex covType : Z) (fuel : nat) (w : World) :
  0 <= flagMaxRetry flags < int_max ->
  fails_then_succeeds (flagMaxRetry flags + 1) exec ->
  let k := Z.to_nat (flagMaxRetry flags + 1) in
  execute_loop (k + S fuel) flags env ctx exec p progIndex covType 0 w
  = execute_success flags env ctx p progIndex covType
      (exec (flagMaxRetry flags + 1)) (add_events w (retry_events k))
  /\ sleeps (retry_events k) = k.
Proof.
  intros Hm Hexec k. split.
  - apply execute_loop_success; [lia | unfold int_max in *; lia | done].
  - apply sleeps_retry_events.
Qed.

Lemma mock_executor_fails_then_succeeds k : fails_then_succeeds k (mock_executor k).
Proof.
  split.
  - intros t Ht. unfold mock_executor.
    destruct (Z.ltb_spec t k); [reflexivity | lia].
  - unfold mock_executor. destruct (Z.ltb_spec k k); [lia | reflexivity].
Qed.

(** With [-retry 10] in batch mode, an executor that fails 11 times and
    then succeeds is retried 11 times; the program is not skipped and the
    failure counter stays at 0. *)
Lemma execute_loop_one_retry_beyond_budget_witness :
  execute_loop 12 (retry_flags "progs" 10) plain_env one_prog_context
    (mock_executor 11) {| Serialize := "getpid()" |} 0 0 0 initial_world
  = Ret tt (add_events initial_world
              (app (retry_events 11) [EvLog 1 "RESULT: no calls executed"]))
  /\ sleeps (retry_events 11) = 11%nat.
Proof.
  destruct (execute_loop_one_retry_beyond_budget (retry_flags "progs" 10)
              plain_env one_prog_context (mock_executor 11)
              {| Serialize := "getpid()" |} 0 0 0 initial_world) as [H1 H2].
  - simpl. unfold int_max. lia.
  - apply mock_executor_fails_then_succeeds.
  - split; [|exact H2]. etransitivity; [exact H1|]. reflexivity.
Defined.

(** ** Program loading *)

Lemma loadPrograms_from_readable src files : forall acc w,
  Forall (readable src) files ->
  loadPrograms_from src files acc w = Ret (app acc (loaded src files)) w.
Proof.
  induction files as [|fn rest IH]; intros acc w Hall.
  - simpl. unfold loaded. simpl. by rewrite app_nil_r.
  - inversion Hall as [|? ? Hfn Hrest]; subst.
    simpl. unfold loaded. simpl. fold (loaded src rest).
    unfold source_programs.
    destruct (db_Open src fn) as [records|] eqn:Hdb.
    + rewrite IH by done. by rewrite <- app_assoc.
    + destruct Hfn as [[? Hc]|[data Hd]]; [congruence|].
      rewrite Hd. rewrite IH by done. by rewrite <- app_assoc.
Qed.

Lemma loadPrograms_from_unreadable src files : forall acc w,
  Exists (fun fn => ~ readable src fn) files ->
  exists w', loadPrograms_from src files acc w = Fatal "failed to read log file" w'.
Proof.
  induction files as [|fn rest IH]; intros acc w Hex.
  - inversion Hex.
  - simpl.
    destruct (db_Open src fn) as [records|] eqn:Hdb.
    + apply IH. inversion Hex as [? ? Hfn|? ? Hrest]; subst; [|done].
      exfalso. apply Hfn. left. by rewrite Hdb.
    + destruct (os_ReadFile src fn) as [data|] eqn:Hrd.
      * apply IH. inversion Hex as [? ? Hfn|? ? Hrest]; subst; [|done].
        exfalso. apply Hfn. right. by rewrite Hrd.
      * eexists. reflexivity.
Qed.

Lemma readable_dec src fn : {readable src fn} + {~ readable src fn}.
Proof.
  unfold readable.
  destruct (db_Open src fn) as [records|]; [left; left; by eexists|].
  destruct (os_ReadFile src fn) as [data|]; [left; right; by eexists|].
  right. intros [[? ?]|[? ?]]; congruence.
Qed.

(** C2 (amended): loading returns normally exactly when every source is
    readable, and then yields, source by source, the corpus records that
    deserialize (the others are skipped) or, for a source that does not
    open as a corpus, the entries of the file read as a log; as soon as
    one source is neither, the process ends with a fatal error, whatever
    the other sources are. *)
Theorem loadPrograms_returns_iff_every_source_readable
    (src : Sources) (files : list string) (w : World) :
  (Forall (readable src) files /\
   loadPrograms src files w
   = Ret (loaded src files)
       (add_events w [EvLog 0 ("parsed " ++ itoa (len (loaded src files))
                               ++ " programs")]))
  \/ (Exists (fun fn => ~ readable src fn) files /\
      exists w', loadPrograms src files w = Fatal "failed to read log file" w').
Proof.
  destruct (Forall_Exists_dec (readable src) (fun fn => ~ readable src fn)
              (readable_dec src) files) as [Hall|Hex].
  - left. split; [done|].
    unfold loadPrograms, bind. rewrite loadPrograms_from_readable by done.
    reflexivity.
  - right. split; [done|].
    unfold loadPrograms, bind.
    destruct (loadPrograms_from_unreadable src files [] w Hex) as [w' ->].
    by eexists.
Qed.

(** A source list with a readable source on which loading nevertheless
    ends the process: the second source cannot be read. *)
Lemma loadPrograms_fatal_despite_readable_source :
  readable two_sources "corpus.db" /\
  loadPrograms two_sources ["corpus.db"; "missing"] initial_world
  = Fatal "failed to read log file"
      (add_events initial_world [EvLog 0 "failed to read log file"]).
Proof.
  split.
  - left. eexists. reflexivity.
  - reflexivity.
Qed.

(** ** Coverage dumping *)

Lemma len_zero_nil {A} (xs : list A) : (len xs =? 0) = bool_decide (xs = []).
Proof.
  destruct xs as [|x xs].
  - by rewrite bool_decide_eq_true_2.
  - rewrite bool_decide_eq_false_2 by done.
    apply Z.eqb_neq. unfold len. simpl length. lia.
Qed.

Lemma hex_inj a b : hex a = hex b -> a = b.
Proof.
  unfold hex. intros H.
  apply HexadecimalN.Unsigned.to_uint_inj.
  assert (Hnn : forall n, N.to_hex_uint n <> Hexadecimal.Nil).
  { intros [|q]; [discriminate|]. apply HexadecimalPos.Unsigned.to_uint_nonnil. }
  pose proof (HexadecimalString.NilZero.usu _ (Hnn a)) as Ha.
  pose proof (HexadecimalString.NilZero.usu _ (Hnn b)) as Hb.
  rewrite H in Ha. congruence.
Qed.

Global Instance pc_string_inj : Inj (=) (=) pc_string.
Proof. intros a b H. unfold pc_string in H. simpl in H. injection H. apply hex_inj. Qed.

Section Coverage.
Variables (flags : FlagSet) (env : Env).
Hypothesis writes_ok : forall name, WriteFile_ok env name = true.

Lemma osutil_WriteFile_ok name data fatal w :
  osutil_WriteFile env name data fatal w = Ret tt (add_events w [EvWriteFile name data]).
Proof. unfold osutil_WriteFile. by rewrite writes_ok. Qed.

Lemma dumpCallCoverage_ok coverFile inf w :
  dumpCallCoverage env coverFile inf w
  = Ret tt (add_events w (if decide (Cover inf = []) then []
                          else [EvWriteFile coverFile (pc_lines env (Cover inf))])).
Proof.
  unfold dumpCallCoverage. rewrite len_zero_nil.
  destruct (decide (Cover inf = [])) as [E|E].
  - rewrite bool_decide_eq_true_2 by done. unfold ret. by rewrite add_events_nil.
  - rewrite bool_decide_eq_false_2 by done. apply osutil_WriteFile_ok.
Qed.

(** The first loop returns, and writes exactly the per-call artifacts
    of the calls with coverage, when dumping is enabled. *)
Lemma dumpCalls_ok coverFile calls : forall i w, exists evs,
  dumpCalls flags env coverFile i calls w = Ret tt (add_events w evs) /\
  (forall name data, EvWriteFile name data ∈ evs <->
     flagNoDumpCall flags = false /\ flagSemantic flags = false /\
     exists (j : nat) inf,
       calls !! j = Some inf /\ Cover inf <> [] /\
       name = coverFile ++ "." ++ itoa (i + Z.of_nat j) /\
       data = pc_lines env (Cover inf)).
Proof.
  induction calls as [|inf rest IH]; intros i w.
  - exists []. split; [simpl; unfold ret; by rewrite add_events_nil|].
    intros name data. split.
    + intros H. by apply elem_of_nil in H.
    + intros (_ & _ & j & inf & Hj & _). by rewrite lookup_nil in Hj.
  - simpl. unfold bind, Logf. rewrite emit_add.
    set (lg := EvLog 0 _).
    set (dump := negb (flagNoDumpCall flags) && negb (flagSemantic flags)).
    set (here := if dump then
                   if decide (Cover inf = []) then []
                   else [EvWriteFile (coverFile ++ "." ++ itoa i)
                           (pc_lines env (Cover inf))]
                 else []).
    assert (Hhere : (if dump
                     then dumpCallCoverage env (coverFile ++ "." ++ itoa i) inf
                     else ret tt) (add_events w [lg])
                    = Ret tt (add_events (add_events w [lg]) here)).
    { unfold here. destruct dump.
      - apply dumpCallCoverage_ok.
      - unfold ret. by rewrite add_events_nil. }
    rewrite Hhere.
    destruct (IH (i + 1) (add_events (add_events w [lg]) here))
      as (evs & Hrun & Hevs).
    exists (app [lg] (app here evs)). split.
    { rewrite Hrun. by rewrite !add_events_app. }
    intros name data. rewrite elem_of_app, elem_of_app, Hevs.
    split.
    + intros [Hl|[Hh|(Hn & Hs & j & inf' & Hj & Hc & -> & ->)]].
      * apply list_elem_of_singleton in Hl. discriminate.
      * unfold here, dump in Hh.
        destruct (flagNoDumpCall flags), (flagSemantic flags); simpl in Hh;
          try (by apply elem_of_nil in Hh).
        destruct (decide (Cover inf = [])); [by apply elem_of_nil in Hh|].
        apply list_elem_of_singleton in Hh. injection Hh as -> ->.
        repeat split; try done. exists 0%nat, inf.
        repeat split; try done. by rewrite Z.add_0_r.
      * repeat split; try done. exists (S j), inf'.
        repeat split; try done. do 3 f_equal. lia.
    + intros (Hn & Hs & j & inf' & Hj & Hc & -> & ->).
      destruct j as [|j].
      * right; left. simpl in Hj. injection Hj as ->.
        unfold here, dump. rewrite Hn, Hs. simpl.
        rewrite decide_False by done. rewrite Z.add_0_r.
        by apply list_elem_of_singleton.
      * right; right. repeat split; try done. exists j, inf'.
        repeat split; try done. do 3 f_equal. lia.
Qed.

(** What the record step does, by mode and by whether the key is in
    the map. *)
Lemma recordCoverage_cases coverFile covNum progLength covType w :
  recordCoverage coverFile covNum progLength covType w
  = Ret tt
      match coverRecord w !! TrimSuffix coverFile ".rev" with
      | None =>
          if covType =? 0
          then set_record w (TrimSuffix coverFile ".rev") (covNum, 0, progLength)
          else add_events w
                 [EvLog 0 ("cover map error: non-existed origin prog. "
                           ++ TrimSuffix coverFile ".rev")]
      | Some (cov0, _, _) =>
          if covType =? 0
          then add_events w [EvLog 0 ("cover map error, repeated prog. "
                                      ++ TrimSuffix coverFile ".rev")]
          else set_record w (TrimSuffix coverFile ".rev")
                 (cov0, covNum, progLength)
      end.
Proof.
  unfold recordCoverage, bind, getCoverRecord.
  destruct (coverRecord w !! TrimSuffix coverFile ".rev") as [[[c0 c1] l]|];
    simpl; destruct (covType =? 0); reflexivity.
Qed.

Lemma recordCoverage_trace coverFile covNum progLength covType w :
  exists w' evs,
    recordCoverage coverFile covNum progLength covType w = Ret tt w' /\
    trace w' = app (trace w) evs /\
    (forall name data, EvWriteFile name data ∉ evs).
Proof.
  rewrite recordCoverage_cases.
  destruct (coverRecord w !! _) as [[[c0 c1] l]|]; destruct (covType =? 0).
  all: eexists; first [ exists []; split; [reflexivity|]; split;
                        [simpl; by rewrite app_nil_r
                        |intros ? ? H; by apply elem_of_nil in H]
                      | eexists; split; [reflexivity|]; split; [reflexivity|];
                        intros ? ? H; apply list_elem_of_singleton in H;
                        discriminate ].
Qed.
End Coverage.

(** *** The deduplicated total *)

Lemma total_pc_inv env acc seen pc :
  total_inv acc seen ->
  total_inv (total_pc env acc pc) (seen ∪ {[RestorePC env pc 0xffffffff]}).
Proof.
  intros (Hdom & Hsize & Hnum). unfold total_pc, pc_text.
  set (a := RestorePC env pc 0xffffffff). fold (pc_string a).
  destruct (acc.1 !! pc_string a) as [v|] eqn:Hlk.
  - assert (Hin : a ∈ seen).
    { assert (Hk : pc_string a ∈ dom acc.1) by (apply elem_of_dom; eauto).
      rewrite Hdom in Hk. apply elem_of_map in Hk as (b & Hb & Hbs).
      apply (inj pc_string) in Hb. by subst. }
    replace (seen ∪ {[a]}) with seen by set_solver. done.
  - assert (Hnin : a ∉ seen).
    { intros Hin. apply not_elem_of_dom in Hlk. apply Hlk.
      rewrite Hdom. apply elem_of_map. eauto. }
    assert (Hsz : size (seen ∪ {[a]}) = S (size seen)).
    { rewrite size_union by set_solver. rewrite size_singleton. lia. }
    repeat split; simpl.
    + rewrite dom_insert_L, Hdom. rewrite set_map_union_L, set_map_singleton_L.
      set_solver.
    + rewrite map_size_insert_None by done. lia.
    + rewrite Hsz, Hnum. lia.
Qed.

Lemma total_pcs_inv env cover : forall acc seen,
  total_inv acc seen ->
  total_inv (foldl (total_pc env) acc cover) (seen ∪ restored env cover).
Proof.
  induction cover as [|pc rest IH]; intros acc seen Hinv.
  - simpl. unfold restored. simpl. replace (seen ∪ ∅) with seen by set_solver. done.
  - simpl. apply (total_pc_inv env _ _ pc) in Hinv. apply IH in Hinv.
    replace (seen ∪ restored env (pc :: rest))
      with (seen ∪ {[RestorePC env pc 0xffffffff]} ∪ restored env rest); [done|].
    unfold restored. simpl. set_solver.
Qed.

Lemma total_calls_inv env calls : forall acc seen,
  total_inv acc.1 seen ->
  total_inv (foldl (total_call env) acc calls).1
    (seen ∪ ⋃ (map (fun inf => restored env (Cover inf)) calls)) /\
  (foldl (total_call env) acc calls).2 = acc.2 + len calls.
Proof.
  induction calls as [|inf rest IH]; intros acc seen Hinv.
  - simpl. split; [|unfold len; simpl; lia].
    replace (seen ∪ ∅) with seen by set_solver. done.
  - simpl foldl.
    destruct (IH (total_call env acc inf) (seen ∪ restored env (Cover inf)))
      as [H1 H2].
    { unfold total_call. simpl. by apply total_pcs_inv. }
    split.
    + replace (seen ∪ ⋃ map (λ inf0, restored env (Cover inf0)) (inf :: rest))
        with (seen ∪ restored env (Cover inf)
              ∪ ⋃ map (λ inf0, restored env (Cover inf0)) rest); [done|].
      simpl. set_solver.
    + rewrite H2. unfold total_call, len. simpl. lia.
Qed.

(** [covNum] is the cardinality of the union of the per-call sets,
    [totalMap] holds exactly their lines, and [progLength] is the number
    of calls. *)
Lemma total_cover_spec env info :
  exists totalMap,
    total_cover env info
    = (totalMap, Z.of_nat (size (union_cover env info)), len (Calls info)) /\
    dom totalMap = set_map pc_string (union_cover env info) /\
    size totalMap = size (union_cover env info).
Proof.
  unfold total_cover.
  destruct (total_calls_inv env (Calls info) (∅, 0, 0) ∅) as [(Hd & Hs & Hn) Hl].
  { unfold total_inv. cbn [fst snd]. split; [|split].
    - rewrite dom_empty_L. apply leibniz_equiv. by rewrite set_map_empty.
    - by rewrite map_size_empty, size_empty.
    - by rewrite size_empty. }
  replace (∅ ∪ ⋃ map (λ inf, restored env (Cover inf)) (Calls info))
    with (union_cover env info) in * by (unfold union_cover; set_solver).
  destruct (foldl (total_call env) (∅, 0, 0) (Calls info)) as [[m n] l].
  simpl in *. exists m. subst. repeat split; try done.
Qed.

(** The lines of the ".total" artifact: every key of [totalMap] once. *)
Lemma range_keys_lines env (m : gmap string Z) (U : gset N) :
  range_ok env ->
  dom m = set_map pc_string U ->
  size m = size U ->
  NoDup (range_keys env m) /\
  length (range_keys env m) = size U /\
  (forall s, s ∈ range_keys env m <-> exists a, a ∈ U /\ s = pc_string a).
Proof.
  intros [Hperm _] Hdom Hsize. specialize (Hperm m).
  split; [|split].
  - rewrite Hperm. apply NoDup_fst_map_to_list.
  - rewrite Hperm. rewrite length_fmap, length_map_to_list. done.
  - intros s. rewrite Hperm.
    rewrite list_elem_of_fmap.
    split.
    + intros ([k v] & -> & Hkv). simpl.
      apply elem_of_map_to_list in Hkv.
      assert (Hk : k ∈ dom m) by (apply elem_of_dom; eauto).
      rewrite Hdom in Hk. apply elem_of_map in Hk as (a & -> & Ha). eauto.
    + intros (a & Ha & ->).
      assert (Hk : pc_string a ∈ dom m).
      { rewrite Hdom. apply elem_of_map. eauto. }
      apply elem_of_dom in Hk as [v Hv].
      exists (pc_string a, v). split; [done|]. by apply elem_of_map_to_list.
Qed.

Section DumpCoverage.
Variables (flags : FlagSet) (env : Env).
Hypothesis writes_ok : forall name, WriteFile_ok env name = true.

(** [dumpCoverage] returns; its trace is that of the first loop, then
    the log line of the record step if any, the ".total" artifact, two
    log lines and the ".extra" artifact. *)
Lemma dumpCoverage_ok ctx_pos coverFile info covType w :
  exists evs1 w1 evs2 totalMap,
    let covNum := Z.of_nat (size (union_cover env info)) in
    dumpCalls flags env coverFile 0 (Calls info) w = Ret tt (add_events w evs1) /\
    total_cover env info = (totalMap, covNum, len (Calls info)) /\
    recordCoverage coverFile covNum (len (Calls info)) covType
      (add_events w evs1) = Ret tt w1 /\
    dumpCoverage flags env ctx_pos coverFile info covType w
    = Ret tt (add_events w1
                (EvWriteFile (coverFile ++ ".total") (total_buf env totalMap)
                 :: evs2)) /\
    (forall name data, EvWriteFile name data ∈ evs2 ->
                       name = coverFile ++ ".extra").
Proof.
  destruct (dumpCalls_ok flags env writes_ok coverFile (Calls info) 0 w)
    as (evs1 & Hcalls & _).
  destruct (total_cover_spec env info) as (totalMap & Htot & _ & _).
  destruct (recordCoverage_trace coverFile
              (Z.of_nat (size (union_cover env info))) (len (Calls info))
              covType (add_events w evs1)) as (w1 & evs & Hrec & _ & _).
  exists evs1, w1. eexists. exists totalMap. simpl.
  split; [done|]. split; [done|]. split; [done|].
  unfold dumpCoverage, bind. rewrite Hcalls, Htot, Hrec.
  rewrite osutil_WriteFile_ok by done.
  unfold Logf. rewrite !emit_add. rewrite dumpCallCoverage_ok by done.
  rewrite !add_events_app. split.
  - simpl. reflexivity.
  - intros name data Hin. simpl in Hin.
    apply elem_of_cons in Hin as [Hin|Hin]; [discriminate|].
    apply elem_of_cons in Hin as [Hin|Hin]; [discriminate|].
    destruct (decide (Cover (Extra info) = [])).
    + by apply elem_of_nil in Hin.
    + apply list_elem_of_singleton in Hin. by injection Hin as -> _.
Qed.
End DumpCoverage.

Lemma Ret_add_events_inj {A} (a b : A) w e1 e2 :
  Ret a (add_events w e1) = Ret b (add_events w e2) -> e1 = e2.
Proof.
  intros H. injection H as _ H. by apply app_inv_head in H.
Qed.

(** C3 (amended): when per-call dumping is suppressed neither by
    [-nodumpcall] nor by [-semantic], then for every call of the executed
    program whose coverage is not empty, [dumpCoverage] writes the artifact
    named [<covFile>.<callIndex>], holding one restored absolute program
    counter per line formatted [0x<hex>]; [covFile] is the per-program
    name [execute] derives from [-coverfile]. *)
Theorem dumpCoverage_writes_call_artifact
    (flags : FlagSet) (env : Env) (ctx_pos : Z) (coverFile : string)
    (info : ProgInfo) (covType : Z) (w : World) (i : nat) (inf : CallInfo) :
  (forall name, WriteFile_ok env name = true) ->
  flagNoDumpCall flags = false ->
  flagSemantic flags = false ->
  Calls info !! i = Some inf ->
  Cover inf <> [] ->
  exists w',
    dumpCoverage flags env ctx_pos coverFile info covType w = Ret tt w' /\
    EvWriteFile (coverFile ++ "." ++ itoa (Z.of_nat i))
      (String.concat ""
         (map (fun pc => "0x" ++ hex (RestorePC env pc 0xffffffff) ++ nl)
              (Cover inf)))
    ∈ trace w'.
Proof.
  intros Hw Hnd Hsem Hi Hc.
  destruct (dumpCoverage_ok flags env Hw ctx_pos coverFile info covType w)
    as (evs1 & w1 & evs2 & totalMap & Hcalls & _ & Hrec & Hrun & _).
  destruct (dumpCalls_ok flags env Hw coverFile (Calls info) 0 w)
    as (evs & Hcalls' & Hevs).
  rewrite Hcalls in Hcalls'. apply Ret_add_events_inj in Hcalls'. subst evs.
  destruct (recordCoverage_trace coverFile
              (Z.of_nat (size (union_cover env info))) (len (Calls info))
              covType (add_events w evs1)) as (w1' & evs & Hrec' & Htr & _).
  rewrite Hrec in Hrec'. injection Hrec' as <-.
  eexists. split; [exact Hrun|].
  unfold add_events at 1. cbn [trace]. rewrite Htr. cbn [trace add_events].
  rewrite !elem_of_app. left; left; right.
  apply Hevs. repeat split; try done.
  exists i, inf. repeat split; try done.
Qed.

(** With dumping enabled, every writable path and a call with coverage,
    the artifact of call 0 is written. *)
Lemma dumpCoverage_writes_call_artifact_witness :
  exists w',
    dumpCoverage (cover_flags false) plain_env 0 "cov_prog0" single_call_info 0
      initial_world = Ret tt w' /\
    EvWriteFile "cov_prog0.0" ("0xffffffff00000007" ++ nl) ∈ trace w'.
Proof.
  apply (dumpCoverage_writes_call_artifact (cover_flags false) plain_env 0
           "cov_prog0" single_call_info 0 initial_world 0 (call_with [7%N])).
  - reflexivity.
  - reflexivity.
  - reflexivity.
  - reflexivity.
  - discriminate.
Defined.

(** In semantic mode the per-call artifact is not written, although a
    cover file is configured, [-nodumpcall] is not given and the call has
    coverage. *)
Lemma dumpCoverage_semantic_writes_no_call_artifact :
  flagCoverFile (cover_flags true) <> "" /\
  flagNoDumpCall (cover_flags true) = false /\
  Calls single_call_info !! 0%nat = Some (call_with [7%N]) /\
  Cover (call_with [7%N]) <> [] /\
  exists w',
    dumpCoverage (cover_flags true) plain_env 0 "cov_prog0" single_call_info 0
      initial_world = Ret tt w' /\
    forall data, EvWriteFile "cov_prog0.0" data ∉ trace w'.
Proof.
  split; [discriminate|]. split; [reflexivity|]. split; [reflexivity|].
  split; [discriminate|].
  eexists. split; [vm_compute; reflexivity|].
  intros data H. cbn [trace] in H.
  repeat (apply elem_of_cons in H as [H|H]; [discriminate H|]).
  by apply elem_of_nil in H.
Qed.

(** C5 (amended): a write in original mode creates the entry with
    [covOriginal] and the length when the key has no entry, and otherwise
    logs an anomaly and leaves the map unchanged; a write in reverse mode
    on an existing entry sets [covReverse] and stores the length of the
    reverse run in place of the recorded one, [covOriginal] staying as it
    is, and when the key has no entry it logs an anomaly and leaves the
    map unchanged. *)
Theorem recordCoverage_by_mode
    (coverFile : string) (covNum progLength covType : Z) (w : World) :
  let key := TrimSuffix coverFile ".rev" in
  (coverRecord w !! key = None ->
   recordCoverage coverFile covNum progLength 0 w
   = Ret tt {| coverRecord := <[key := (covNum, 0, progLength)]> (coverRecord w);
               execFailCnt := execFailCnt w; trace := trace w |})
  /\ (forall e, coverRecord w !! key = Some e ->
      recordCoverage coverFile covNum progLength 0 w
      = Ret tt {| coverRecord := coverRecord w; execFailCnt := execFailCnt w;
                  trace := app (trace w)
                             [EvLog 0 ("cover map error, repeated prog. " ++ key)] |})
  /\ (forall cov0 cov1 l,
      covType <> 0 -> coverRecord w !! key = Some (cov0, cov1, l) ->
      recordCoverage coverFile covNum progLength covType w
      = Ret tt {| coverRecord := <[key := (cov0, covNum, progLength)]> (coverRecord w);
                  execFailCnt := execFailCnt w; trace := trace w |})
  /\ (covType <> 0 -> coverRecord w !! key = None ->
      recordCoverage coverFile covNum progLength covType w
      = Ret tt {| coverRecord := coverRecord w; execFailCnt := execFailCnt w;
                  trace := app (trace w)
                             [EvLog 0 ("cover map error: non-existed origin prog. "
                                       ++ key)] |}).
Proof.
  intros key. subst key. repeat split.
  - intros Hk. by rewrite recordCoverage_cases, Hk.
  - intros [[c0 c1] l] Hk. by rewrite recordCoverage_cases, Hk.
  - intros c0 c1 l Ht Hk. rewrite recordCoverage_cases, Hk.
    apply Z.eqb_neq in Ht. by rewrite Ht.
  - intros Ht Hk. rewrite recordCoverage_cases, Hk.
    apply Z.eqb_neq in Ht. by rewrite Ht.
Qed.

(** The original run of a three-call program records length 3; the
    reverse run of its one-call variant then sets [covReverse] and also
    replaces the length by 1. *)
Lemma dumpCoverage_reverse_write_changes_length :
  exists w1 w2,
    dumpCoverage (cover_flags true) plain_env 0 "cov_p" overlap_info 0
      initial_world = Ret tt w1 /\
    coverRecord w1 !! "cov_p" = Some (3, 0, 3) /\
    dumpCoverage (cover_flags true) plain_env 0 "cov_p.rev" single_call_info 1
      w1 = Ret tt w2 /\
    coverRecord w2 !! "cov_p" = Some (3, 1, 1).
Proof.
  eexists. eexists.
  split; [vm_compute; reflexivity|].
  split; [vm_compute; reflexivity|].
  split; [vm_compute; reflexivity|].
  vm_compute; reflexivity.
Qed.

(** C6: the coverage count [dumpCoverage] records, and the number of
    lines of the ".total" artifact it writes, is the cardinality of the
    set-union of the per-call program-counter sets after address
    restoration: the artifact holds the line [0x<hex>] of every program
    counter of the union exactly once, however many calls reached it. *)
Theorem dumpCoverage_total_is_union
    (flags : FlagSet) (env : Env) (ctx_pos : Z) (coverFile : string)
    (info : ProgInfo) (covType : Z) (w : World) :
  range_ok env ->
  (forall name, WriteFile_ok env name = true) ->
  let U := union_cover env info in
  let key := TrimSuffix coverFile ".rev" in
  exists w' lines,
    dumpCoverage flags env ctx_pos coverFile info covType w = Ret tt w' /\
    EvWriteFile (coverFile ++ ".total")
      (String.concat "" (map (fun l => l ++ nl) lines)) ∈ trace w' /\
    NoDup lines /\
    length lines = size U /\
    (forall s, s ∈ lines <-> exists a, a ∈ U /\ s = "0x" ++ hex a) /\
    (covType = 0 -> coverRecord w !! key = None ->
     coverRecord w' !! key = Some (Z.of_nat (size U), 0, len (Calls info))) /\
    (forall cov0 cov1 l,
       covType <> 0 -> coverRecord w !! key = Some (cov0, cov1, l) ->
       coverRecord w' !! key = Some (cov0, Z.of_nat (size U), len (Calls info))).
Proof.
  intros Hrange Hw U key.
  destruct (dumpCoverage_ok flags env Hw ctx_pos coverFile info covType w)
    as (evs1 & w1 & evs2 & totalMap & Hcalls & Htot & Hrec & Hrun & _).
  destruct (total_cover_spec env info) as (totalMap' & Htot' & Hdom & Hsize).
  rewrite Htot in Htot'. injection Htot' as <-.
  destruct (range_keys_lines env totalMap U Hrange Hdom Hsize)
    as (Hnd & Hlen & Hmem).
  exists (add_events w1
            (EvWriteFile (coverFile ++ ".total") (total_buf env totalMap) :: evs2)),
         (range_keys env totalMap).
  split; [exact Hrun|]. split.
  { cbn [trace add_events]. apply elem_of_app. right. apply elem_of_cons. by left. }
  split; [done|]. split; [done|]. split; [done|].
  rewrite recordCoverage_cases in Hrec. injection Hrec as <-.
  cbn [coverRecord add_events]. fold key. split.
  - intros -> Hk. rewrite Hk. simpl. apply lookup_insert_eq.
  - intros c0 c1 l Ht Hk. rewrite Hk. apply Z.eqb_neq in Ht. rewrite Ht.
    simpl. apply lookup_insert_eq.
Qed.

Lemma plain_env_range_ok : range_ok plain_env.
Proof. split; intros m; reflexivity. Qed.

(** Three calls reporting five program counters, three of them distinct:
    the count recorded and written is 3, not 5. *)
Lemma dumpCoverage_total_is_union_witness :
  size (union_cover plain_env overlap_info) = 3%nat /\
  exists w' lines,
    dumpCoverage (cover_flags false) plain_env 0 "cov_prog0" overlap_info 0
      initial_world = Ret tt w' /\
    EvWriteFile "cov_prog0.total"
      (String.concat "" (map (fun l => l ++ nl) lines)) ∈ trace w' /\
    NoDup lines /\
    length lines = 3%nat /\
    (forall s, s ∈ lines <->
               exists a, a ∈ union_cover plain_env overlap_info /\ s = "0x" ++ hex a) /\
    (0 = 0 -> coverRecord initial_world !! "cov_prog0" = None ->
     coverRecord w' !! "cov_prog0" = Some (3, 0, 3)) /\
    (forall cov0 cov1 l,
       0 <> 0 -> coverRecord initial_world !! "cov_prog0" = Some (cov0, cov1, l) ->
       coverRecord w' !! "cov_prog0" = Some (cov0, 3, 3)).
Proof.
  split; [vm_compute; reflexivity|].
  exact (dumpCoverage_total_is_union (cover_flags false) plain_env 0 "cov_prog0"
           overlap_info 0 initial_world plain_env_range_ok (fun _ => eq_refl)).
Defined.

(** ** The evaluation report *)

Lemma count_nil test : count test [] = 0.
Proof. reflexivity. Qed.

Lemma count_snoc test vals e :
  count test (app vals [e]) = count test vals + (if test e then 1 else 0).
Proof.
  unfold count. rewrite List.filter_app, length_app. simpl.
  destruct (test e); simpl; lia.
Qed.

Lemma count_cons test vals e :
  count test (e :: vals) = (if test e then 1 else 0) + count test vals.
Proof. unfold count. simpl. destruct (test e); simpl length; lia. Qed.

Lemma count_perm test vals vals' :
  vals ≡ₚ vals' -> count test vals = count test vals'.
Proof.
  induction 1 as [|x l l' _ IH|x y l|l l' l'' _ IH1 _ IH2].
  - reflexivity.
  - by rewrite !count_cons, IH.
  - rewrite !count_cons. lia.
  - by rewrite IH1.
Qed.

Lemma spec_counters_perm vals vals' :
  vals ≡ₚ vals' -> spec_counters vals = spec_counters vals'.
Proof.
  intros H. unfold spec_counters, len.
  rewrite (Permutation_length H).
  by rewrite !(count_perm _ _ _ H).
Qed.

Lemma has_verdict_Win cov0 cov1 l :
  has_verdict Win (cov0, cov1, l) = (cov0 >? cov1).
Proof.
  unfold has_verdict, classify. rewrite Z.gtb_ltb.
  destruct (cov1 <? cov0); [done|]. by destruct (cov0 =? cov1).
Qed.

Lemma has_verdict_Equal cov0 cov1 l :
  has_verdict Equal (cov0, cov1, l) = negb (cov0 >? cov1) && (cov0 =? cov1).
Proof.
  unfold has_verdict, classify. rewrite Z.gtb_ltb.
  destruct (cov1 <? cov0); [done|]. by destruct (cov0 =? cov1).
Qed.

Lemma has_verdict_Lose cov0 cov1 l :
  has_verdict Lose (cov0, cov1, l) = negb (cov0 >? cov1) && negb (cov0 =? cov1).
Proof.
  unfold has_verdict, classify. rewrite Z.gtb_ltb.
  destruct (cov1 <? cov0); [done|]. by destruct (cov0 =? cov1).
Qed.

(** One iteration of the counting loop moves the counters from those of
    the entries seen so far to those with the new entry added. *)
Lemma count_row_spec vals e :
  count_row (spec_counters vals) e = spec_counters (app vals [e]).
Proof.
  destruct e as [[cov0 cov1] l].
  unfold spec_counters. rewrite !count_snoc.
  rewrite has_verdict_Win, has_verdict_Equal, has_verdict_Lose.
  unfold len. rewrite length_app. simpl length.
  unfold count_row, one_line. cbn [snd fst].
  destruct (cov0 >? cov1), (cov0 =? cov1), (l =? 1);
    unfold inc_totalProg, inc_totalWin, inc_totalEqual, inc_totalLose,
           inc_oneLineProg, inc_oneLineWin, inc_oneLineEqual, inc_oneLineLose;
    cbn [totalProgCnt totalWinCnt totalEqualCnt totalLoseCnt oneLineProgCnt
         oneLineWinCnt oneLineEqualCnt oneLineLoseCnt andb negb];
    f_equal; lia.
Qed.

Lemma defer_Ret_emit {A} (body : M A) e a w evs :
  body w = Ret a (add_events w evs) ->
  defer body (emit e) w = Ret a (add_events w (app evs [e])).
Proof.
  intros H. unfold defer. rewrite H. unfold bind. rewrite emit_add.
  unfold ret. by rewrite add_events_app.
Qed.

Section Report.
Variables (env : Env) (fileName : string).
Hypothesis create_ok : Create_ok env fileName = true.
Hypothesis write_ok : forall n, WriteString_ok env fileName n = true.

Lemma WriteString_ok_run n line w :
  WriteString env fileName n line w
  = Ret None (add_events w [EvWriteString fileName line]).
Proof. unfold WriteString. by rewrite write_ok. Qed.

(** The row loop writes every row and counts every entry. *)
Lemma saveRows_ok rows : forall seen n w,
  saveRows env fileName rows (spec_counters seen) n w
  = Ret (None, spec_counters (app seen rows.*2), (n + length rows)%nat)
      (add_events w (map (fun kv => EvWriteString fileName (row_line kv.1 kv.2))
                         rows)).
Proof.
  induction rows as [|[key value] rest IH]; intros seen n w.
  - simpl. unfold ret. rewrite add_events_nil, app_nil_r.
    by rewrite Nat.add_0_r.
  - simpl. unfold bind at 1. rewrite WriteString_ok_run.
    rewrite count_row_spec, IH. rewrite add_events_app.
    rewrite <- app_assoc. simpl. do 3 f_equal. lia.
Qed.

(** With a file that can be created and written, the report is written
    in full and the writer returns [nil]. *)
Lemma saveToFile_ok w :
  saveToFile env fileName w
  = Ret None (add_events w
                (report_events fileName (range_records env (coverRecord w))
                   (execFailCnt w))).
Proof.
  unfold saveToFile. rewrite create_ok. cbn [negb].
  unfold bind at 1. rewrite emit_add.
  erewrite defer_Ret_emit.
  2: { unfold bind at 1. rewrite WriteString_ok_run.
       cbn [coverRecord execFailCnt add_events].
       unfold bind at 1.
       change zero_counters with (spec_counters []).
       rewrite saveRows_ok. rewrite WriteString_ok_run.
       rewrite !add_events_app. reflexivity. }
  rewrite add_events_app. unfold report_events.
  do 2 f_equal. simpl. by rewrite <- !app_assoc.
Qed.
End Report.

(** The report in terms of the map: the rows come in some order of its
    entries, and the summary shows the counters of its entries. *)
Lemma saveToFile_report env fileName w :
  range_ok env ->
  Create_ok env fileName = true ->
  (forall n, WriteString_ok env fileName n = true) ->
  exists rows,
    rows ≡ₚ map_to_list (coverRecord w) /\
    saveToFile env fileName w
    = Ret None
        (add_events w
           (app [EvCreate fileName; EvWriteString fileName header_line]
              (app (map (fun kv => EvWriteString fileName (row_line kv.1 kv.2)) rows)
                 [EvWriteString fileName
                    (summary_block
                       (spec_counters (map_to_list (coverRecord w)).*2)
                       (execFailCnt w));
                  EvClose fileName]))).
Proof.
  intros [_ Hperm] Hc Hw.
  exists (range_records env (coverRecord w)). split; [apply Hperm|].
  rewrite saveToFile_ok by done. unfold report_events.
  rewrite (spec_counters_perm (range_records env (coverRecord w)).*2
             (map_to_list (coverRecord w)).*2); [done|].
  by rewrite (Hperm (coverRecord w)).
Qed.

Lemma four_entries_values k1 k2 k3 k4 (e1 e2 e3 e4 : cover_entry) :
  NoDup [k1; k2; k3; k4] ->
  (map_to_list (<[k1 := e1]> (<[k2 := e2]> (<[k3 := e3]>
                  ({[k4 := e4]} : gmap string cover_entry))))).*2
  ≡ₚ [e1; e2; e3; e4].
Proof.
  intros Hnd.
  apply NoDup_cons in Hnd as [H1 Hnd]. apply NoDup_cons in Hnd as [H2 Hnd].
  apply NoDup_cons in Hnd as [H3 _].
  rewrite map_to_list_insert.
  2: { rewrite !lookup_insert_ne by set_solver.
       apply lookup_singleton_ne. set_solver. }
  rewrite map_to_list_insert.
  2: { rewrite !lookup_insert_ne by set_solver.
       apply lookup_singleton_ne. set_solver. }
  rewrite map_to_list_insert.
  2: { apply lookup_singleton_ne. set_solver. }
  rewrite map_to_list_singleton. reflexivity.
Qed.

Lemma four_entries_counters o1 r1 o2 r2 o3 r3 o4 r4 :
  o1 > r1 -> o2 > r2 -> o3 = r3 -> o4 < r4 ->
  spec_counters [(o1, r1, 3); (o2, r2, 1); (o3, r3, 2); (o4, r4, 4)]
  = {| totalProgCnt := 4; totalWinCnt := 2; totalEqualCnt := 1;
       totalLoseCnt := 1; oneLineProgCnt := 1; oneLineWinCnt := 1;
       oneLineEqualCnt := 0; oneLineLoseCnt := 0 |}.
Proof.
  intros H1 H2 H3 H4. unfold spec_counters.
  rewrite !count_cons, !count_nil. cbv beta.
  rewrite !has_verdict_Win, !has_verdict_Equal, !has_verdict_Lose.
  unfold one_line. cbn [snd].
  replace (o1 >? r1) with true by (symmetry; apply Z.gtb_lt; lia).
  replace (o2 >? r2) with true by (symmetry; apply Z.gtb_lt; lia).
  replace (o3 >? r3) with false by (symmetry; rewrite Z.gtb_ltb; apply Z.ltb_ge; lia).
  replace (o4 >? r4) with false by (symmetry; rewrite Z.gtb_ltb; apply Z.ltb_ge; lia).
  replace (o3 =? r3) with true by (symmetry; apply Z.eqb_eq; lia).
  replace (o4 =? r4) with false by (symmetry; apply Z.eqb_neq; lia).
  reflexivity.
Qed.

(** C4: the report writer counts every recorded entry as Win when
    [covOriginal > covReverse], Equal when they are equal and Lose
    otherwise, and counts the entries of length 1 apart; the summary it
    writes to the report file shows these counts and the three rates
    computed from them, each with two decimals.  For the record map of
    exactly four entries Win (length 3), Win (length 1), Equal (length 2)
    and Lose (length 4) that is total 4, wins 2, one-line wins 1, OCER
    50.00%, ECER 33.33% and CER 25.00%. *)
Theorem saveToFile_classification_and_rates
    (env : Env) (fileName : string) (w : World) :
  range_ok env ->
  Create_ok env fileName = true ->
  (forall n, WriteString_ok env fileName n = true) ->
  let vals := (map_to_list (coverRecord w)).*2 in
  let total := len vals in
  let wins := count (has_verdict Win) vals in
  let equals := count (has_verdict Equal) vals in
  let loses := count (has_verdict Lose) vals in
  let oneLines := count one_line vals in
  let oneLineWins := count (fun e => has_verdict Win e && one_line e) vals in
  let oneLineEquals := count (fun e => has_verdict Equal e && one_line e) vals in
  let oneLineLoses := count (fun e => has_verdict Lose e && one_line e) vals in
  (exists rows,
     rows ≡ₚ map_to_list (coverRecord w) /\
     saveToFile env fileName w
     = Ret None
         (add_events w
            (app [EvCreate fileName; EvWriteString fileName header_line]
               (app (map (fun kv => EvWriteString fileName (row_line kv.1 kv.2))
                         rows)
                  [EvWriteString fileName
                     (nl ++ "Evaluation Results of Contextual Effectiveness:" ++ nl
                      ++ "Execution Fails:" ++ itoa (execFailCnt w) ++ nl
                      ++ "Total Progs: " ++ itoa total ++ nl
                      ++ "Total Win: " ++ itoa wins ++ nl
                      ++ "Total Equal: " ++ itoa equals ++ nl
                      ++ "Total Lose: " ++ itoa loses ++ nl ++ nl
                      ++ "One-line Progs:" ++ itoa oneLines ++ nl
                      ++ "One-line Win:" ++ itoa oneLineWins ++ nl
                      ++ "One-line Equal:" ++ itoa oneLineEquals ++ nl
                      ++ "One-line Lose:" ++ itoa oneLineLoses ++ nl ++ nl
                      ++ "Overall Context Effective Rate (OCER): "
                      ++ rate wins total ++ nl
                      ++ "Exclusive Context Effective Rate (ECER): "
                      ++ rate (wins - oneLineWins) (total - oneLineWins) ++ nl
                      ++ "Context Effective Rate (CER): "
                      ++ rate (wins - oneLineWins) total ++ nl);
                   EvClose fileName]))))
  /\ (forall k1 k2 k3 k4 o1 r1 o2 r2 o3 r3 o4 r4,
        NoDup [k1; k2; k3; k4] ->
        o1 > r1 -> o2 > r2 -> o3 = r3 -> o4 < r4 ->
        coverRecord w
        = <[k1 := (o1, r1, 3)]> (<[k2 := (o2, r2, 1)]> (<[k3 := (o3, r3, 2)]>
            {[k4 := (o4, r4, 4)]})) ->
        total = 4 /\ wins = 2 /\ equals = 1 /\ loses = 1 /\
        oneLines = 1 /\ oneLineWins = 1 /\ oneLineEquals = 0 /\
        oneLineLoses = 0 /\
        rate wins total = "50.00%" /\
        rate (wins - oneLineWins) (total - oneLineWins) = "33.33%" /\
        rate (wins - oneLineWins) total = "25.00%").
Proof.
  intros Hrange Hc Hw vals total wins equals loses oneLines oneLineWins
    oneLineEquals oneLineLoses.
  split.
  - destruct (saveToFile_report env fileName w Hrange Hc Hw)
      as (rows & Hperm & Hrun).
    exists rows. split; [exact Hperm|]. rewrite Hrun. reflexivity.
  - intros k1 k2 k3 k4 o1 r1 o2 r2 o3 r3 o4 r4 Hnd H1 H2 H3 H4 Hmap.
    assert (Hcnt : spec_counters vals
                   = {| totalProgCnt := 4; totalWinCnt := 2; totalEqualCnt := 1;
                        totalLoseCnt := 1; oneLineProgCnt := 1;
                        oneLineWinCnt := 1; oneLineEqualCnt := 0;
                        oneLineLoseCnt := 0 |}).
    { unfold vals. rewrite Hmap.
      rewrite (spec_counters_perm _ _ (four_entries_values _ _ _ _ _ _ _ _ Hnd)).
      by apply four_entries_counters. }
    unfold spec_counters in Hcnt. fold total wins equals loses oneLines
      oneLineWins oneLineEquals oneLineLoses in Hcnt.
    injection Hcnt as -> -> -> -> -> -> -> ->.
    repeat split; vm_compute; reflexivity.
Qed.

Lemma four_entries_NoDup : NoDup ["cov_a"; "cov_b"; "cov_c"; "cov_d"].
Proof. apply (bool_decide_unpack _). vm_compute. exact I. Qed.

(** The four entries of the specification's example, in a world where
    the report file can be written: the summary as it is written. *)
Lemma saveToFile_classification_and_rates_witness :
  exists rows,
    rows ≡ₚ map_to_list four_entries /\
    saveToFile plain_env "cov_Evaluation_Results" four_entries_world
    = Ret None
        (add_events four_entries_world
           (app [EvCreate "cov_Evaluation_Results";
                 EvWriteString "cov_Evaluation_Results"
                   ("Program Name,Cover,ReverseCover,Program Length" ++ nl)]
              (app (map (fun kv => EvWriteString "cov_Evaluation_Results"
                                     (row_line kv.1 kv.2)) rows)
                 [EvWriteString "cov_Evaluation_Results"
                    (nl ++ "Evaluation Results of Contextual Effectiveness:" ++ nl
                     ++ "Execution Fails:0" ++ nl
                     ++ "Total Progs: 4" ++ nl
                     ++ "Total Win: 2" ++ nl
                     ++ "Total Equal: 1" ++ nl
                     ++ "Total Lose: 1" ++ nl ++ nl
                     ++ "One-line Progs:1" ++ nl
                     ++ "One-line Win:1" ++ nl
                     ++ "One-line Equal:0" ++ nl
                     ++ "One-line Lose:0" ++ nl ++ nl
                     ++ "Overall Context Effective Rate (OCER): 50.00%" ++ nl
                     ++ "Exclusive Context Effective Rate (ECER): 33.33%" ++ nl
                     ++ "Context Effective Rate (CER): 25.00%" ++ nl);
                  EvClose "cov_Evaluation_Results"]))).
Proof.
  destruct (saveToFile_classification_and_rates plain_env
              "cov_Evaluation_Results" four_entries_world plain_env_range_ok
              eq_refl (fun _ => eq_refl)) as [(rows & Hperm & Hrun) Hfour].
  destruct (Hfour "cov_a" "cov_b" "cov_c" "cov_d" 10 7 4 2 5 5 1 6
              four_entries_NoDup ltac:(lia) ltac:(lia) eq_refl ltac:(lia)
              eq_refl)
    as (E1 & E2 & E3 & E4 & E5 & E6 & E7 & E8 & E9 & E10 & E11).
  exists rows. split; [exact Hperm|].
  etransitivity; [exact Hrun|].
  rewrite E9, E10, E11, E1, E2, E3, E4, E5, E6, E7, E8.
  reflexivity.
Defined.

Lemma one_line_wins_counters vals :
  Forall (fun e => classify e = Win /\ one_line e = true) vals ->
  count (has_verdict Win) vals = len vals /\
  count (fun e => has_verdict Win e && one_line e) vals = len vals.
Proof.
  induction 1 as [|e vals [Hwin Hone] _ [IH1 IH2]].
  - done.
  - rewrite !count_cons, IH1, IH2. unfold has_verdict.
    rewrite Hone, bool_decide_eq_true_2 by done.
    unfold len. simpl length. simpl andb. lia.
Qed.

Lemma map_values_Forall (P : cover_entry -> Prop) (m : gmap string cover_entry) :
  (forall k e, m !! k = Some e -> P e) -> Forall P (map_to_list m).*2.
Proof.
  intros H. apply Forall_fmap, Forall_forall. intros [k e] Hin.
  apply elem_of_map_to_list in Hin. simpl. eauto.
Qed.

Lemma count_all test vals :
  Forall (fun e => test e = true) vals -> count test vals = len vals.
Proof.
  induction 1 as [|e vals He _ IH]; [done|].
  rewrite count_cons, He, IH. unfold len. simpl length. lia.
Qed.

Lemma count_none test vals :
  Forall (fun e => test e = false) vals -> count test vals = 0.
Proof.
  induction 1 as [|e vals He _ IH]; [done|].
  by rewrite count_cons, He, IH.
Qed.

Lemma one_line_wins_spec_counters vals :
  Forall (fun e => classify e = Win /\ one_line e = true) vals ->
  spec_counters vals
  = {| totalProgCnt := len vals; totalWinCnt := len vals; totalEqualCnt := 0;
       totalLoseCnt := 0; oneLineProgCnt := len vals;
       oneLineWinCnt := len vals; oneLineEqualCnt := 0;
       oneLineLoseCnt := 0 |}.
Proof.
  intros Hall. unfold spec_counters.
  assert (T : forall test,
            (forall e, classify e = Win -> one_line e = true -> test e = true) ->
            count test vals = len vals).
  { intros test Ht. apply count_all. eapply Forall_impl; [exact Hall|].
    intros e [Hwin Hone]. by apply Ht. }
  assert (F : forall test,
            (forall e, classify e = Win -> one_line e = true -> test e = false) ->
            count test vals = 0).
  { intros test Hf. apply count_none. eapply Forall_impl; [exact Hall|].
    intros e [Hwin Hone]. by apply Hf. }
  f_equal; first [apply T | apply F]; intros e Hwin Hone;
    unfold has_verdict; rewrite ?Hone, ?Hwin;
    rewrite ?bool_decide_eq_true_2 by done;
    rewrite ?bool_decide_eq_false_2 by discriminate; reflexivity.
Qed.

(** C10: the three percentages are unguarded [float64] divisions.  When
    every recorded entry is a one-line win, the divisor
    [total - oneLineWins] of ECER is 0 (and so is its dividend), ECER is
    NaN, and the summary written to the report file shows it as [NaN%];
    when the record map is empty, total is 0 and OCER, ECER and CER are
    all computed as 0/0 and written as [NaN%].  In both cases the report
    is still written in full and the writer returns [nil], provided the
    file itself can be created and written. *)
Theorem saveToFile_divides_by_zero
    (env : Env) (fileName : string) (w : World) :
  range_ok env ->
  Create_ok env fileName = true ->
  (forall n, WriteString_ok env fileName n = true) ->
  (forall k e, coverRecord w !! k = Some e ->
               classify e = Win /\ one_line e = true) ->
  let vals := (map_to_list (coverRecord w)).*2 in
  let total := len vals in
  let wins := count (has_verdict Win) vals in
  let oneLineWins := count (fun e => has_verdict Win e && one_line e) vals in
  (total - oneLineWins = 0 /\
   wins - oneLineWins = 0 /\
   Prim2SF (float64 (wins - oneLineWins) / float64 (total - oneLineWins)
            * float64 100)%float = S754_nan)
  /\ (exists rows,
        rows ≡ₚ map_to_list (coverRecord w) /\
        saveToFile env fileName w
        = Ret None
            (add_events w
               (app [EvCreate fileName; EvWriteString fileName header_line]
                  (app (map (fun kv => EvWriteString fileName
                                         (row_line kv.1 kv.2)) rows)
                     [EvWriteString fileName
                        (nl ++ "Evaluation Results of Contextual Effectiveness:"
                         ++ nl
                         ++ "Execution Fails:" ++ itoa (execFailCnt w) ++ nl
                         ++ "Total Progs: " ++ itoa total ++ nl
                         ++ "Total Win: " ++ itoa total ++ nl
                         ++ "Total Equal: 0" ++ nl
                         ++ "Total Lose: 0" ++ nl ++ nl
                         ++ "One-line Progs:" ++ itoa total ++ nl
                         ++ "One-line Win:" ++ itoa total ++ nl
                         ++ "One-line Equal:0" ++ nl
                         ++ "One-line Lose:0" ++ nl ++ nl
                         ++ "Overall Context Effective Rate (OCER): "
                         ++ rate total total ++ nl
                         ++ "Exclusive Context Effective Rate (ECER): NaN%" ++ nl
                         ++ "Context Effective Rate (CER): "
                         ++ rate 0 total ++ nl);
                      EvClose fileName]))))
  /\ (coverRecord w = ∅ ->
      total = 0 /\
      Prim2SF (float64 0 / float64 0 * float64 100)%float = S754_nan /\
      rate total total = "NaN%" /\ rate 0 total = "NaN%").
Proof.
  intros Hrange Hc Hw Hall vals total wins oneLineWins.
  pose proof (one_line_wins_spec_counters _ (map_values_Forall _ _ Hall)) as Hcnt.
  fold vals total in Hcnt.
  assert (Hwins : wins = total) by exact (f_equal totalWinCnt Hcnt).
  assert (Holw : oneLineWins = total) by exact (f_equal oneLineWinCnt Hcnt).
  rewrite Hwins, Holw, Z.sub_diag.
  split; [|split].
  - split; [done|]. split; [done|]. by vm_compute.
  - destruct (saveToFile_report env fileName w Hrange Hc Hw)
      as (rows & Hperm & Hrun).
    exists rows. split; [exact Hperm|]. rewrite Hrun.
    fold vals. rewrite Hcnt. unfold summary_block, OCER, ECER, CER.
    cbn [totalProgCnt totalWinCnt totalEqualCnt totalLoseCnt oneLineProgCnt
         oneLineWinCnt oneLineEqualCnt oneLineLoseCnt].
    rewrite Z.sub_diag.
    change (fmt_pct (float64 0 / float64 0 * float64 100)) with "NaN%".
    reflexivity.
  - intros Hempty.
    assert (Hz : total = 0).
    { unfold total, vals. by rewrite Hempty, map_to_list_empty. }
    rewrite Hz. repeat split; vm_compute; reflexivity.
Qed.

Lemma one_line_wins_world_entries :
  forall k (e : cover_entry),
    coverRecord one_line_wins_world !! k = Some e ->
    classify e = Win /\ one_line e = true.
Proof.
  intros k e H. unfold one_line_wins_world in H. cbn [coverRecord] in H.
  apply lookup_insert_Some in H as [[_ <-]|[_ H]]; [done|].
  apply lookup_singleton_Some in H as [_ <-]. done.
Qed.

Lemma empty_map_all_one_line_wins :
  forall k (e : cover_entry),
    coverRecord initial_world !! k = Some e ->
    classify e = Win /\ one_line e = true.
Proof. intros k e H. simpl in H. by rewrite lookup_empty in H. Qed.

(** Two record maps in a world where the report file can be written: two
    one-line wins, where ECER is 0/0, and the empty map, where all three
    rates are 0/0.  The report is produced, with [NaN%] for those
    rates. *)
Lemma saveToFile_divides_by_zero_witness :
  (exists rows,
     rows ≡ₚ map_to_list (coverRecord one_line_wins_world) /\
     saveToFile plain_env "cov_Evaluation_Results" one_line_wins_world
     = Ret None
         (add_events one_line_wins_world
            (app [EvCreate "cov_Evaluation_Results";
                  EvWriteString "cov_Evaluation_Results"
                    ("Program Name,Cover,ReverseCover,Program Length" ++ nl)]
               (app (map (fun kv => EvWriteString "cov_Evaluation_Results"
                                      (row_line kv.1 kv.2)) rows)
                  [EvWriteString "cov_Evaluation_Results"
                     (nl ++ "Evaluation Results of Contextual Effectiveness:" ++ nl
                      ++ "Execution Fails:0" ++ nl
                      ++ "Total Progs: 2" ++ nl
                      ++ "Total Win: 2" ++ nl
                      ++ "Total Equal: 0" ++ nl
                      ++ "Total Lose: 0" ++ nl ++ nl
                      ++ "One-line Progs:2" ++ nl
                      ++ "One-line Win:2" ++ nl
                      ++ "One-line Equal:0" ++ nl
                      ++ "One-line Lose:0" ++ nl ++ nl
                      ++ "Overall Context Effective Rate (OCER): 100.00%" ++ nl
                      ++ "Exclusive Context Effective Rate (ECER): NaN%" ++ nl
                      ++ "Context Effective Rate (CER): 0.00%" ++ nl);
                   EvClose "cov_Evaluation_Results"]))))
  /\ saveToFile plain_env "cov_Evaluation_Results" initial_world
     = Ret None
         (add_events initial_world
            [EvCreate "cov_Evaluation_Results";
             EvWriteString "cov_Evaluation_Results"
               ("Program Name,Cover,ReverseCover,Program Length" ++ nl);
             EvWriteString "cov_Evaluation_Results"
               (nl ++ "Evaluation Results of Contextual Effectiveness:" ++ nl
                ++ "Execution Fails:0" ++ nl
                ++ "Total Progs: 0" ++ nl
                ++ "Total Win: 0" ++ nl
                ++ "Total Equal: 0" ++ nl
                ++ "Total Lose: 0" ++ nl ++ nl
                ++ "One-line Progs:0" ++ nl
                ++ "One-line Win:0" ++ nl
                ++ "One-line Equal:0" ++ nl
                ++ "One-line Lose:0" ++ nl ++ nl
                ++ "Overall Context Effective Rate (OCER): NaN%" ++ nl
                ++ "Exclusive Context Effective Rate (ECER): NaN%" ++ nl
                ++ "Context Effective Rate (CER): NaN%" ++ nl);
             EvClose "cov_Evaluation_Results"]).
Proof.
  split.
  - destruct (saveToFile_divides_by_zero plain_env "cov_Evaluation_Results"
                one_line_wins_world plain_env_range_ok eq_refl
                (fun _ => eq_refl) one_line_wins_world_entries)
      as (_ & (rows & Hperm & Hrun) & _).
    exists rows. split; [exact Hperm|].
    etransitivity; [exact Hrun|]. vm_compute. reflexivity.
  - destruct (saveToFile_divides_by_zero plain_env "cov_Evaluation_Results"
                initial_world plain_env_range_ok eq_refl
                (fun _ => eq_refl) empty_map_all_one_line_wins)
      as (_ & (rows & Hperm & Hrun) & Hempty).
    destruct (Hempty eq_refl) as (_ & _ & E1 & E2).
    assert (Hrows : rows = []).
    { apply Permutation_nil_r. by rewrite Hperm. }
    etransitivity; [exact Hrun|].
    rewrite Hrows. vm_compute. reflexivity.
Defined.

(** The report of the empty record map, as it is written. *)
Example saveToFile_empty_map_report :
  saveToFile plain_env "cov_Evaluation_Results" initial_world
  = Ret None
      (add_events initial_world
         [EvCreate "cov_Evaluation_Results";
          EvWriteString "cov_Evaluation_Results"
            ("Program Name,Cover,ReverseCover,Program Length" ++ nl);
          EvWriteString "cov_Evaluation_Results"
            (nl ++ "Evaluation Results of Contextual Effectiveness:" ++ nl
             ++ "Execution Fails:0" ++ nl
             ++ "Total Progs: 0" ++ nl
             ++ "Total Win: 0" ++ nl
             ++ "Total Equal: 0" ++ nl
             ++ "Total Lose: 0" ++ nl ++ nl
             ++ "One-line Progs:0" ++ nl
             ++ "One-line Win:0" ++ nl
             ++ "One-line Equal:0" ++ nl
             ++ "One-line Lose:0" ++ nl ++ nl
             ++ "Overall Context Effective Rate (OCER): NaN%" ++ nl
             ++ "Exclusive Context Effective Rate (ECER): NaN%" ++ nl
             ++ "Context Effective Rate (CER): NaN%" ++ nl);
          EvClose "cov_Evaluation_Results"]).
Proof. vm_compute. reflexivity. Qed.

(** ** The shared cursor *)

Lemma dispatches_app t1 t2 :
  dispatches (app t1 t2) = app (dispatches t1) (dispatches t2).
Proof. unfold dispatches. apply omap_app. Qed.

(** One call on a non-empty program list returns the cursor value and
    advances the cursor by one; it may log a progress line. *)
Lemma getProgramIndex_run now ctx w :
  progs ctx <> [] ->
  exists ctx' evs,
    getProgramIndex now ctx w = Ret (pos ctx, ctx') (add_events w evs) /\
    pos ctx' = int_add (pos ctx) 1 /\
    same_pool ctx ctx' /\
    dispatches evs = [].
Proof.
  intros Hne. unfold getProgramIndex.
  cbn [progs set_pos pos lastPrint].
  rewrite len_zero_nil. rewrite bool_decide_eq_false_2 by done.
  destruct ((Z.rem (pos ctx) (len (progs ctx)) =? 0)
            && (Since now (lastPrint ctx) >? 5 * Second)).
  - eexists. eexists. split.
    + unfold bind, Logf. rewrite emit_add. reflexivity.
    + repeat split.
  - eexists. exists []. split.
    + unfold ret. by rewrite add_events_nil.
    + repeat split.
Qed.

Lemma getProgramIndex_calls_from calls : forall ctx w,
  progs ctx <> [] ->
  int_min <= pos ctx ->
  pos ctx + len calls <= int_max + 1 ->
  exists ctx' w',
    getProgramIndex_calls calls ctx w
    = Ret (seqZ (pos ctx) (len calls), ctx') w' /\
    same_pool ctx ctx'.
Proof.
  induction calls as [|[pid now] rest IH]; intros ctx w Hne Hlo Hhi.
  - exists ctx, w. split; [reflexivity|]. repeat split.
  - destruct (getProgramIndex_run now ctx w Hne)
      as (ctx1 & evs & Hrun & Hpos & Hsame & _).
    simpl. unfold bind at 1. rewrite Hrun. cbn [fst snd].
    assert (Hlen : len ((pid, now) :: rest) = 1 + len rest)
      by (unfold len; simpl length; lia).
    rewrite Hlen in *.
    destruct rest as [|c rest'].
    + exists ctx1, (add_events w evs). split; [|done].
      simpl. unfold bind, ret. reflexivity.
    + assert (Hlen' : 1 <= len (c :: rest')) by (unfold len; simpl length; lia).
      assert (Hp1 : pos ctx1 = pos ctx + 1).
      { rewrite Hpos. unfold int_add. apply wrap64_small.
        unfold int_min, int_max in *. lia. }
      destruct (IH ctx1 (add_events w evs)) as (ctx' & w' & Hrest & Hsame').
      { destruct Hsame as [-> _]. done. }
      { lia. }
      { lia. }
      exists ctx', w'. split.
      * unfold bind. rewrite Hrest. unfold ret. cbn [fst snd].
        rewrite Hp1. do 2 f_equal.
        rewrite (seqZ_cons (pos ctx)) by lia. do 2 f_equal; lia.
      * destruct Hsame as (? & ? & ? & ? & ?), Hsame' as (? & ? & ? & ? & ?).
        repeat split; congruence.
Qed.

(** C7: the calls of [getProgramIndex] on one pool, whichever workers
    make them, return 0, 1, 2, ... in call order: each call returns a
    value one larger than the call before it, so no value is returned
    twice and none is skipped.  (The program list is not empty, and the
    calls are fewer than the 2^63 values of a non-negative [int].) *)
Theorem getProgramIndex_returns_successive_indices
    (ctx : Context) (calls : list (Z * Z)) (w : World) :
  progs ctx <> [] ->
  pos ctx = 0 ->
  len calls <= 2 ^ 63 ->
  exists ctx' w',
    getProgramIndex_calls calls ctx w = Ret (seqZ 0 (len calls), ctx') w' /\
    (forall i : nat, (i < length calls)%nat ->
                     seqZ 0 (len calls) !! i = Some (Z.of_nat i)) /\
    NoDup (seqZ 0 (len calls)).
Proof.
  intros Hne Hpos Hlen.
  destruct (getProgramIndex_calls_from calls ctx w Hne) as (ctx' & w' & Hrun & _).
  - rewrite Hpos. unfold int_min. lia.
  - rewrite Hpos. unfold int_max. lia.
  - rewrite Hpos in Hrun. exists ctx', w'. split; [done|]. split.
    + intros i Hi. rewrite lookup_seqZ. split; [lia|]. unfold len. lia.
    + apply NoDup_seqZ.
Qed.

(** Three calls from two workers on a fresh context return 0, 1, 2. *)
Lemma getProgramIndex_returns_successive_indices_witness :
  exists ctx' w',
    getProgramIndex_calls [(0, 10); (1, 11); (0, 12)] one_prog_context
      initial_world = Ret ([0; 1; 2], ctx') w' /\
    (forall i : nat, (i < 3)%nat -> [0; 1; 2] !! i = Some (Z.of_nat i)) /\
    NoDup [0; 1; 2].
Proof.
  apply (getProgramIndex_returns_successive_indices one_prog_context
           [(0, 10); (1, 11); (0, 12)] initial_world).
  - discriminate.
  - reflexivity.
  - unfold len. simpl. lia.
Defined.

(** ** The worker pool *)

Lemma count_done_cons st ws :
  count_done (st :: ws)
  = ((if decide (WDone = st) then 1 else 0) + count_done ws)%nat.
Proof.
  unfold count_done. rewrite filter_cons.
  destruct (decide (WDone = st)); reflexivity.
Qed.

Lemma count_done_insert ws : forall q st st',
  ws !! q = Some st ->
  (count_done (<[q := st']> ws) + (if decide (WDone = st) then 1 else 0)
   = count_done ws + (if decide (WDone = st') then 1 else 0))%nat.
Proof.
  induction ws as [|x ws IH]; intros q st st' Hq; [by rewrite lookup_nil in Hq|].
  destruct q as [|q]; simpl in *.
  - injection Hq as ->. rewrite !count_done_cons. lia.
  - rewrite !count_done_cons. specialize (IH q st st' Hq). lia.
Qed.

Lemma count_done_lt ws : forall q st,
  ws !! q = Some st -> st <> WDone -> (count_done ws < length ws)%nat.
Proof.
  assert (Hle : forall l, (count_done l <= length l)%nat).
  { induction l as [|x l IH]; [done|]. rewrite count_done_cons. simpl.
    destruct (decide (WDone = x)); lia. }
  induction ws as [|x ws IH]; intros q st Hq Hst; [by rewrite lookup_nil in Hq|].
  rewrite count_done_cons. simpl length. destruct q as [|q]; simpl in Hq.
  - injection Hq as ->. rewrite decide_False by congruence.
    specialize (Hle ws). lia.
  - specialize (IH q st Hq Hst). destruct (decide (WDone = x)); lia.
Qed.

Lemma count_done_all ws : Forall (eq WDone) ws -> count_done ws = length ws.
Proof.
  induction 1 as [|x ws Hx _ IH]; [done|].
  rewrite count_done_cons, decide_True by done. simpl. lia.
Qed.

Lemma turns_of_cons p q now sched :
  turns_of p ((q, now) :: sched)
  = ((if decide (q = p) then 1 else 0) + turns_of p sched)%nat.
Proof.
  unfold turns_of. rewrite filter_cons. simpl.
  destruct (decide (q = p)); reflexivity.
Qed.

Lemma mod_block n r x : 0 < n -> 0 <= x < n -> (n * r + x) mod n = x.
Proof.
  intros Hn Hx. rewrite Z.add_comm, Z.mul_comm, Z_mod_plus_full.
  by apply Z.mod_small.
Qed.

Lemma filter_none {A} (P : A -> Prop) `{forall x, Decision (P x)} (l : list A) :
  Forall (fun x => ~ P x) l -> filter P l = [].
Proof.
  induction 1 as [|x l Hx _ IH]; [done|].
  by rewrite filter_cons_False.
Qed.

(** In a block of [n] successive cursor values starting at a multiple of
    [n], program [j] is dispatched exactly once. *)
Lemma dispatch_block n r j :
  0 < n -> 0 <= j < n ->
  filter (fun d : Z * Z => d.1 = j) (map (dispatch_of n) (seqZ (n * r) n))
  = [dispatch_of n (n * r + j)].
Proof.
  intros Hn Hj.
  replace n with (j + (1 + (n - j - 1))) at 3 by lia.
  rewrite seqZ_app by lia. rewrite seqZ_app by lia.
  rewrite !map_app, !filter_app.
  rewrite (filter_none _ (map _ (seqZ (n * r) j))).
  2: { apply Forall_map, Forall_seqZ. intros i Hi. unfold dispatch_of. simpl.
       replace i with (n * r + (i - n * r)) by lia.
       rewrite mod_block by lia. lia. }
  rewrite (filter_none _ (map _ (seqZ (n * r + j + 1) (n - j - 1)))).
  2: { apply Forall_map, Forall_seqZ. intros i Hi. unfold dispatch_of. simpl.
       replace i with (n * r + (i - n * r)) by lia.
       rewrite mod_block by lia. lia. }
  change (seqZ (n * r + j) 1) with [n * r + j]. simpl map.
  rewrite filter_cons_True by (unfold dispatch_of; simpl; by apply mod_block).
  by rewrite filter_nil.
Qed.

(** Over [n * r] cursor values, every program is dispatched [r] times. *)
Lemma dispatch_counts n j : 0 < n -> 0 <= j < n -> forall r : nat,
  length (filter (fun d : Z * Z => d.1 = j)
                 (map (dispatch_of n) (seqZ 0 (n * Z.of_nat r)))) = r.
Proof.
  intros Hn Hj. induction r as [|r IH].
  - rewrite Z.mul_0_r. reflexivity.
  - replace (n * Z.of_nat (S r)) with (n * Z.of_nat r + n) by lia.
    rewrite seqZ_app by lia. rewrite map_app, filter_app, length_app, IH.
    rewrite Z.add_0_l, dispatch_block by done. simpl. lia.
Qed.

Section Pool.
Variables (dispatch : dispatcher) (env : Env) (covType : Z).
Variables (ps : list Prog) (R : Z) (P : nat).
Hypothesis progs_nonempty : 0 < len ps.
Hypothesis repeat_positive : 0 < R.
Hypothesis no_overflow : len ps * R + Z.of_nat P < 2 ^ 63.
Hypothesis env_ok : forall pid, MakeEnv_ok env pid = true.
Hypothesis dispatch_ok : dispatch_returns dispatch.

(** The rule of one loop iteration: with cursor value [i], the worker
    leaves the loop without dispatching when [i >= |ps| * R], and
    otherwise dispatches program [i mod |ps|] tagged [i]. *)
Lemma run_iteration_rule now pid ctx w :
  progs ctx = ps -> repeat ctx = R -> shutdown ctx = false ->
  0 <= pos ctx < 2 ^ 63 - 1 ->
  exists ctx' w',
    run_iteration dispatch now pid covType ctx w
    = Ret (negb (len ps * R <=? pos ctx), ctx') w' /\
    same_pool ctx ctx' /\
    pos ctx' = pos ctx + 1 /\
    dispatches (trace w')
    = app (dispatches (trace w))
          (if len ps * R <=? pos ctx then []
           else [dispatch_of (len ps) (pos ctx)]).
Proof.
  intros Hps HR Hsh Hpos.
  assert (Hne : progs ctx <> []).
  { rewrite Hps. intros E. rewrite E in progs_nonempty.
    unfold len in progs_nonempty. simpl in progs_nonempty. lia. }
  destruct (getProgramIndex_run now ctx w Hne)
    as (ctx1 & evs & Hrun & Hp1 & Hsame & Hevs).
  assert (Hpos1 : pos ctx1 = pos ctx + 1).
  { rewrite Hp1. unfold int_add. apply wrap64_small.
    unfold int_min, int_max. lia. }
  destruct Hsame as (Hps1 & Hfn1 & Hdbg1 & Hsh1 & Hrep1).
  unfold run_iteration. rewrite Hsh. unfold bind at 1. rewrite Hrun.
  rewrite Hrep1, HR, Hps1, Hps.
  replace (R >? 0) with true by (symmetry; apply Z.gtb_lt; lia).
  assert (Hmul : int_mul (len ps) R = len ps * R).
  { unfold int_mul. apply wrap64_small. unfold int_min, int_max. nia. }
  rewrite Hmul. rewrite Z.geb_leb. cbn [andb].
  exists ctx1.
  destruct (Z.leb_spec (len ps * R) (pos ctx)) as [Hge|Hlt].
  - exists (add_events w evs). split; [reflexivity|].
    split; [repeat split; congruence|]. split; [done|].
    cbn [trace add_events]. rewrite dispatches_app, Hevs. reflexivity.
  - assert (Hrem : Z.rem (pos ctx) (len ps) = pos ctx mod len ps)
      by (apply Z.rem_mod_nonneg; lia).
    rewrite Hrem.
    assert (Hidx : exists entry, index ps (pos ctx mod len ps) = Some entry).
    { unfold index.
      pose proof (Z.mod_pos_bound (pos ctx) (len ps) progs_nonempty) as Hb.
      destruct (Z.ltb_spec (pos ctx mod len ps) 0) as [?|_]; [lia|].
      apply lookup_lt_is_Some. unfold len in *. lia. }
    destruct Hidx as [entry ->].
    unfold bind. rewrite emit_add.
    destruct (dispatch_ok ctx1 pid entry (pos ctx) covType
                (add_events (add_events w evs)
                   [EvDispatch pid (pos ctx mod len ps) (pos ctx)]))
      as (w' & Hd & Hdw).
    rewrite Hd. exists w'. split; [reflexivity|].
    split; [repeat split; congruence|]. split; [done|].
    rewrite Hdw. cbn [trace add_events].
    rewrite !dispatches_app, Hevs. rewrite app_nil_r. reflexivity.
Qed.

(** One turn keeps the invariant, lengthens no worker's way to its
    return, and shortens that of the worker that moved. *)
Lemma worker_turn_step D0 q now pl w :
  pool_inv ps R P D0 pl w ->
  exists b pl' w',
    worker_turn dispatch env covType q now pl w = Ret (b, pl') w' /\
    pool_inv ps R P D0 pl' w' /\
    (forall p, (turns_left ps R p pl' <= turns_left ps R p pl)%nat) /\
    (turns_left ps R q pl' <= turns_left ps R q pl - 1)%nat.
Proof.
  intros (Hps & HR & Hsh & Hpos & Hlen & Hdone & Hdisp).
  unfold worker_turn.
  destruct (workers pl !! q) as [[| |]|] eqn:Hq.
  - (* the worker creates its environment *)
    rewrite env_ok. eexists _, _, _. split; [reflexivity|].
    split; [|split].
    + repeat split; cbn [pool_ctx workers]; try done.
      * by rewrite length_insert.
      * pose proof (count_done_insert (workers pl) q WStart WLoop Hq) as Hc.
        rewrite !decide_False in Hc by discriminate. lia.
    + intros p. unfold turns_left. cbn [pool_ctx workers].
      destruct (decide (p = q)) as [->|Hne].
      * rewrite list_lookup_insert_eq by (by eapply lookup_lt_Some).
        rewrite Hq. lia.
      * by rewrite list_lookup_insert_ne.
    + unfold turns_left. cbn [pool_ctx workers].
      rewrite list_lookup_insert_eq by (by eapply lookup_lt_Some).
      rewrite Hq. lia.
  - (* the worker runs one iteration of its loop *)
    assert (Hcnt : (count_done (workers pl) < P)%nat).
    { rewrite <- Hlen. by eapply count_done_lt. }
    assert (Hb : 0 <= pos (pool_ctx pl) < 2 ^ 63 - 1) by lia.
    destruct (run_iteration_rule now (Z.of_nat q) (pool_ctx pl) w Hps HR Hsh Hb)
      as (ctx' & w' & Hrun & (Hps' & _ & _ & Hsh' & HR') & Hpos' & Hd').
    unfold bind. rewrite Hrun.
    destruct (Z.leb_spec (len ps * R) (pos (pool_ctx pl))) as [Hge|Hlt];
      cbn [negb].
    + eexists _, _, _. split; [reflexivity|]. split; [|split].
      * repeat split; cbn [pool_ctx workers]; try congruence; try lia.
        -- by rewrite length_insert.
        -- pose proof (count_done_insert (workers pl) q WLoop WDone Hq) as Hc.
           rewrite decide_False in Hc by discriminate.
           rewrite decide_True in Hc by done. lia.
        -- rewrite Hd', Hdisp, app_nil_r. rewrite Hpos'.
           do 3 f_equal. lia.
      * intros p. unfold turns_left. cbn [pool_ctx workers].
        destruct (decide (p = q)) as [->|Hne].
        -- rewrite list_lookup_insert_eq by (by eapply lookup_lt_Some). lia.
        -- rewrite list_lookup_insert_ne by done.
           destruct (workers pl !! p) as [[| |]|]; lia.
      * unfold turns_left. cbn [pool_ctx workers].
        rewrite list_lookup_insert_eq by (by eapply lookup_lt_Some).
        rewrite Hq. lia.
    + eexists _, _, _. split; [reflexivity|]. split; [|split].
      * repeat split; cbn [pool_ctx workers]; try congruence; try lia.
        rewrite Hd', Hdisp, <- app_assoc. f_equal. rewrite Hpos'.
        rewrite !Z.min_l by lia.
        rewrite seqZ_app by lia. rewrite map_app. reflexivity.
      * intros p. unfold turns_left. cbn [pool_ctx workers].
        destruct (workers pl !! p) as [[| |]|]; lia.
      * unfold turns_left. cbn [pool_ctx workers]. rewrite Hq. lia.
  - (* the worker has returned *)
    eexists _, _, _. split; [reflexivity|]. split; [done|]. split; [done|].
    unfold turns_left. rewrite Hq. lia.
  - (* there is no such worker *)
    eexists _, _, _. split; [reflexivity|]. split; [done|]. split; [done|].
    unfold turns_left. rewrite Hq. lia.
Qed.

Lemma run_schedule_inv D0 sched : forall pl w,
  pool_inv ps R P D0 pl w ->
  exists pl' w',
    run_schedule dispatch env covType sched pl w = Ret pl' w' /\
    pool_inv ps R P D0 pl' w' /\
    (forall p, (turns_left ps R p pl'
                <= turns_left ps R p pl - turns_of p sched)%nat).
Proof.
  induction sched as [|[q now] rest IH]; intros pl w Hinv.
  - exists pl, w. split; [reflexivity|]. split; [done|]. intros p.
    unfold turns_of. simpl. lia.
  - destruct (worker_turn_step D0 q now pl w Hinv)
      as (b & pl1 & w1 & Hturn & Hinv1 & Hmono & Hq).
    destruct (IH pl1 w1 Hinv1) as (pl' & w' & Hrun & Hinv' & Hleft).
    exists pl', w'. split; [|split; [done|]].
    + simpl. unfold bind. rewrite Hturn. exact Hrun.
    + intros p. rewrite turns_of_cons. specialize (Hleft p).
      specialize (Hmono p).
      destruct (decide (q = p)) as [->|Hne]; lia.
Qed.

Lemma start_pool_inv fns dbg w :
  pool_inv ps R P (dispatches (trace w))
    (start_pool (new_context ps fns dbg R) P) w.
Proof.
  assert (Hz : forall n, count_done (replicate n WStart) = 0%nat).
  { induction n as [|n IH]; [done|]. simpl replicate.
    rewrite count_done_cons, IH. by rewrite decide_False. }
  unfold pool_inv, start_pool, new_context.
  cbn [pool_ctx workers progs repeat shutdown pos].
  rewrite Hz, length_replicate, Z.min_l by lia.
  split_and!; try done; try lia.
  simpl. by rewrite app_nil_r.
Qed.

(** When all workers have returned, exactly the cursor values below
    [|ps| * R] were dispatched. *)
Lemma pool_inv_complete D0 pl w :
  (0 < P)%nat ->
  pool_inv ps R P D0 pl w ->
  all_returned pl ->
  dispatches (trace w)
  = app D0 (map (dispatch_of (len ps)) (seqZ 0 (len ps * R))).
Proof.
  intros HP (_ & _ & _ & Hpos & Hlen & Hdone & Hdisp) Hall.
  rewrite (count_done_all _ Hall), Hlen in Hdone.
  rewrite Hdisp. do 3 f_equal. lia.
Qed.
End Pool.

(** ** What reaches the dispatcher *)

Lemma executions_app t1 t2 :
  executions (app t1 t2) = app (executions t1) (executions t2).
Proof. unfold executions. apply omap_app. Qed.

Lemma records_calls_returns dispatch :
  records_calls dispatch -> dispatch_returns dispatch.
Proof.
  intros H ctx pid p idx covType w.
  destruct (H ctx pid p idx covType w) as (w' & Hrun & Hd & _).
  by exists w'.
Qed.

(** A draw marks neither a dispatch nor a call. *)
Lemma getProgramIndex_marks_nothing now ctx w :
  progs ctx <> [] ->
  exists ctx' evs,
    getProgramIndex now ctx w = Ret (pos ctx, ctx') (add_events w evs) /\
    pos ctx' = int_add (pos ctx) 1 /\
    same_pool ctx ctx' /\
    dispatches evs = [] /\
    executions evs = [].
Proof.
  intros Hne. unfold getProgramIndex.
  cbn [progs set_pos pos lastPrint].
  rewrite len_zero_nil. rewrite bool_decide_eq_false_2 by done.
  destruct ((Z.rem (pos ctx) (len (progs ctx)) =? 0)
            && (Since now (lastPrint ctx) >? 5 * Second)).
  - eexists. eexists. split.
    + unfold bind, Logf. rewrite emit_add. reflexivity.
    + repeat split.
  - eexists. exists []. split.
    + unfold ret. by rewrite add_events_nil.
    + repeat split.
Qed.

(** Counting the calls by program position is counting the cursor
    values by their remainder. *)
Lemma is_call_of_count ps covType n j es tags :
  Forall2 (is_call_of ps covType) es tags ->
  length (filter (fun c => call_tag c mod n = j) es)
  = length (filter (fun d : Z * Z => d.1 = j) (map (dispatch_of n) tags)).
Proof.
  induction 1 as [|c i es tags (Ht & _ & _) _ IH]; [done|].
  simpl map. rewrite !filter_cons. unfold dispatch_of at 1. cbn [fst].
  rewrite Ht.
  destruct (decide (i mod n = j)); simpl; by rewrite IH.
Qed.

Lemma is_call_of_tags ps covType es tags :
  Forall2 (is_call_of ps covType) es tags -> map call_tag es = tags.
Proof.
  induction 1 as [|c i es tags (Ht & _ & _) _ IH]; [done|].
  simpl. by rewrite Ht, IH.
Qed.

Section PoolCalls.
Variables (dispatch : dispatcher) (env : Env) (covType : Z).
Variables (ps : list Prog) (R : Z) (P : nat).
Hypothesis progs_nonempty : 0 < len ps.
Hypothesis repeat_positive : 0 < R.
Hypothesis no_overflow : len ps * R + Z.of_nat P < 2 ^ 63.
Hypothesis env_ok : forall pid, MakeEnv_ok env pid = true.
Hypothesis dispatch_records : records_calls dispatch.

(** The rule of one loop iteration, in terms of what the dispatcher is
    given: with cursor value [i], the worker leaves the loop without a
    call when [i >= |ps| * R], and otherwise calls the dispatcher with the
    program at position [i mod |ps|], tagged [i]. *)
Lemma run_iteration_calls now pid ctx w :
  progs ctx = ps -> repeat ctx = R -> shutdown ctx = false ->
  0 <= pos ctx < 2 ^ 63 - 1 ->
  exists ctx' w',
    run_iteration dispatch now pid covType ctx w
    = Ret (negb (len ps * R <=? pos ctx), ctx') w' /\
    pos ctx' = pos ctx + 1 /\
    (len ps * R <= pos ctx -> executions (trace w') = executions (trace w)) /\
    (pos ctx < len ps * R ->
     exists p,
       ps !! Z.to_nat (pos ctx mod len ps) = Some p /\
       executions (trace w')
       = app (executions (trace w))
             [{| call_pid := pid; call_prog := p; call_tag := pos ctx;
                 call_covType := covType |}]).
Proof.
  intros Hps HR Hsh Hpos.
  assert (Hne : progs ctx <> []).
  { rewrite Hps. intros E. rewrite E in progs_nonempty.
    unfold len in progs_nonempty. simpl in progs_nonempty. lia. }
  destruct (getProgramIndex_marks_nothing now ctx w Hne)
    as (ctx1 & evs & Hrun & Hp1 & Hsame & _ & Hevs).
  assert (Hpos1 : pos ctx1 = pos ctx + 1).
  { rewrite Hp1. unfold int_add. apply wrap64_small.
    unfold int_min, int_max. lia. }
  destruct Hsame as (Hps1 & Hfn1 & Hdbg1 & Hsh1 & Hrep1).
  unfold run_iteration. rewrite Hsh. unfold bind at 1. rewrite Hrun.
  rewrite Hrep1, HR, Hps1, Hps.
  replace (R >? 0) with true by (symmetry; apply Z.gtb_lt; lia).
  assert (Hmul : int_mul (len ps) R = len ps * R).
  { unfold int_mul. apply wrap64_small. unfold int_min, int_max. nia. }
  rewrite Hmul. rewrite Z.geb_leb. cbn [andb].
  exists ctx1.
  destruct (Z.leb_spec (len ps * R) (pos ctx)) as [Hge|Hlt].
  - exists (add_events w evs). split; [reflexivity|]. split; [done|].
    split; [|lia]. intros _.
    cbn [trace add_events]. by rewrite executions_app, Hevs, app_nil_r.
  - assert (Hrem : Z.rem (pos ctx) (len ps) = pos ctx mod len ps)
      by (apply Z.rem_mod_nonneg; lia).
    rewrite Hrem. unfold index.
    pose proof (Z.mod_pos_bound (pos ctx) (len ps) progs_nonempty) as Hb.
    destruct (Z.ltb_spec (pos ctx mod len ps) 0) as [?|_]; [lia|].
    destruct (lookup_lt_is_Some_2 ps (Z.to_nat (pos ctx mod len ps)))
      as [entry Hentry]; [unfold len in *; lia|].
    rewrite Hentry. unfold bind. rewrite emit_add.
    destruct (dispatch_records ctx1 pid entry (pos ctx) covType
                (add_events (add_events w evs)
                   [EvDispatch pid (pos ctx mod len ps) (pos ctx)]))
      as (w' & Hd & _ & He).
    rewrite Hd. exists w'. split; [reflexivity|]. split; [done|].
    split; [lia|]. intros _. exists entry. split; [done|].
    rewrite He. cbn [trace add_events].
    rewrite !executions_app, Hevs. simpl. by rewrite !app_nil_r.
Qed.

(** One turn keeps the record of the calls in step with the cursor. *)
Lemma worker_turn_calls D0 E0 q now pl w b pl' w' :
  pool_inv ps R P D0 pl w ->
  calls_inv ps R covType E0 pl w ->
  worker_turn dispatch env covType q now pl w = Ret (b, pl') w' ->
  calls_inv ps R covType E0 pl' w'.
Proof.
  intros (Hps & HR & Hsh & Hpos & Hlen & Hdone & _) (es & Hes & Hcalls).
  unfold worker_turn.
  destruct (workers pl !! q) as [[| |]|] eqn:Hq.
  - rewrite env_ok. intros [= <- <- <-]. by exists es.
  - assert (Hcnt : (count_done (workers pl) < P)%nat).
    { rewrite <- Hlen. by eapply count_done_lt. }
    assert (Hb : 0 <= pos (pool_ctx pl) < 2 ^ 63 - 1) by lia.
    destruct (run_iteration_calls now (Z.of_nat q) (pool_ctx pl) w Hps HR Hsh Hb)
      as (ctx' & w1 & Hrun & Hpos' & Hstop & Hcall).
    unfold bind. rewrite Hrun. intros [= <- <- <-]. cbn [pool_ctx].
    unfold calls_inv. cbn [pool_ctx]. rewrite Hpos'.
    destruct (Z.le_gt_cases (len ps * R) (pos (pool_ctx pl))) as [Hge|Hlt].
    + exists es. rewrite (Hstop Hge). split; [done|].
      rewrite Z.min_r in * by lia. done.
    + destruct (Hcall Hlt) as (entry & Hentry & He).
      exists (app es [{| call_pid := Z.of_nat q; call_prog := entry;
                         call_tag := pos (pool_ctx pl);
                         call_covType := covType |}]).
      split; [by rewrite He, Hes, app_assoc|].
      rewrite Z.min_l in * by lia.
      rewrite seqZ_app by lia. apply Forall2_app; [done|].
      rewrite Z.add_0_l. change (seqZ (pos (pool_ctx pl)) 1)
        with [pos (pool_ctx pl)].
      constructor; [|constructor]. by repeat split.
  - intros [= <- <- <-]. by exists es.
  - intros [= <- <- <-]. by exists es.
Qed.

Lemma run_schedule_calls D0 E0 sched : forall pl w pl' w',
  pool_inv ps R P D0 pl w ->
  calls_inv ps R covType E0 pl w ->
  run_schedule dispatch env covType sched pl w = Ret pl' w' ->
  calls_inv ps R covType E0 pl' w'.
Proof.
  induction sched as [|[q now] rest IH]; intros pl w pl' w' Hinv Hcalls Hrun.
  - by injection Hrun as <- <-.
  - destruct (worker_turn_step dispatch env covType ps R P progs_nonempty
                repeat_positive no_overflow env_ok
                (records_calls_returns _ dispatch_records) D0 q now pl w Hinv)
      as (b & pl1 & w1 & Hturn & Hinv1 & _).
    simpl in Hrun. unfold bind in Hrun. rewrite Hturn in Hrun.
    eapply IH; [exact Hinv1| |exact Hrun].
    exact (worker_turn_calls D0 E0 q now pl w b pl1 w1 Hinv Hcalls Hturn).
Qed.

Lemma start_pool_calls fns dbg w :
  calls_inv ps R covType (executions (trace w))
    (start_pool (new_context ps fns dbg R) P) w.
Proof.
  exists []. split; [by rewrite app_nil_r|].
  cbn [start_pool pool_ctx new_context pos]. rewrite Z.min_l by lia.
  constructor.
Qed.
End PoolCalls.

(** C8 (amended): a worker that draws index [i] leaves its loop without
    a call when [i >= N * R] and otherwise hands the program at position
    [i mod N], tagged [i], to the dispatcher.  Consequently, in a pool of
    [P >= 1] workers over [N >= 1] programs with repeat limit [R > 0],
    under every interleaving of the workers, once all workers have
    returned the dispatcher has received exactly [N * R] calls: in some
    order, one for each cursor value below [N * R], with the program at
    that value modulo [N]; so each of the [N] programs was dispatched
    exactly [R] times.  Every schedule that gives each worker [N * R + 2]
    turns brings all workers to their return.  With 4 programs, 2 workers
    and repeat 2 that is 8 calls, 2 of each program.  All this needs the
    list not to be empty and [N * R + P] to be below 2^63 (the program
    computes [N * R] in a 64-bit [int]); no interrupt is delivered, and
    every dispatch returns. *)
Theorem pool_dispatches_every_program_repeat_times
    (dispatch : dispatcher) (env : Env) (covType : Z)
    (ps : list Prog) (fns : list string) (dbg : bool) (R : Z) (P : nat) :
  0 < len ps ->
  0 < R ->
  (0 < P)%nat ->
  len ps * R + Z.of_nat P < 2 ^ 63 ->
  (forall pid, MakeEnv_ok env pid = true) ->
  records_calls dispatch ->
  (forall now pid ctx w,
     progs ctx = ps -> repeat ctx = R -> shutdown ctx = false ->
     0 <= pos ctx < 2 ^ 63 - 1 ->
     exists ctx' w',
       run_iteration dispatch now pid covType ctx w
       = Ret (negb (len ps * R <=? pos ctx), ctx') w' /\
       (len ps * R <= pos ctx ->
        executions (trace w') = executions (trace w)) /\
       (pos ctx < len ps * R ->
        exists p,
          ps !! Z.to_nat (pos ctx mod len ps) = Some p /\
          executions (trace w')
          = app (executions (trace w))
                [{| call_pid := pid; call_prog := p; call_tag := pos ctx;
                    call_covType := covType |}]))
  /\ (forall sched w pl' w',
        run_schedule dispatch env covType sched
          (start_pool (new_context ps fns dbg R) P) w = Ret pl' w' ->
        all_returned pl' ->
        exists es,
          executions (trace w') = app (executions (trace w)) es /\
          (exists ordered,
             es ≡ₚ ordered /\
             Forall2 (is_call_of ps covType) ordered (seqZ 0 (len ps * R))) /\
          length es = Z.to_nat (len ps * R) /\
          forall j, 0 <= j < len ps ->
                    length (filter (fun c => call_tag c mod len ps = j) es)
                    = Z.to_nat R)
  /\ (forall sched w,
        (forall p, (p < P)%nat ->
                   (Z.to_nat (len ps * R) + 2 <= turns_of p sched)%nat) ->
        exists pl' w',
          run_schedule dispatch env covType sched
            (start_pool (new_context ps fns dbg R) P) w = Ret pl' w' /\
          all_returned pl').
Proof.
  intros HN HR HP Hbound Henv Hrec.
  pose proof (records_calls_returns _ Hrec) as Hdisp.
  split; [|split].
  - intros now pid ctx w Hps Hrep Hsh Hpos.
    destruct (run_iteration_calls dispatch covType ps R P HN HR Hbound Hrec
                now pid ctx w Hps Hrep Hsh Hpos)
      as (ctx' & w' & Hrun & _ & Hstop & Hcall).
    by exists ctx', w'.
  - intros sched w pl' w' Hrun Hall.
    destruct (run_schedule_inv dispatch env covType ps R P HN HR Hbound Henv
                Hdisp (dispatches (trace w)) sched _ w
                (start_pool_inv ps R P HN HR fns dbg w))
      as (pl'' & w'' & Hrun' & Hinv & _).
    rewrite Hrun in Hrun'. injection Hrun' as <- <-.
    destruct (run_schedule_calls dispatch env covType ps R P HN HR Hbound Henv
                Hrec _ (executions (trace w)) sched _ w pl' w'
                (start_pool_inv ps R P HN HR fns dbg w)
                (start_pool_calls covType ps R P HN HR fns dbg w) Hrun)
      as (es & Hes & Hcalls).
    assert (Hfull : Z.min (pos (pool_ctx pl')) (len ps * R) = len ps * R).
    { destruct Hinv as (_ & _ & _ & Hpos & Hlen & Hdone & _).
      rewrite (count_done_all _ Hall), Hlen in Hdone. lia. }
    rewrite Hfull in Hcalls.
    pose proof (is_call_of_tags _ _ _ _ Hcalls) as Htags.
    exists es. split; [exact Hes|]. split; [by exists es|]. split.
    + rewrite <- (length_map call_tag), Htags. apply length_seqZ.
    + intros j Hj.
      rewrite (is_call_of_count _ _ (len ps) j _ _ Hcalls).
      pose proof (dispatch_counts (len ps) j HN Hj (Z.to_nat R)) as Hc.
      rewrite Z2Nat.id in Hc by lia. exact Hc.
  - intros sched w Hfair.
    destruct (run_schedule_inv dispatch env covType ps R P HN HR Hbound Henv
                Hdisp (dispatches (trace w)) sched _ w
                (start_pool_inv ps R P HN HR fns dbg w))
      as (pl' & w' & Hrun & Hinv & Hleft).
    exists pl', w'. split; [done|].
    destruct Hinv as (_ & _ & _ & _ & Hlen & _ & _).
    apply Forall_lookup. intros p st Hp.
    assert (HpP : (p < P)%nat) by (rewrite <- Hlen; by eapply lookup_lt_Some).
    specialize (Hleft p). specialize (Hfair p HpP).
    unfold turns_left in Hleft at 2.
    cbn [start_pool workers pool_ctx new_context pos] in Hleft.
    rewrite lookup_replicate_2 in Hleft by done.
    unfold turns_left in Hleft. rewrite Hp in Hleft.
    destruct st; [lia|lia|done].
Qed.

Lemma quiet_dispatch_returns : dispatch_returns quiet_dispatch.
Proof.
  intros ctx pid p idx covType w.
  unfold quiet_dispatch, execute, defer, bind, execute_loop, execute_success.
  cbn. destruct (cfgDebug ctx); cbn.
  all: eexists; split; [reflexivity|].
  all: cbn [trace]; rewrite !dispatches_app; cbn; by rewrite ?app_nil_r.
Qed.

Lemma recording_quiet_dispatch_records : records_calls (recording quiet_dispatch).
Proof.
  intros ctx pid p idx covType w.
  unfold recording, quiet_dispatch, execute, defer, bind, execute_loop,
    execute_success.
  cbn. destruct (cfgDebug ctx); cbn.
  all: eexists; split; [reflexivity|].
  all: cbn [trace]; rewrite !dispatches_app, !executions_app; cbn;
       by rewrite ?app_nil_r.
Qed.

Lemma alternating_schedule_turns p :
  (p < 2)%nat ->
  (Z.to_nat (len four_progs * 2) + 2 <= turns_of p alternating_schedule)%nat.
Proof.
  intros Hp. destruct p as [|[|p]]; [vm_compute; lia|vm_compute; lia|lia].
Qed.

(** Four programs, two workers taking turns, repeat limit 2: all workers
    return, after 8 calls of the dispatcher, two for each program. *)
Lemma pool_dispatches_every_program_repeat_times_witness :
  exists pl' w',
    run_schedule (recording quiet_dispatch) plain_env 0 alternating_schedule
      (start_pool four_progs_context 2) initial_world = Ret pl' w' /\
    all_returned pl' /\
    map (fun c => (Serialize (call_prog c), call_tag c)) (executions (trace w'))
    = [("getpid()", 0); ("getuid()", 1); ("sync()", 2); ("gettid()", 3);
       ("getpid()", 4); ("getuid()", 5); ("sync()", 6); ("gettid()", 7)] /\
    forall j, 0 <= j < 4 ->
              length (filter (fun c => call_tag c mod 4 = j)
                             (executions (trace w'))) = 2%nat.
Proof.
  destruct (pool_dispatches_every_program_repeat_times
              (recording quiet_dispatch) plain_env 0
              four_progs ["p0"; "p1"; "p2"; "p3"] false 2 2)
    as (_ & Hcomplete & Hfair).
  - unfold len. simpl. lia.
  - lia.
  - lia.
  - unfold len. simpl. lia.
  - reflexivity.
  - exact recording_quiet_dispatch_records.
  - destruct (Hfair alternating_schedule initial_world
                alternating_schedule_turns) as (pl' & w' & Hrun & Hall).
    exists pl', w'. split; [exact Hrun|]. split; [exact Hall|].
    destruct (Hcomplete _ _ _ _ Hrun Hall) as (es & Hes & _ & _ & Hcount).
    split.
    + pose proof Hrun as Hr. vm_compute in Hr. injection Hr as _ <-.
      vm_compute. reflexivity.
    + rewrite Hes. exact Hcount.
Defined.

(** The claim without its bound: with 4 programs and repeat limit 2^62
    the product [N * R] is 2^64, which the program holds as 0; the first
    index drawn, 0, is not below it, so every worker leaves its loop at
    its first draw and no program is dispatched at all, although
    [0 < N * R]. *)
Lemma pool_with_wrapping_limit_dispatches_nothing :
  0 < len (progs wrapping_context) * repeat wrapping_context /\
  exists pl' w',
    run_schedule (recording quiet_dispatch) plain_env 0
      [(0%nat, 0); (1%nat, 0); (0%nat, 0); (1%nat, 0)]
      (start_pool wrapping_context 2) initial_world = Ret pl' w' /\
    all_returned pl' /\
    executions (trace w') = [].
Proof.
  split; [by vm_compute|].
  eexists _, _. split; [vm_compute; reflexivity|].
  split; [by repeat constructor | reflexivity].
Qed.

(** ** The two phases of [main] *)

Lemma count_done_snoc ws st :
  count_done (app ws [st])
  = (count_done ws + (if decide (WDone = st) then 1 else 0))%nat.
Proof.
  unfold count_done. rewrite filter_app, length_app. f_equal.
  rewrite filter_cons, filter_nil. by destruct (decide (WDone = st)).
Qed.

Lemma count_done_full ws : count_done ws = length ws -> Forall (eq WDone) ws.
Proof.
  induction ws as [|x ws IH]; [constructor|].
  rewrite count_done_cons. simpl length. intros H.
  assert (Hle : (count_done ws <= length ws)%nat).
  { unfold count_done. apply length_filter. }
  destruct (decide (WDone = x)) as [<-|]; [|lia].
  constructor; [done|]. apply IH. lia.
Qed.

(** A turn changes the number of workers not at all, and the number of
    returned workers by one exactly when [run] returned in it. *)
Lemma worker_turn_count dispatch env covType pid now pl w b pl' w' :
  worker_turn dispatch env covType pid now pl w = Ret (b, pl') w' ->
  length (workers pl') = length (workers pl) /\
  count_done (workers pl')
  = (count_done (workers pl) + (if b then 1 else 0))%nat.
Proof.
  unfold worker_turn.
  destruct (workers pl !! pid) as [[| |]|] eqn:Hp.
  - destruct (MakeEnv_ok env (Z.of_nat pid)); [|discriminate].
    intros [= <- <- <-]. cbn [workers]. rewrite length_insert. split; [done|].
    pose proof (count_done_insert (workers pl) pid WStart WLoop Hp) as Hc.
    rewrite !decide_False in Hc by discriminate. lia.
  - unfold bind.
    destruct (run_iteration dispatch now (Z.of_nat pid) covType (pool_ctx pl) w)
      as [[continue ctx] w1| | |]; try discriminate.
    intros [= <- <- <-]. cbn [workers].
    destruct continue; cbn [negb]; [split; [done|lia]|].
    rewrite length_insert. split; [done|].
    pose proof (count_done_insert (workers pl) pid WLoop WDone Hp) as Hc.
    rewrite decide_False in Hc by discriminate.
    rewrite decide_True in Hc by done. lia.
  - intros [= <- <- <-]. split; [done|lia].
  - intros [= <- <- <-]. split; [done|lia].
Qed.

Lemma main_start_inv flags inp w s w' :
  main_start flags inp w = Ret (Some s) w' -> sys_inv flags s.
Proof.
  unfold main_start.
  destruct ((len (in_progs inp) =? 0) && (len (in_reverseProgs inp) =? 0));
    [discriminate|].
  unfold bind, Logf. rewrite emit_add.
  destruct (Z.ltb_spec (flagProcs flags) 0) as [|Hp]; [discriminate|].
  intros [= <- <-]. sys_simpl. change (count_done []) with 0%nat.
  split; [lia|]. split; [lia|]. done.
Qed.

Lemma sys_inv_same_pool flags s s' :
  sys_inv flags s ->
  main_at s' = main_at s ->
  wg s' = wg s ->
  workers (origPool s') = workers (origPool s) ->
  (revPool s = None -> revPool s' = None) ->
  sys_inv flags s'.
Proof.
  intros [Hwg Hpc] Hat Hw Hws Hrev. unfold sys_inv, orig_workers_returned,
    all_returned in *.
  rewrite Hat, Hw, Hws. split; [done|].
  destruct (main_at s); try done.
  - destruct Hpc as (? & ? & ?). auto.
  - destruct Hpc as (? & ?). auto.
Qed.

Lemma main_step_inv flags env inp s w s' w' :
  sys_inv flags s ->
  main_step flags env inp s w = Ret s' w' ->
  sys_inv flags s'.
Proof.
  intros Hinv Hstep. pose proof Hinv as [Hwg Hpc].
  unfold main_step in Hstep.
  destruct (main_at s) as [p| | |p| | |] eqn:Hat.
  - destruct Hpc as (Hp & Hlen & Hrev).
    destruct (Z.ltb_spec p (flagProcs flags)) as [Hlt|Hge];
      injection Hstep as <- <-; sys_simpl.
    + rewrite count_done_snoc, decide_False by discriminate.
      split; [lia|]. split; [lia|]. split; [|done].
      unfold len in *. rewrite length_app. simpl. lia.
    + split; [done|]. split; [lia|done].
  - destruct Hpc as (Hlen & Hrev).
    destruct (Z.eqb_spec (wg s) 0) as [Hz|Hnz]; injection Hstep as <- <-;
      [|done].
    sys_simpl. split; [done|]. split; [done|].
    apply count_done_full. unfold len in Hlen. lia.
  - destruct (flagSemantic flags); injection Hstep as <- <-; sys_simpl; done.
  - destruct (p <? flagProcs flags); injection Hstep as <- <-; sys_simpl; done.
  - destruct (revWg s =? 0); injection Hstep as <- <-; [sys_simpl|]; done.
  - destruct (flagSemantic flags && negb (flagCoverFile flags =? "")%string).
    + unfold bind in Hstep.
      destruct (saveToFile env (flagCoverFile flags ++ "_Evaluation_Results") w)
        as [[e|] w1| | |]; try discriminate.
      unfold Logf in Hstep. rewrite emit_add in Hstep.
      cbv beta iota in Hstep. unfold ret in Hstep.
      injection Hstep as <- <-. sys_simpl. done.
    + injection Hstep as <- <-. sys_simpl. done.
  - injection Hstep as <- <-. done.
Qed.

Lemma orig_turn_inv flags s (b : bool) pl' :
  sys_inv flags s ->
  length (workers pl') = length (workers (origPool s)) ->
  count_done (workers pl')
  = (count_done (workers (origPool s)) + (if b then 1 else 0))%nat ->
  sys_inv flags {| main_at := main_at s;
                   wg := if (b : bool) then wg s - 1 else wg s;
                   revWg := revWg s; origPool := pl'; revPool := revPool s |}.
Proof.
  intros [Hwg Hpc] Hlen Hcnt. sys_simpl.
  split; [destruct b; lia|].
  destruct (main_at s) as [p| | |p| | |]; unfold len in *.
  1: { destruct Hpc as (? & ? & ?). split; [done|]. split; [lia|done]. }
  1: { destruct Hpc as (? & ?). split; [lia|done]. }
  all: destruct Hpc as [Hl Hall]; unfold all_returned, len in *; split; [lia|];
       apply count_done_full;
       pose proof (count_done_all _ Hall) as Hfull;
       assert ((count_done (workers pl') <= length (workers pl'))%nat)
         by (unfold count_done; apply length_filter);
       destruct b; lia.
Qed.

Lemma sys_step_inv flags env dispatch inp a s w s' w' :
  sys_inv flags s ->
  sys_step flags env dispatch inp a s w = Ret s' w' ->
  sys_inv flags s'.
Proof.
  intros Hinv Hstep. unfold sys_step in Hstep.
  destruct (exited (main_at s)); [by injection Hstep as <- <-|].
  destruct a as [|pid now|pid now|].
  - by eapply main_step_inv.
  - (* an original worker *)
    unfold bind in Hstep.
    destruct (worker_turn dispatch env 0 pid now (origPool s) w)
      as [[b pl'] w1| | |] eqn:Hturn; try discriminate.
    injection Hstep as <- <-. cbn [fst snd].
    destruct (worker_turn_count _ _ _ _ _ _ _ _ _ _ Hturn) as [Hlen Hcnt].
    by apply orig_turn_inv.
  - (* a reverse worker: the original pool is not touched *)
    destruct (revPool s) as [pl|] eqn:Hrev; [|by injection Hstep as <- <-].
    unfold bind in Hstep.
    destruct (worker_turn dispatch env 1 pid now pl w) as [r w1| | |];
      try discriminate.
    injection Hstep as <- <-.
    apply (sys_inv_same_pool flags s); try done.
    rewrite Hrev. discriminate.
  - (* an interrupt closes channels; no worker state changes *)
    injection Hstep as <- <-.
    apply (sys_inv_same_pool flags s); try done.
    + cbn [origPool]. by destruct (orig_handler_installed (main_at s)).
    + cbn [revPool]. intros ->. by destruct (rev_handler_installed (main_at s)).
Qed.

Lemma sys_run_inv flags env dispatch inp acts : forall s w s' w',
  sys_inv flags s ->
  sys_run flags env dispatch inp acts s w = Ret s' w' ->
  sys_inv flags s'.
Proof.
  induction acts as [|a rest IH]; intros s w s' w' Hinv Hrun.
  - injection Hrun as <- <-. done.
  - simpl in Hrun. unfold bind in Hrun.
    destruct (sys_step flags env dispatch inp a s w) as [s1 w1| | |] eqn:Hstep;
      try discriminate.
    eapply IH; [|exact Hrun]. by eapply sys_step_inv.
Qed.

Lemma sys_inv_barrier flags s :
  sys_inv flags s -> is_Some (revPool s) -> orig_workers_returned flags s.
Proof.
  intros [_ Hpc] [pl Hrev].
  destruct (main_at s); try done.
  - destruct Hpc as (_ & _ & ?). congruence.
  - destruct Hpc as (_ & ?). congruence.
Qed.

(** C9: in every run of the process, under every interleaving of the
    main goroutine, the workers and interrupts, the reverse pool exists
    only when every original-pool worker goroutine has returned: its
    context is constructed, and its workers are started, only after the
    main goroutine has passed [wg.Wait()], which it passes only when all
    [-procs] original workers have run their deferred [wg.Done()].  So
    every turn of a reverse worker that does anything, its first dispatch
    included, comes after the return of all original workers. *)
Theorem reverse_pool_starts_after_original_pool_returned
    (flags : FlagSet) (env : Env) (dispatch : dispatcher) (inp : MainInput)
    (w0 : World) (s0 : Sys) (w1 : World) (acts : list action)
    (s : Sys) (w : World) :
  main_start flags inp w0 = Ret (Some s0) w1 ->
  sys_run flags env dispatch inp acts s0 w1 = Ret s w ->
  (is_Some (revPool s) -> orig_workers_returned flags s)
  /\ (forall pid now s' w',
        sys_step flags env dispatch inp (ActRev pid now) s w = Ret s' w' ->
        (s', w') <> (s, w) ->
        orig_workers_returned flags s).
Proof.
  intros Hstart Hrun.
  assert (Hinv : sys_inv flags s).
  { eapply sys_run_inv; [|exact Hrun]. by eapply main_start_inv. }
  split; [by apply sys_inv_barrier|].
  intros pid now s' w' Hstep Hchg.
  destruct (revPool s) as [pl|] eqn:Hrev.
  - apply sys_inv_barrier; [done|]. by rewrite Hrev.
  - exfalso. apply Hchg. unfold sys_step in Hstep. rewrite Hrev in Hstep.
    destruct (exited (main_at s)); by injection Hstep as <- <-.
Qed.

(** A dual-mode run with one worker per pool: when the reverse worker is
    about to make its first dispatch, the original worker has returned. *)
Lemma reverse_pool_starts_after_original_pool_returned_witness :
  match main_start dual_flags dual_input initial_world with
  | Ret (Some s0) w1 =>
      match sys_run dual_flags plain_env quiet_dispatch dual_input
              dual_actions s0 w1 with
      | Ret s w =>
          is_Some (revPool s) /\
          orig_workers_returned dual_flags s /\
          match sys_step dual_flags plain_env quiet_dispatch dual_input
                  (ActRev 0 5) s w with
          | Ret s' w' =>
              dispatches (trace w') = app (dispatches (trace w)) [(0, 0)]
          | _ => False
          end
      | _ => False
      end
  | _ => False
  end.
Proof.
  pose proof (reverse_pool_starts_after_original_pool_returned dual_flags
                plain_env quiet_dispatch dual_input initial_world) as H.
  destruct (main_start dual_flags dual_input initial_world)
    as [[s0|] w1| | |] eqn:Hstart; try (vm_compute in Hstart; discriminate).
  specialize (H s0 w1 dual_actions).
  pose proof Hstart as Hs. vm_compute in Hs. injection Hs as <- <-.
  destruct (sys_run dual_flags plain_env quiet_dispatch dual_input dual_actions _ _)
    as [s w| | |] eqn:Hrun; try (vm_compute in Hrun; discriminate).
  destruct (H s w eq_refl eq_refl) as [Hbarrier _].
  pose proof Hrun as Hr. vm_compute in Hr. injection Hr as <- <-.
  split; [by eexists|]. split; [apply Hbarrier; by eexists|].
  vm_compute. reflexivity.
Defined.

(* ================================================================== *)
(** * Further properties of the program *)

(** ** Execution configuration *)

Lemma testbit_flag b i : N.testbit (flag b) i = (i =? b)%N.
Proof.
  unfold flag. rewrite N.shiftl_1_l. rewrite N.pow2_bits_eqb.
  apply N.eqb_sym.
Qed.

Lemma has_flag_testbit x b : has_flag x (flag b) = N.testbit x b.
Proof.
  unfold has_flag. destruct (N.testbit x b) eqn:Hb.
  - apply negb_true_iff, N.eqb_neq. intros H0.
    assert (Hbit : N.testbit (N.land x (flag b)) b = true).
    { rewrite N.land_spec, Hb, testbit_flag, N.eqb_refl. reflexivity. }
    rewrite H0 in Hbit. by rewrite N.bits_0 in Hbit.
  - apply negb_false_iff, N.eqb_eq. apply N.bits_inj. intros i.
    rewrite N.land_spec, testbit_flag, N.bits_0.
    destruct (N.eqb_spec i b) as [->|]; [by rewrite Hb|apply andb_false_r].
Qed.

Lemma testbit_set_flag x b i :
  N.testbit (set_flag x (flag b)) i = N.testbit x i || (i =? b)%N.
Proof. unfold set_flag. by rewrite N.lor_spec, testbit_flag. Qed.

Lemma testbit_clear_flag x b i :
  N.testbit (clear_flag x (flag b)) i = N.testbit x i && negb (i =? b)%N.
Proof. unfold clear_flag. by rewrite N.ldiff_spec, testbit_flag. Qed.

Lemma testbit_toggle_flag x b i :
  N.testbit (toggle_flag x (flag b)) i = xorb (N.testbit x i) (i =? b)%N.
Proof. unfold toggle_flag. by rewrite N.lxor_spec, testbit_flag. Qed.

Lemma testbit_cond_set (c : bool) x b i :
  N.testbit (if c then set_flag x (flag b) else x) i
  = N.testbit x i || (c && (i =? b)%N).
Proof.
  destruct c; [apply testbit_set_flag|]. by rewrite orb_false_r.
Qed.

(** The flags [createConfig] returns, as functions of its input. *)
Lemma createConfig_flags bits flags inp config execOpts w :
  ipc_Default inp = inl (config, execOpts) ->
  exists config' execOpts',
    createConfig bits flags inp w = Ret (config', execOpts') w /\
    (forall i, N.testbit config i = true -> N.testbit config' i = true) /\
    (negb (String.eqb (flagCoverFile flags) "") = true ->
     N.testbit config' (bitSignal bits) = true) /\
    execOpts'
    = let e1 := if has_flag config (flag (bitSignal bits))
                then set_flag execOpts (flag (bitCollectCover bits))
                else execOpts in
      let e2 := if negb (String.eqb (flagCoverFile flags) "")
                then clear_flag (set_flag e1 (flag (bitCollectCover bits)))
                       (flag (bitDedupCover bits))
                else e1 in
      if flagHints flags
      then set_flag (if has_flag e2 (flag (bitCollectCover bits))
                     then toggle_flag e2 (flag (bitCollectCover bits)) else e2)
             (flag (bitCollectComps bits))
      else e2.
Proof.
  intros Hdef. unfold createConfig. rewrite Hdef.
  destruct (negb (String.eqb (flagCoverFile flags) "")) eqn:Hcov; cbv zeta.
  - eexists _, _. split; [reflexivity|]. split; [|split; [|reflexivity]].
    + intros i Hi. rewrite !testbit_cond_set, testbit_set_flag, Hi. reflexivity.
    + intros _. rewrite !testbit_cond_set, testbit_set_flag, N.eqb_refl.
      by rewrite orb_true_r.
  - eexists _, _. split; [reflexivity|]. split; [|split; [|reflexivity]].
    + intros i Hi. rewrite !testbit_cond_set, Hi. reflexivity.
    + discriminate.
Qed.

(** X1: a hints run never collects coverage: whatever the defaults, and
    with [-coverfile] given or not, [createConfig] returns execution flags
    in which [FlagCollectCover] is clear and [FlagCollectComps] is set. *)
Theorem createConfig_hints_drop_cover
    (bits : IpcBits) (flags : FlagSet) (inp : ConfigInput)
    (config execOpts : N) (w : World) :
  ipc_Default inp = inl (config, execOpts) ->
  flagHints flags = true ->
  bitCollectComps bits <> bitCollectCover bits ->
  exists config' execOpts',
    createConfig bits flags inp w = Ret (config', execOpts') w /\
    N.testbit execOpts' (bitCollectCover bits) = false /\
    N.testbit execOpts' (bitCollectComps bits) = true.
Proof.
  intros Hdef Hhints Hne.
  destruct (createConfig_flags bits flags inp config execOpts w Hdef)
    as (c' & e' & Hrun & _ & _ & ->).
  exists c'. eexists. split; [exact Hrun|]. cbv zeta. rewrite Hhints.
  set (e2 := if negb _ then _ else _).
  rewrite !testbit_set_flag, N.eqb_refl, orb_true_r. split; [|reflexivity].
  apply N.eqb_neq in Hne. rewrite N.eqb_sym in Hne. rewrite Hne, orb_false_r.
  rewrite has_flag_testbit.
  destruct (N.testbit e2 (bitCollectCover bits)) eqn:Hb; [|exact Hb].
  by rewrite testbit_toggle_flag, Hb, N.eqb_refl.
Qed.

Lemma createConfig_hints_drop_cover_witness :
  exists config' execOpts',
    createConfig example_bits (hints_flags "cov" true) example_config_input
      initial_world = Ret (config', execOpts') initial_world /\
    N.testbit execOpts' 0 = false /\
    N.testbit execOpts' 2 = true.
Proof.
  apply (createConfig_hints_drop_cover example_bits (hints_flags "cov" true)
           example_config_input 0%N 2%N initial_world).
  - reflexivity.
  - reflexivity.
  - discriminate.
Defined.

(** X2: without [-hints], [createConfig] turns coverage collection on
    when the default configuration collects signal or a cover file is
    given, keeps cover deduplication only when no cover file is given,
    and with a cover file makes the configuration collect signal. *)
Theorem createConfig_cover_flags
    (bits : IpcBits) (flags : FlagSet) (inp : ConfigInput)
    (config execOpts : N) (w : World) :
  ipc_Default inp = inl (config, execOpts) ->
  flagHints flags = false ->
  bitDedupCover bits <> bitCollectCover bits ->
  let coverFile := negb (String.eqb (flagCoverFile flags) "") in
  exists config' execOpts',
    createConfig bits flags inp w = Ret (config', execOpts') w /\
    N.testbit execOpts' (bitCollectCover bits)
    = N.testbit execOpts (bitCollectCover bits)
      || N.testbit config (bitSignal bits) || coverFile /\
    N.testbit execOpts' (bitDedupCover bits)
    = N.testbit execOpts (bitDedupCover bits) && negb coverFile /\
    (coverFile = true -> N.testbit config' (bitSignal bits) = true).
Proof.
  intros Hdef Hhints Hne coverFile.
  destruct (createConfig_flags bits flags inp config execOpts w Hdef)
    as (c' & e' & Hrun & _ & Hsig & ->).
  exists c'. eexists. split; [exact Hrun|]. cbv zeta. rewrite Hhints.
  fold coverFile. rewrite has_flag_testbit.
  pose proof Hne as Hne'. apply N.eqb_neq in Hne'.
  assert (Hne2 : (bitCollectCover bits =? bitDedupCover bits)%N = false)
    by (rewrite N.eqb_sym; exact Hne').
  split; [|split; [|exact Hsig]].
  - destruct coverFile, (N.testbit config (bitSignal bits));
      rewrite ?testbit_clear_flag, ?testbit_set_flag, ?N.eqb_refl, ?Hne2;
      cbn [negb andb orb]; rewrite ?orb_true_r, ?orb_false_r, ?andb_true_r;
      reflexivity.
  - destruct coverFile, (N.testbit config (bitSignal bits));
      rewrite ?testbit_clear_flag, ?testbit_set_flag, ?N.eqb_refl, ?Hne';
      cbn [negb andb orb]; rewrite ?orb_true_r, ?orb_false_r, ?andb_true_r,
        ?andb_false_r; reflexivity.
Qed.

Lemma createConfig_cover_flags_witness :
  exists config' execOpts',
    createConfig example_bits (hints_flags "cov" false) example_config_input
      initial_world = Ret (config', execOpts') initial_world /\
    N.testbit execOpts' 0 = N.testbit 2 0 || N.testbit 0 1 || true /\
    N.testbit execOpts' 1 = N.testbit 2 1 && negb true /\
    (true = true -> N.testbit config' 1 = true).
Proof.
  apply (createConfig_cover_flags example_bits (hints_flags "cov" false)
           example_config_input 0%N 2%N initial_world).
  - reflexivity.
  - reflexivity.
  - discriminate.
Defined.

(** X3: [createConfig] never clears a configuration flag of the
    defaults, changes no execution flag other than [FlagCollectCover],
    [FlagDedupCover] and [FlagCollectComps], and leaves the process state
    alone; when [ipcconfig.Default] fails it ends the process with the
    text of that error. *)
Theorem createConfig_keeps_other_flags
    (bits : IpcBits) (flags : FlagSet) (inp : ConfigInput) (w : World) :
  match ipc_Default inp with
  | inr err => createConfig bits flags inp w
               = Fatal (error_text err) (add_events w [EvLog 0 (error_text err)])
  | inl (config, execOpts) =>
      exists config' execOpts',
        createConfig bits flags inp w = Ret (config', execOpts') w /\
        (forall i, N.testbit config i = true -> N.testbit config' i = true) /\
        (forall i, i <> bitCollectCover bits -> i <> bitDedupCover bits ->
                   i <> bitCollectComps bits ->
                   N.testbit execOpts' i = N.testbit execOpts i)
  end.
Proof.
  destruct (ipc_Default inp) as [[config execOpts]|err] eqn:Hdef.
  - destruct (createConfig_flags bits flags inp config execOpts w Hdef)
      as (c' & e' & Hrun & Hmono & _ & ->).
    exists c'. eexists. split; [exact Hrun|]. split; [exact Hmono|].
    intros i H1 H2 H3. cbv zeta.
    apply N.eqb_neq in H1, H2, H3.
    destruct (flagHints flags), (negb (String.eqb (flagCoverFile flags) "")),
      (has_flag config (flag (bitSignal bits)));
      repeat match goal with
             | |- context [if has_flag ?x ?f then _ else _] =>
                 destruct (has_flag x f)
             end;
      rewrite ?testbit_set_flag, ?testbit_toggle_flag, ?testbit_clear_flag,
        ?testbit_set_flag, ?H1, ?H2, ?H3;
      cbn [negb andb orb xorb];
      rewrite ?orb_false_r, ?andb_true_r, ?xorb_false_r; reflexivity.
  - unfold createConfig. rewrite Hdef. reflexivity.
Qed.

(** ** The file lists of [main] *)

Lemma string_app_cons c (a b : string) : String c a ++ b = String c (a ++ b).
Proof. reflexivity. Qed.

Lemma string_app_nil_l (b : string) : "" ++ b = b.
Proof. reflexivity. Qed.

Lemma string_app_nil_r (s : string) : s ++ "" = s.
Proof.
  induction s as [|c s IH]; [done|]. by rewrite string_app_cons, IH.
Qed.

Lemma string_app_assoc (a b c : string) : (a ++ b) ++ c = a ++ (b ++ c).
Proof.
  induction a as [|x a IH]; [done|]. by rewrite !string_app_cons, IH.
Qed.

Lemma string_length_app (a b : string) :
  String.length (a ++ b) = (String.length a + String.length b)%nat.
Proof.
  induction a as [|x a IH]; [done|]. rewrite string_app_cons. simpl.
  by rewrite IH.
Qed.

Lemma string_app_inv_head (a x y : string) : a ++ x = a ++ y -> x = y.
Proof.
  induction a as [|c a IH]; [done|]. rewrite !string_app_cons.
  intros [= H]. auto.
Qed.

Lemma HasSuffix_eq s t :
  HasSuffix s t
  = if String.eqb s t then true
    else match s with
         | EmptyString => false
         | String _ s' => HasSuffix s' t
         end.
Proof. by destruct s. Qed.

Lemma HasSuffix_split s t : HasSuffix s t = true -> exists a, s = a ++ t.
Proof.
  induction s as [|c s IH]; rewrite HasSuffix_eq.
  - destruct (String.eqb_spec "" t) as [<-|Hne]; intros H;
      [by exists ""|discriminate H].
  - destruct (String.eqb_spec (String c s) t) as [<-|_].
    + by exists "".
    + intros H. destruct (IH H) as [a ->]. by exists (String c a).
Qed.

Lemma HasSuffix_app a t : HasSuffix (a ++ t) t = true.
Proof.
  induction a as [|c a IH]; rewrite HasSuffix_eq.
  - rewrite string_app_nil_l. by rewrite String.eqb_refl.
  - rewrite string_app_cons, IH. by destruct (_ =? _)%string.
Qed.

Lemma substring_app_head a t :
  String.substring 0 (String.length a) (a ++ t) = a.
Proof.
  induction a as [|c a IH].
  - rewrite string_app_nil_l. by destruct t.
  - rewrite string_app_cons. simpl. by rewrite IH.
Qed.

Lemma prefix_length t s :
  String.prefix t s = true -> (String.length t <= String.length s)%nat.
Proof.
  revert s. induction t as [|c t IH]; intros s H; simpl; [lia|].
  destruct s as [|d s]; simpl in H; [discriminate|].
  destruct (ascii_dec c d); [|discriminate].
  specialize (IH s H). simpl. lia.
Qed.

Lemma prefix_refl t : String.prefix t t = true.
Proof.
  induction t as [|c t IH]; simpl; [done|].
  by destruct (ascii_dec c c).
Qed.

Lemma LastIndex_from_cons c s t i :
  LastIndex_from (String c s) t i
  = if 0 <=? LastIndex_from s t (i + 1) then LastIndex_from s t (i + 1)
    else if String.prefix t (String c s) then i else -1.
Proof. reflexivity. Qed.

Lemma LastIndex_from_short s t i :
  (String.length s < String.length t)%nat -> LastIndex_from s t i = -1.
Proof.
  revert i. induction s as [|c s IH]; intros i Hlen.
  - destruct t; [simpl in Hlen; lia|reflexivity].
  - rewrite LastIndex_from_cons, IH by (simpl in Hlen; lia).
    destruct (String.prefix t (String c s)) eqn:Hp; [|reflexivity].
    apply prefix_length in Hp. lia.
Qed.

Lemma LastIndex_from_suffix a t i :
  t <> "" -> 0 <= i ->
  LastIndex_from (a ++ t) t i = i + Z.of_nat (String.length a).
Proof.
  intros Ht. revert i. induction a as [|c a IH]; intros i Hi.
  - rewrite string_app_nil_l. destruct t as [|d t]; [done|].
    rewrite LastIndex_from_cons, LastIndex_from_short by (simpl; lia).
    rewrite prefix_refl. simpl. lia.
  - rewrite string_app_cons, LastIndex_from_cons, IH by lia.
    destruct (Z.leb_spec 0 (i + 1 + Z.of_nat (String.length a))); simpl; lia.
Qed.

(** On a name with the suffix, [LastIndex] finds the suffix itself, and
    the slice up to it is the name without the suffix. *)
Lemma slice_to_LastIndex_suffix a t :
  t <> "" -> slice_to (a ++ t) (LastIndex (a ++ t) t) = Some a.
Proof.
  intros Ht. unfold LastIndex. rewrite LastIndex_from_suffix by done.
  unfold slice_to. rewrite string_length_app, Z.add_0_l.
  destruct (Z.ltb_spec (Z.of_nat (String.length a)) 0); [lia|].
  destruct (Z.ltb_spec (Z.of_nat (String.length a + String.length t))
              (Z.of_nat (String.length a))); [lia|].
  simpl. rewrite Nat2Z.id. by rewrite substring_app_head.
Qed.

(** The directory loop in semantic mode: it never panics, and every
    reverse name it adds is the original name it adds followed by
    [.rev]. *)
Lemma add_dir_entries_semantic flags fs files : forall acc w,
  flagSemantic flags = true ->
  exists origs,
    add_dir_entries flags fs acc files w
    = Ret {| fileNameList := app (fileNameList acc) origs;
             filePathList :=
               app (filePathList acc)
                   (map (filepath_Join fs (flagProgDir flags)) origs);
             reverseFileNameList :=
               app (reverseFileNameList acc) (map (fun o => o ++ ".rev") origs);
             reverseFilePathList :=
               app (reverseFilePathList acc)
                   (map (fun o => filepath_Join fs (flagProgDir flags)
                                    (o ++ ".rev")) origs) |} w /\
    map (fun o => o ++ ".rev") origs
    = filter (fun n => HasSuffix n ".rev" = true)
             (map Name (filter (fun f => IsDir f = false) files)).
Proof.
  induction files as [|file rest IH]; intros acc w Hsem.
  - exists []. split; [|reflexivity]. simpl. rewrite !app_nil_r.
    by destruct acc.
  - simpl add_dir_entries. unfold bind, add_dir_entry. rewrite Hsem.
    destruct (IsDir file) eqn:Hdir.
    + destruct (IH acc w Hsem) as (origs & Hrun & Hrev).
      exists origs. split; [exact Hrun|].
      rewrite filter_cons_False by (rewrite Hdir; discriminate). exact Hrev.
    + rewrite (filter_cons_True _ file) by exact Hdir. simpl map.
      destruct (HasSuffix (Name file) ".rev") eqn:Hsuf.
      * destruct (HasSuffix_split _ _ Hsuf) as [a Ha]. rewrite Ha.
        rewrite slice_to_LastIndex_suffix by discriminate.
        destruct (IH {| fileNameList := app (fileNameList acc) [a];
                        filePathList :=
                          app (filePathList acc)
                              [filepath_Join fs (flagProgDir flags) a];
                        reverseFileNameList :=
                          app (reverseFileNameList acc) [a ++ ".rev"];
                        reverseFilePathList :=
                          app (reverseFilePathList acc)
                              [filepath_Join fs (flagProgDir flags) (a ++ ".rev")] |}
                    w Hsem) as (origs & Hrun & Hrev).
        exists (a :: origs). split.
        -- unfold ret. rewrite Hrun. cbn [fileNameList filePathList
             reverseFileNameList reverseFilePathList].
           by rewrite <- !app_assoc.
        -- rewrite filter_cons_True by (rewrite <- Ha; exact Hsuf).
           simpl. by rewrite Hrev.
      * destruct (IH acc w Hsem) as (origs & Hrun & Hrev).
        exists origs. split; [exact Hrun|].
        rewrite filter_cons_False by (rewrite Hsuf; discriminate). exact Hrev.
Qed.

(** X4: in directory mode with [-semantic], [main] pairs the files up:
    the reverse names are the names of the directory's files (not its
    sub-directories) that end in [.rev], in directory order; the i-th
    original name is the i-th reverse name without its [.rev], so the four
    lists have the same length and line up; the paths are the names joined
    to the directory.  The slice of the name never goes out of range. *)
Theorem build_file_lists_progdir_pairs
    (flags : FlagSet) (fs : Paths) (args : list string)
    (files : list DirEntry) (w : World) :
  flagProgDir flags <> "" ->
  flagSemantic flags = true ->
  os_ReadDir fs (flagProgDir flags) = inl files ->
  exists origs,
    build_file_lists flags fs args w
    = Ret {| fileNameList := origs;
             filePathList := map (filepath_Join fs (flagProgDir flags)) origs;
             reverseFileNameList := map (fun o => o ++ ".rev") origs;
             reverseFilePathList :=
               map (fun o => filepath_Join fs (flagProgDir flags) (o ++ ".rev"))
                   origs |} w /\
    map (fun o => o ++ ".rev") origs
    = filter (fun n => HasSuffix n ".rev" = true)
             (map Name (filter (fun f => IsDir f = false) files)).
Proof.
  intros Hdir Hsem Hread. unfold build_file_lists.
  destruct (String.eqb_spec (flagProgDir flags) "") as [E|_]; [done|].
  simpl negb. cbv iota. rewrite Hread.
  destruct (add_dir_entries_semantic flags fs files no_files w Hsem)
    as (origs & Hrun & Hrev).
  exists origs. split; [exact Hrun|exact Hrev].
Qed.

Lemma build_file_lists_progdir_pairs_witness :
  exists origs,
    build_file_lists (progdir_flags true) example_paths [] initial_world
    = Ret {| fileNameList := origs;
             filePathList := map (filepath_Join example_paths "progs") origs;
             reverseFileNameList := map (fun o => o ++ ".rev") origs;
             reverseFilePathList :=
               map (fun o => filepath_Join example_paths "progs" (o ++ ".rev"))
                   origs |} initial_world /\
    map (fun o => o ++ ".rev") origs = ["open.rev"; "read.rev"].
Proof.
  apply (build_file_lists_progdir_pairs (progdir_flags true) example_paths []
           [ {| Name := "open"; IsDir := false |};
             {| Name := "open.rev"; IsDir := false |};
             {| Name := "old.rev"; IsDir := true |};
             {| Name := "read.rev"; IsDir := false |} ] initial_world).
  - discriminate.
  - reflexivity.
  - reflexivity.
Defined.

Lemma foldl_add_arg flags fs args : forall acc,
  foldl (add_arg flags fs) acc args
  = {| fileNameList := app (fileNameList acc) (map (filepath_Base fs) args);
       filePathList := app (filePathList acc) args;
       reverseFileNameList :=
         app (reverseFileNameList acc)
             (if flagSemantic flags
              then map (fun p => filepath_Base fs (p ++ ".rev")) args else []);
       reverseFilePathList :=
         app (reverseFilePathList acc)
             (if flagSemantic flags then map (fun p => p ++ ".rev") args
              else []) |}.
Proof.
  induction args as [|a rest IH]; intros acc.
  - simpl. destruct (flagSemantic flags); rewrite !app_nil_r; by destruct acc.
  - simpl foldl. rewrite IH. unfold add_arg.
    destruct (flagSemantic flags); cbn [fileNameList filePathList
      reverseFileNameList reverseFilePathList map];
      rewrite <- ?app_assoc; reflexivity.
Qed.

(** X5: without [-progdir], [main] takes the positional arguments as the
    original paths, in order, with their base names as names; with
    [-semantic] the i-th reverse path is the i-th path followed by [.rev]
    and the reverse name is its base name, and without it both reverse
    lists are empty. *)
Theorem build_file_lists_from_arguments
    (flags : FlagSet) (fs : Paths) (args : list string) (w : World) :
  flagProgDir flags = "" ->
  build_file_lists flags fs args w
  = Ret {| fileNameList := map (filepath_Base fs) args;
           filePathList := args;
           reverseFileNameList :=
             if flagSemantic flags
             then map (fun p => filepath_Base fs (p ++ ".rev")) args else [];
           reverseFilePathList :=
             if flagSemantic flags then map (fun p => p ++ ".rev") args
             else [] |} w.
Proof.
  intros Hdir. unfold build_file_lists. rewrite Hdir. simpl negb. cbv iota.
  by rewrite foldl_add_arg.
Qed.

Lemma build_file_lists_from_arguments_witness :
  build_file_lists (cmdline_flags true) example_paths ["a/open"; "read"]
    initial_world
  = Ret {| fileNameList := ["a/open"; "read"];
           filePathList := ["a/open"; "read"];
           reverseFileNameList := ["a/open.rev"; "read.rev"];
           reverseFilePathList := ["a/open.rev"; "read.rev"] |} initial_world.
Proof.
  exact (build_file_lists_from_arguments (cmdline_flags true) example_paths
           ["a/open"; "read"] initial_world eq_refl).
Defined.

(** ** The report writer under failing writes *)

Lemma WriteString_cases env fileName n line w :
  WriteString env fileName n line w
  = if WriteString_ok env fileName n
    then Ret None (add_events w [EvWriteString fileName line])
    else Ret (Some (ErrOther ("write " ++ fileName))) w.
Proof. unfold WriteString. by destruct (WriteString_ok env fileName n). Qed.

(** The row loop always returns; it reports an error exactly when one of
    its writes fails, and until then it has written rows only. *)
Lemma saveRows_returns env fileName rows : forall c n w,
  exists err c' n' evs,
    saveRows env fileName rows c n w = Ret (err, c', n') (add_events w evs) /\
    Forall (is_report_write fileName) evs /\
    (err = None <->
     forall i, (i < length rows)%nat -> WriteString_ok env fileName (n + i) = true) /\
    (err = None -> n' = (n + length rows)%nat).
Proof.
  induction rows as [|[key value] rest IH]; intros c n w.
  - exists None, c, n, []. split; [simpl; unfold ret; by rewrite add_events_nil|].
    split; [constructor|]. split; [|intros _; simpl; lia].
    split; [intros _ i Hi; simpl in Hi; lia|done].
  - simpl saveRows. unfold bind at 1. rewrite WriteString_cases.
    destruct (WriteString_ok env fileName n) eqn:Hn.
    + destruct (IH (count_row c value) (S n)
                  (add_events w [EvWriteString fileName (row_line key value)]))
        as (err & c' & n' & evs & Hrun & Hev & Herr & Hcnt).
      exists err, c', n', (EvWriteString fileName (row_line key value) :: evs).
      split; [rewrite Hrun; by rewrite add_events_app|].
      split; [constructor; [by eexists|done]|].
      split.
      * rewrite Herr. split.
        -- intros H [|i] Hi; [by rewrite Nat.add_0_r|].
           replace (n + S i)%nat with (S n + i)%nat by lia.
           apply H. simpl in Hi. lia.
        -- intros H i Hi. replace (S n + i)%nat with (n + S i)%nat by lia.
           apply H. simpl. lia.
      * intros E. rewrite (Hcnt E). simpl. lia.
    + exists (Some (ErrOther ("write " ++ fileName))), (count_row c value), n, [].
      split; [unfold ret; by rewrite add_events_nil|].
      split; [constructor|]. split; [|discriminate].
      split; [discriminate|].
      intros H. specialize (H 0%nat). rewrite Nat.add_0_r, Hn in H.
      simpl in H. discriminate H. lia.
Qed.

(** X6: [saveToFile] never ends the process and never touches the
    record map or the failure counter.  When the file cannot be created
    nothing is written; once it is created, only the report's lines are
    written to it and it is closed on every path.  The writer returns
    [nil] exactly when the creation and each of its writes (the header,
    one per entry, the summary) succeed. *)
Theorem saveToFile_always_returns_and_closes
    (env : Env) (fileName : string) (w : World) :
  exists err w',
    saveToFile env fileName w = Ret err w' /\
    coverRecord w' = coverRecord w /\
    execFailCnt w' = execFailCnt w /\
    (if Create_ok env fileName
     then exists evs,
            trace w' = app (trace w)
                           (app [EvCreate fileName] (app evs [EvClose fileName])) /\
            Forall (is_report_write fileName) evs
     else w' = w) /\
    (err = None <->
     Create_ok env fileName = true /\
     forall i, (i < length (range_records env (coverRecord w)) + 2)%nat ->
               WriteString_ok env fileName i = true).
Proof.
  unfold saveToFile.
  destruct (Create_ok env fileName) eqn:Hc; cbn [negb].
  2: { eexists _, w. split; [reflexivity|]. split; [done|]. split; [done|].
       split; [done|]. split; [discriminate|]. intros [? _]. discriminate. }
  unfold bind at 1. rewrite emit_add. unfold defer, bind at 1.
  rewrite WriteString_cases.
  destruct (WriteString_ok env fileName 0) eqn:H0.
  - cbn [coverRecord execFailCnt add_events].
    destruct (saveRows_returns env fileName (range_records env (coverRecord w))
                zero_counters 1
                (add_events (add_events w [EvCreate fileName])
                   [EvWriteString fileName header_line]))
      as (err & c & n & evs & Hrows & Hev & Herr & Hn).
    unfold bind at 1. rewrite Hrows.
    destruct err as [e|].
    + unfold ret, bind. rewrite emit_add.
      eexists _, _. split; [reflexivity|]. split; [done|]. split; [done|].
      split.
      * exists (EvWriteString fileName header_line :: evs).
        split; [cbn [trace add_events]; by rewrite <- !app_assoc|].
        constructor; [by eexists|done].
      * split; [discriminate|]. intros [_ H].
        assert (Hnone : Some e = None); [|discriminate].
        apply Herr. intros i Hi. apply H. lia.
    + rewrite WriteString_cases. rewrite (Hn eq_refl).
      destruct (WriteString_ok env fileName
                  (1 + length (range_records env (coverRecord w)))) eqn:Hs.
      * unfold bind, ret. rewrite emit_add.
        eexists _, _. split; [reflexivity|]. split; [done|]. split; [done|].
        split.
        -- exists (EvWriteString fileName header_line
                     :: app evs [EvWriteString fileName
                                   (summary_block c (execFailCnt w))]).
           split; [cbn [trace add_events]; rewrite <- ?app_assoc; simpl;
                   rewrite <- ?app_assoc; reflexivity|].
           constructor; [by eexists|]. apply Forall_app. split; [done|].
           constructor; [by eexists|constructor].
        -- split; [|done]. intros _. split; [done|].
           intros i Hi. destruct i as [|i]; [done|].
           destruct (decide (i < length (range_records env (coverRecord w)))%nat)
             as [Hlt|Hge].
           ++ apply (proj1 Herr eq_refl i Hlt).
           ++ replace (S i) with (1 + length (range_records env (coverRecord w)))%nat
                by lia. exact Hs.
      * unfold bind, ret. rewrite emit_add.
        eexists _, _. split; [reflexivity|]. split; [done|]. split; [done|].
        split.
        -- exists (EvWriteString fileName header_line :: evs).
           split; [cbn [trace add_events]; by rewrite <- !app_assoc|].
           constructor; [by eexists|done].
        -- split; [discriminate|]. intros [_ H].
           rewrite H in Hs by lia. discriminate.
  - unfold ret, bind. rewrite emit_add.
    eexists _, _. split; [reflexivity|]. split; [done|]. split; [done|].
    split.
    + exists []. split; [cbn [trace add_events]; by rewrite <- app_assoc
                        |constructor].
    + split; [discriminate|]. intros [_ H]. rewrite H in H0 by lia.
      discriminate.
Qed.

Lemma count_row_consistent c value :
  counters_consistent c ->
  counters_consistent (count_row c value) /\
  totalProgCnt (count_row c value) = totalProgCnt c + 1.
Proof.
  destruct value as [[cov0 cov1] l]. unfold counters_consistent, count_row.
  intros (H1 & H2 & H3 & H4 & H5).
  destruct (cov0 >? cov1), (cov0 =? cov1), (l =? 1);
    unfold inc_totalProg, inc_totalWin, inc_totalEqual, inc_totalLose,
           inc_oneLineProg, inc_oneLineWin, inc_oneLineEqual, inc_oneLineLose;
    cbn [totalProgCnt totalWinCnt totalEqualCnt totalLoseCnt oneLineProgCnt
         oneLineWinCnt oneLineEqualCnt oneLineLoseCnt]; lia.
Qed.

Lemma saveRows_consistent env fileName rows : forall c n w,
  counters_consistent c ->
  exists err c' n' w',
    saveRows env fileName rows c n w = Ret (err, c', n') w' /\
    counters_consistent c' /\
    totalProgCnt c <= totalProgCnt c' <= totalProgCnt c + len rows /\
    (err = None -> totalProgCnt c' = totalProgCnt c + len rows).
Proof.
  induction rows as [|[key value] rest IH]; intros c n w Hc.
  - exists None, c, n, w. split; [reflexivity|]. split; [done|].
    unfold len. simpl. lia.
  - destruct (count_row_consistent c value Hc) as [Hc' Ht].
    simpl saveRows. unfold bind at 1. rewrite WriteString_cases.
    assert (Hlen : len ((key, value) :: rest) = 1 + len rest)
      by (unfold len; simpl length; lia).
    destruct (WriteString_ok env fileName n).
    + destruct (IH (count_row c value) (S n)
                  (add_events w [EvWriteString fileName (row_line key value)]) Hc')
        as (err & c' & n' & w' & Hrun & Hcc & Hb & He).
      exists err, c', n', w'. split; [exact Hrun|]. split; [done|].
      split; [lia|]. intros E. specialize (He E). lia.
    + eexists _, _, _, _. split; [reflexivity|]. split; [done|].
      pose proof (Nat2Z.is_nonneg (length rest)). unfold len in *.
      split; [lia|discriminate].
Qed.

(** X7: whatever the entries and whichever write fails, the counters of
    the report loop fit together: total = wins + equals + loses, one-line
    programs = one-line wins + equals + loses, each one-line counter lies
    between 0 and its total counter, and the total counts the entries
    processed, all of them when no write fails. *)
Theorem saveRows_counters_consistent
    (env : Env) (fileName : string) (rows : list (string * cover_entry))
    (n : nat) (w : World) :
  exists err c n' w',
    saveRows env fileName rows zero_counters n w = Ret (err, c, n') w' /\
    counters_consistent c /\
    0 <= totalProgCnt c <= len rows /\
    (err = None -> totalProgCnt c = len rows).
Proof.
  destruct (saveRows_consistent env fileName rows zero_counters n w)
    as (err & c & n' & w' & Hrun & Hc & Hb & He).
  { unfold counters_consistent. simpl. lia. }
  exists err, c, n', w'. split; [done|]. split; [done|]. simpl in *.
  split; [lia|]. intros E. specialize (He E). lia.
Qed.

(** ** The record map and the artifacts of [dumpCoverage] *)

(** X8: a record that [setCoverRecord] stores is read back by
    [getCoverRecord] under the same key, as its two coverage counts (the
    length is not returned); the records of all other keys read as
    before, a key without record reads as [(false, 0, 0)], and neither
    function logs anything or touches the failure counter. *)
Theorem setCoverRecord_then_getCoverRecord
    (fileName key : string) (value1 value2 progLength : Z) (w : World) :
  exists w',
    setCoverRecord fileName value1 value2 progLength w = Ret tt w' /\
    trace w' = trace w /\
    execFailCnt w' = execFailCnt w /\
    getCoverRecord key w'
    = Ret (if decide (key = fileName) then (true, value1, value2)
           else match coverRecord w !! key with
                | Some values => (true, values.1.1, values.1.2)
                | None => (false, 0, 0)
                end) w'.
Proof.
  eexists. split; [reflexivity|]. split; [reflexivity|]. split; [reflexivity|].
  unfold getCoverRecord. cbn [coverRecord].
  destruct (decide (key = fileName)) as [->|Hne].
  - by rewrite lookup_insert_eq.
  - rewrite lookup_insert_ne by done.
    by destruct (coverRecord w !! key).
Qed.

Lemma TrimSuffix_without s t : HasSuffix s t = false -> TrimSuffix s t = s.
Proof. intros H. unfold TrimSuffix. by rewrite H. Qed.

Lemma TrimSuffix_app a t : TrimSuffix (a ++ t) t = a.
Proof.
  unfold TrimSuffix. rewrite HasSuffix_app, string_length_app.
  replace (String.length a + String.length t - String.length t)%nat
    with (String.length a) by lia.
  apply substring_app_head.
Qed.

Section Artifacts.
Variables (flags : FlagSet) (env : Env).
Hypothesis writes_ok : forall name, WriteFile_ok env name = true.

(** The files [dumpCoverage] writes, when every write succeeds. *)
Lemma dumpCoverage_files ctx_pos coverFile info covType w :
  exists w1 evs,
    recordCoverage coverFile (Z.of_nat (size (union_cover env info)))
      (len (Calls info)) covType w = Ret tt w1 /\
    dumpCoverage flags env ctx_pos coverFile info covType w
    = Ret tt {| coverRecord := coverRecord w1; execFailCnt := execFailCnt w;
                trace := app (trace w) evs |} /\
    forall name data,
      EvWriteFile name data ∈ evs <->
      (flagNoDumpCall flags = false /\ flagSemantic flags = false /\
       exists (j : nat) inf,
         Calls info !! j = Some inf /\ Cover inf <> [] /\
         name = coverFile ++ "." ++ itoa (Z.of_nat j) /\
         data = pc_lines env (Cover inf))
      \/ (name = coverFile ++ ".total" /\
          data = total_buf env (total_cover env info).1.1)
      \/ (Cover (Extra info) <> [] /\ name = coverFile ++ ".extra" /\
          data = pc_lines env (Cover (Extra info))).
Proof.
  destruct (dumpCalls_ok flags env writes_ok coverFile (Calls info) 0 w)
    as (evs1 & Hcalls & Hevs1).
  destruct (total_cover_spec env info) as (totalMap & Htot & _ & _).
  pose proof (recordCoverage_cases coverFile
                (Z.of_nat (size (union_cover env info))) (len (Calls info))
                covType) as Hrec.
  set (key := TrimSuffix coverFile ".rev") in *.
  set (recEvs := match coverRecord w !! key with
                 | None => if covType =? 0 then []
                           else [EvLog 0 ("cover map error: non-existed origin prog. "
                                          ++ key)]
                 | Some _ => if covType =? 0
                             then [EvLog 0 ("cover map error, repeated prog. " ++ key)]
                             else []
                 end).
  assert (Hrec' : forall w0, coverRecord w0 = coverRecord w ->
            exists w1, recordCoverage coverFile
                         (Z.of_nat (size (union_cover env info)))
                         (len (Calls info)) covType w0 = Ret tt w1 /\
                       trace w1 = app (trace w0) recEvs /\
                       execFailCnt w1 = execFailCnt w0 /\
                       coverRecord w1
                       = match coverRecord w !! key with
                         | None => if covType =? 0
                                   then <[key := (Z.of_nat (size (union_cover env info)),
                                                  0, len (Calls info))]> (coverRecord w)
                                   else coverRecord w
                         | Some (cov0, _, _) =>
                             if covType =? 0 then coverRecord w
                             else <[key := (cov0,
                                            Z.of_nat (size (union_cover env info)),
                                            len (Calls info))]> (coverRecord w)
                         end).
  { intros w0 Hw0. rewrite Hrec. unfold recEvs. rewrite Hw0.
    destruct (coverRecord w !! key) as [[[c0 c1] l]|]; destruct (covType =? 0);
      eexists; (split; [reflexivity|]);
      cbn [trace add_events set_record execFailCnt coverRecord];
      rewrite ?app_nil_r, ?Hw0; done. }
  destruct (Hrec' w eq_refl) as (w1 & Hr1 & _ & _ & Hc1).
  destruct (Hrec' (add_events w evs1) eq_refl) as (w1' & Hr1' & Ht1' & Hf1' & Hc1').
  exists w1.
  exists (app evs1 (app recEvs
            (app [EvWriteFile (coverFile ++ ".total") (total_buf env totalMap);
                  EvLog 0 ("[debug] total coverage done for the " ++ itoa ctx_pos
                           ++ " prog " ++ coverFile);
                  EvLog 0 ("extra: signal " ++ itoa (len (Signal (Extra info)))
                           ++ ", coverage " ++ itoa (len (Cover (Extra info))))]
                 (if decide (Cover (Extra info) = []) then []
                  else [EvWriteFile (coverFile ++ ".extra")
                          (pc_lines env (Cover (Extra info)))])))).
  split; [exact Hr1|]. split.
  - unfold dumpCoverage, bind. rewrite Hcalls, Htot, Hr1'.
    rewrite osutil_WriteFile_ok by done.
    unfold Logf. rewrite !emit_add. rewrite dumpCallCoverage_ok by done.
    rewrite !add_events_app. unfold add_events. cbn [coverRecord execFailCnt trace].
    rewrite Ht1', Hf1', Hc1', Hc1. cbn [trace execFailCnt add_events].
    by rewrite <- !app_assoc.
  - intros name data. rewrite Htot. cbn [fst].
    rewrite !elem_of_app, Hevs1.
    assert (Hnot : ~ EvWriteFile name data ∈ recEvs).
    { unfold recEvs. intros Hin.
      destruct (coverRecord w !! key), (covType =? 0);
        first [ by apply elem_of_nil in Hin
              | apply list_elem_of_singleton in Hin; discriminate ]. }
    split.
    + intros [(Hn & Hs & j & inf & Hj & Hc & -> & ->)|[Hin|[Hin|Hin]]].
      * left. repeat split; try done. exists j, inf. by rewrite Z.add_0_l.
      * done.
      * right; left.
        apply elem_of_cons in Hin as [Hin|Hin]; [by injection Hin as -> ->|].
        apply elem_of_cons in Hin as [Hin|Hin]; [discriminate|].
        apply list_elem_of_singleton in Hin. discriminate.
      * right; right. destruct (decide (Cover (Extra info) = []));
          [by apply elem_of_nil in Hin|].
        apply list_elem_of_singleton in Hin. by injection Hin as -> ->.
    + intros [(Hn & Hs & j & inf & Hj & Hc & -> & ->)|[[-> ->]|(Hc & -> & ->)]].
      * left. repeat split; try done. exists j, inf. by rewrite Z.add_0_l.
      * right; right; left. apply elem_of_cons. by left.
      * right; right; right. rewrite decide_False by done.
        by apply list_elem_of_singleton.
Qed.
End Artifacts.

(** X9: when every write succeeds, [dumpCoverage] writes these files and
    no others: the per-call artifacts [<covFile>.<i>] of the calls with
    coverage, and only if neither [-nodumpcall] nor [-semantic] is given;
    the artifact [<covFile>.total], always, even for a program without
    coverage; and [<covFile>.extra], only if the extra call has coverage.
    It leaves the failure counter alone. *)
Theorem dumpCoverage_writes_exactly
    (flags : FlagSet) (env : Env) (ctx_pos : Z) (coverFile : string)
    (info : ProgInfo) (covType : Z) (w : World) :
  (forall name, WriteFile_ok env name = true) ->
  exists w' evs,
    dumpCoverage flags env ctx_pos coverFile info covType w = Ret tt w' /\
    trace w' = app (trace w) evs /\
    execFailCnt w' = execFailCnt w /\
    forall name data,
      EvWriteFile name data ∈ evs <->
      (flagNoDumpCall flags = false /\ flagSemantic flags = false /\
       exists (j : nat) inf,
         Calls info !! j = Some inf /\ Cover inf <> [] /\
         name = coverFile ++ "." ++ itoa (Z.of_nat j) /\
         data = pc_lines env (Cover inf))
      \/ (name = coverFile ++ ".total" /\
          data = total_buf env (total_cover env info).1.1)
      \/ (Cover (Extra info) <> [] /\ name = coverFile ++ ".extra" /\
          data = pc_lines env (Cover (Extra info))).
Proof.
  intros Hw.
  destruct (dumpCoverage_files flags env Hw ctx_pos coverFile info covType w)
    as (w1 & evs & _ & Hrun & Hfiles).
  eexists _, evs. split; [exact Hrun|]. split; [reflexivity|].
  split; [reflexivity|exact Hfiles].
Qed.

Lemma dumpCoverage_writes_exactly_witness :
  exists w' evs,
    dumpCoverage (cover_flags true) plain_env 0 "cov_p" overlap_info 0
      initial_world = Ret tt w' /\
    trace w' = app (trace initial_world) evs /\
    execFailCnt w' = execFailCnt initial_world /\
    forall name data,
      EvWriteFile name data ∈ evs <->
      (flagNoDumpCall (cover_flags true) = false /\
       flagSemantic (cover_flags true) = false /\
       exists (j : nat) inf,
         Calls overlap_info !! j = Some inf /\ Cover inf <> [] /\
         name = "cov_p" ++ "." ++ itoa (Z.of_nat j) /\
         data = pc_lines plain_env (Cover inf))
      \/ (name = "cov_p" ++ ".total" /\
          data = total_buf plain_env (total_cover plain_env overlap_info).1.1)
      \/ (Cover (Extra overlap_info) <> [] /\ name = "cov_p" ++ ".extra" /\
          data = pc_lines plain_env (Cover (Extra overlap_info))).
Proof.
  exact (dumpCoverage_writes_exactly (cover_flags true) plain_env 0 "cov_p"
           overlap_info 0 initial_world (fun _ => eq_refl)).
Defined.

(** X10: the two runs of a dual-mode pair fill one entry.  When the
    cover file name of the original run does not itself end in [.rev] and
    has no entry yet, the original run followed by the run of the reverse
    variant (whose name is the same followed by [.rev]) leaves under that
    name the entry (coverage of the original, coverage of the reverse,
    number of calls of the reverse), and changes no other entry. *)
Theorem dual_runs_fill_one_entry
    (flags : FlagSet) (env : Env) (pos0 pos1 : Z) (coverFile : string)
    (info0 info1 : ProgInfo) (w : World) :
  (forall name, WriteFile_ok env name = true) ->
  HasSuffix coverFile ".rev" = false ->
  coverRecord w !! coverFile = None ->
  exists w1 w2,
    dumpCoverage flags env pos0 coverFile info0 0 w = Ret tt w1 /\
    dumpCoverage flags env pos1 (coverFile ++ ".rev") info1 1 w1 = Ret tt w2 /\
    coverRecord w2
    = <[coverFile := (Z.of_nat (size (union_cover env info0)),
                      Z.of_nat (size (union_cover env info1)),
                      len (Calls info1))]> (coverRecord w).
Proof.
  intros Hw Hsuf Hnone.
  destruct (dumpCoverage_files flags env Hw pos0 coverFile info0 0 w)
    as (r1 & evs1 & Hrec1 & Hrun1 & _).
  rewrite recordCoverage_cases, (TrimSuffix_without _ _ Hsuf), Hnone in Hrec1.
  simpl in Hrec1. injection Hrec1 as <-.
  destruct (dumpCoverage_files flags env Hw pos1 (coverFile ++ ".rev") info1 1
              {| coverRecord := <[coverFile :=
                                    (Z.of_nat (size (union_cover env info0)), 0,
                                     len (Calls info0))]> (coverRecord w);
                 execFailCnt := execFailCnt w;
                 trace := app (trace w) evs1 |})
    as (r2 & evs2 & Hrec2 & Hrun2 & _).
  rewrite recordCoverage_cases, TrimSuffix_app in Hrec2.
  cbn [coverRecord] in Hrec2. rewrite lookup_insert_eq in Hrec2.
  simpl in Hrec2. injection Hrec2 as <-.
  eexists _, _. split; [exact Hrun1|]. split; [exact Hrun2|].
  cbn [coverRecord set_record]. by rewrite insert_insert_eq.
Qed.

Lemma dual_runs_fill_one_entry_witness :
  exists w1 w2,
    dumpCoverage (cover_flags true) plain_env 0 "cov_p" overlap_info 0
      initial_world = Ret tt w1 /\
    dumpCoverage (cover_flags true) plain_env 1 ("cov_p" ++ ".rev")
      single_call_info 1 w1 = Ret tt w2 /\
    coverRecord w2
    = <["cov_p" := (Z.of_nat (size (union_cover plain_env overlap_info)),
                    Z.of_nat (size (union_cover plain_env single_call_info)),
                    len (Calls single_call_info))]> (coverRecord initial_world).
Proof.
  apply (dual_runs_fill_one_entry (cover_flags true) plain_env 0 1 "cov_p"
           overlap_info single_call_info initial_world);
    [intros name; reflexivity | reflexivity | reflexivity].
Defined.

(** ** What the dispatch does to the trace *)

Section Appends.
Variable P : event -> Prop.

Lemma appends_ret {A} (a : A) : appends P (ret a).
Proof. intros w. exists []. by rewrite app_nil_r. Qed.

Lemma appends_panic {A} msg : appends P (@panic A msg).
Proof. intros w. exists []. by rewrite app_nil_r. Qed.

Lemma appends_emit e : P e -> appends P (emit e).
Proof. intros He w. exists [e]. split; [done|]. by constructor. Qed.

Lemma appends_Fatalf {A} msg : P (EvLog 0 msg) -> appends P (@Fatalf A msg).
Proof. intros He w. exists [EvLog 0 msg]. split; [done|]. by constructor. Qed.

Lemma appends_bind {A B} (m : M A) (k : A -> M B) :
  appends P m -> (forall a, appends P (k a)) -> appends P (bind m k).
Proof.
  intros Hm Hk w. unfold bind. specialize (Hm w).
  destruct (m w) as [a w1|msg w1|msg w1|]; try done.
  destruct Hm as (evs1 & Ht1 & HP1).
  specialize (Hk a w1).
  destruct (k a w1) as [b w2|msg w2|msg w2|]; try done;
    destruct Hk as (evs2 & Ht2 & HP2); exists (app evs1 evs2);
    (split; [by rewrite Ht2, Ht1, app_assoc | by apply Forall_app]).
Qed.

Lemma appends_state {A} (m : M A) :
  (forall w, exists a w', m w = Ret a w' /\ trace w' = trace w) ->
  appends P m.
Proof.
  intros H w. destruct (H w) as (a & w' & -> & Ht).
  exists []. by rewrite app_nil_r.
Qed.

Hypothesis P_log : forall level msg, P (EvLog level msg).
Hypothesis P_write : forall name data, P (EvWriteFile name data).
Hypothesis P_print : forall text, P (EvPrint text).

Lemma appends_Logf level msg : appends P (Logf level msg).
Proof. apply appends_emit, P_log. Qed.

Lemma appends_osutil_WriteFile env name data fatal :
  appends P (osutil_WriteFile env name data fatal).
Proof.
  unfold osutil_WriteFile. destruct (WriteFile_ok env name);
    [apply appends_emit, P_write | apply appends_Fatalf, P_log].
Qed.

Lemma appends_dumpCallCoverage env coverFile info :
  appends P (dumpCallCoverage env coverFile info).
Proof.
  unfold dumpCallCoverage. destruct (len (Cover info) =? 0);
    [apply appends_ret | apply appends_osutil_WriteFile].
Qed.

Lemma appends_dumpCalls flags env coverFile calls :
  forall i, appends P (dumpCalls flags env coverFile i calls).
Proof.
  induction calls as [|inf rest IH]; intros i; simpl; [apply appends_ret|].
  apply appends_bind; [apply appends_Logf|]. intros _.
  apply appends_bind; [|intros _; apply IH].
  destruct (negb (flagNoDumpCall flags) && negb (flagSemantic flags));
    [apply appends_dumpCallCoverage | apply appends_ret].
Qed.

Lemma appends_recordCoverage coverFile covNum progLength covType :
  appends P (recordCoverage coverFile covNum progLength covType).
Proof.
  unfold recordCoverage. apply appends_bind.
  - apply appends_state. intros w. unfold getCoverRecord.
    destruct (coverRecord w !! _); eauto.
  - intros [[ok cov0] cov1].
    destruct (covType =? 0), ok; try apply appends_Logf;
      apply appends_state; intros w; by eexists _, _.
Qed.

Lemma appends_dumpCoverage flags env ctx_pos coverFile info covType :
  appends P (dumpCoverage flags env ctx_pos coverFile info covType).
Proof.
  unfold dumpCoverage.
  apply appends_bind; [apply appends_dumpCalls|]. intros _.
  destruct (total_cover env info) as [[totalMap covNum] progLength].
  apply appends_bind; [apply appends_recordCoverage|]. intros _.
  apply appends_bind; [apply appends_osutil_WriteFile|]. intros _.
  apply appends_bind; [apply appends_Logf|]. intros _.
  apply appends_bind; [apply appends_Logf|]. intros _.
  apply appends_dumpCallCoverage.
Qed.

Lemma appends_printCallResults info : appends P (printCallResults info).
Proof.
  unfold printCallResults. generalize 0.
  induction (Calls info) as [|inf rest IH]; intros i; simpl; [apply appends_ret|].
  apply appends_bind; [|intros _; apply IH].
  unfold printCallResult. destruct (N.land (Flags inf) CallExecuted =? 0)%N;
    [apply appends_ret | apply appends_Logf].
Qed.

Lemma appends_covFile_name flags ctx progIndex :
  appends P (covFile_name flags ctx progIndex).
Proof.
  unfold covFile_name. destruct (negb _); [|apply appends_ret].
  destruct (len (progFns ctx) =? 0); [apply appends_panic|].
  destruct (index _ _); [apply appends_ret | apply appends_panic].
Qed.

Lemma appends_for_each {A} (xs : list A) (body : A -> M unit) :
  (forall x, appends P (body x)) -> appends P (for_each xs body).
Proof.
  intros Hbody. induction xs as [|x rest IH]; simpl; [apply appends_ret|].
  apply appends_bind; [apply Hbody | intros _; apply IH].
Qed.

Lemma appends_printHints flags env p info :
  appends P (printHints flags env p info).
Proof.
  assert (H : forall n i ncomps ncandidates,
            appends P (printHints_from flags env p info i n ncomps ncandidates));
    [|apply H].
  induction n as [|n IH]; intros i ncomps ncandidates; simpl;
    [apply appends_Logf|].
  apply appends_bind.
  { destruct (flagOutput flags); [apply appends_emit, P_print | apply appends_ret]. }
  intros _. destruct (index (Calls info) i) as [inf|]; [|apply appends_panic].
  apply appends_bind.
  { destruct (flagOutput flags); [|apply appends_ret].
    apply appends_for_each. intros c. unfold print_comp.
    apply appends_bind; [apply appends_emit, P_print|]. intros _.
    apply appends_bind; [|intros _; apply appends_emit, P_print].
    apply appends_for_each. intros arg. apply appends_emit, P_print. }
  intros _. apply appends_bind; [|intros _; apply IH].
  destruct (flagOutput flags); [|apply appends_ret].
  apply appends_for_each. intros c. apply appends_Logf.
Qed.

Lemma appends_execute_success flags env ctx p progIndex covType r :
  appends P (execute_success flags env ctx p progIndex covType r).
Proof.
  unfold execute_success. apply appends_bind.
  { destruct (cfgDebug ctx || _); [apply appends_Logf | apply appends_ret]. }
  intros _. destruct (ex_info r) as [info|]; [|apply appends_Logf].
  apply appends_bind; [apply appends_printCallResults|]. intros _.
  apply appends_bind.
  { destruct (flagHints flags); [apply appends_printHints | apply appends_ret]. }
  intros _. destruct (negb _); [|apply appends_ret].
  apply appends_bind; [apply appends_covFile_name|]. intros covFile.
  apply appends_dumpCoverage.
Qed.

Hypothesis P_sleep : forall d, P (EvSleep d).

Lemma appends_execute_loop flags env ctx exec p progIndex covType fuel :
  forall try,
    appends P (execute_loop fuel flags env ctx exec p progIndex covType try).
Proof.
  induction fuel as [|fuel IH]; intros try; [by intros w|].
  simpl. destruct (is_failure _); [|apply appends_execute_success].
  destruct (try >? flagMaxRetry flags).
  - destruct (negb _); [|apply appends_Fatalf, P_log].
    apply appends_bind; [apply appends_Logf|]. intros _.
    apply appends_bind; [apply appends_Logf|]. intros _.
    apply appends_state. intros w. by eexists _, _.
  - apply appends_bind; [apply appends_Logf|]. intros _.
    apply appends_bind; [apply appends_emit, P_sleep|]. intros _.
    apply IH.
Qed.
End Appends.

Lemma terminates_bind {A B} (m : M A) (k : A -> M B) :
  terminates m -> (forall a, terminates (k a)) -> terminates (bind m k).
Proof.
  intros Hm Hk w. unfold bind. specialize (Hm w).
  destruct (m w); try done. apply Hk.
Qed.

Lemma terminates_for_each {A} (xs : list A) (body : A -> M unit) :
  (forall x, terminates (body x)) -> terminates (for_each xs body).
Proof.
  intros Hbody. induction xs as [|x rest IH]; simpl; [done|].
  apply terminates_bind; [apply Hbody | intros _; apply IH].
Qed.

Lemma terminates_printHints flags env p info :
  terminates (printHints flags env p info).
Proof.
  assert (H : forall n i ncomps ncandidates,
            terminates (printHints_from flags env p info i n ncomps ncandidates));
    [|apply H].
  induction n as [|n IH]; intros i ncomps ncandidates; simpl;
    [done|].
  apply terminates_bind; [by destruct (flagOutput flags)|].
  intros _. destruct (index (Calls info) i) as [inf|]; [|done].
  apply terminates_bind.
  { destruct (flagOutput flags); [|done].
    apply terminates_for_each. intros c. unfold print_comp.
    apply terminates_bind; [done|]. intros _.
    apply terminates_bind; [|done].
    by apply terminates_for_each. }
  intros _. apply terminates_bind; [|intros _; apply IH].
  destruct (flagOutput flags); [|done].
  by apply terminates_for_each.
Qed.

Lemma terminates_dumpCallCoverage env coverFile info :
  terminates (dumpCallCoverage env coverFile info).
Proof.
  unfold dumpCallCoverage, osutil_WriteFile. intros w.
  by destruct (len (Cover info) =? 0), (WriteFile_ok env coverFile).
Qed.

Lemma terminates_dumpCalls flags env coverFile calls :
  forall i, terminates (dumpCalls flags env coverFile i calls).
Proof.
  induction calls as [|inf rest IH]; intros i; simpl; [done|].
  apply terminates_bind; [done|]. intros _.
  apply terminates_bind; [|intros _; apply IH].
  destruct (_ && _); [apply terminates_dumpCallCoverage|done].
Qed.

Lemma terminates_dumpCoverage flags env ctx_pos coverFile info covType :
  terminates (dumpCoverage flags env ctx_pos coverFile info covType).
Proof.
  unfold dumpCoverage.
  apply terminates_bind; [apply terminates_dumpCalls|]. intros _.
  destruct (total_cover env info) as [[totalMap covNum] progLength].
  apply terminates_bind.
  { intros w. by rewrite recordCoverage_cases. }
  intros _. apply terminates_bind.
  { unfold osutil_WriteFile. intros w. by destruct (WriteFile_ok env _). }
  intros _. apply terminates_bind; [done|]. intros _.
  apply terminates_bind; [done|]. intros _.
  apply terminates_dumpCallCoverage.
Qed.

Lemma terminates_execute_success flags env ctx p progIndex covType r :
  terminates (execute_success flags env ctx p progIndex covType r).
Proof.
  unfold execute_success. apply terminates_bind.
  { by destruct (cfgDebug ctx || _). }
  intros _. destruct (ex_info r) as [info|]; [|done].
  apply terminates_bind.
  { unfold printCallResults. generalize 0.
    induction (Calls info) as [|inf rest IH]; intros i; simpl; [done|].
    apply terminates_bind; [|intros _; apply IH].
    unfold printCallResult. by destruct (N.land (Flags inf) CallExecuted =? 0)%N. }
  intros _. apply terminates_bind.
  { destruct (flagHints flags); [apply terminates_printHints | done]. }
  intros _. destruct (negb _); [|done].
  apply terminates_bind.
  { unfold covFile_name. destruct (negb _); [|done].
    destruct (len (progFns ctx) =? 0); [done|]. by destruct (index _ _). }
  intros covFile. apply terminates_dumpCoverage.
Qed.

(** X11: a dispatch holds one gate ticket.  [execute] enters the gate
    first; when it returns, and also when the body panics, the ticket is
    given back as the last event (the deferred [Leave]); when the process
    exits through [log.Fatalf] it is not.  In between the gate is not
    touched: every other event is a log line, a sleep, a file write or
    text that [printHints] prints. *)
Theorem execute_holds_one_gate_ticket
    (fuel : nat) (flags : FlagSet) (env : Env) (ctx : Context)
    (exec : Z -> ExecResult) (pid : Z) (p : Prog) (progIndex covType : Z)
    (w : World) :
  match execute fuel flags env ctx exec pid p progIndex covType w with
  | Ret _ w' | Panic _ w' =>
      exists evs,
        trace w' = app (trace w) (EvGateEnter :: app evs [EvGateLeave]) /\
        Forall (fun e => is_gate e = false) evs
  | Fatal _ w' =>
      exists evs,
        trace w' = app (trace w) (EvGateEnter :: evs) /\
        Forall (fun e => is_gate e = false) evs
  | OutOfFuel => True
  end.
Proof.
  assert (Hbody : appends (fun e => is_gate e = false)
            ((if flagOutput flags then logProgram pid p else ret tt) ;;;
             execute_loop fuel flags env ctx exec p progIndex covType 0)).
  { apply appends_bind.
    - destruct (flagOutput flags); [by apply appends_Logf | apply appends_ret].
    - intros _. by apply appends_execute_loop. }
  unfold execute, bind at 1, emit at 1, defer.
  match goal with |- context [?body ?w0] =>
    match type of Hbody with appends _ body =>
      specialize (Hbody w0); destruct (body w0) as [a w1|msg w1|msg w1|]
    end
  end; try done;
    destruct Hbody as (evs & Ht & HP); cbn [trace] in Ht; exists evs;
    (split; [|done]); unfold bind, emit, ret; cbn [trace];
    rewrite Ht, <- ?app_assoc; reflexivity.
Qed.

(** ** The retry loop ends *)

Lemma sleeps_app a b : sleeps (app a b) = (sleeps a + sleeps b)%nat.
Proof. unfold sleeps. by rewrite List.filter_app, length_app. Qed.

Lemma sleeps_none evs : Forall (fun e => is_sleep e = false) evs -> sleeps evs = 0%nat.
Proof.
  unfold sleeps. induction 1 as [|e evs He _ IH]; [done|].
  simpl. by rewrite He.
Qed.

Section Budget.
Variables (flags : FlagSet) (env : Env) (ctx : Context).
Variables (exec : Z -> ExecResult) (p : Prog) (progIndex covType : Z).
Hypothesis budget_fits : flagMaxRetry flags < int_max.

Lemma execute_loop_bounded fuel : forall try w,
  int_min <= try ->
  (Z.to_nat (flagMaxRetry flags + 1 - try) < fuel)%nat ->
  match execute_loop fuel flags env ctx exec p progIndex covType try w with
  | Ret _ w' | Fatal _ w' | Panic _ w' =>
      exists evs, trace w' = app (trace w) evs /\
                  (sleeps evs <= Z.to_nat (flagMaxRetry flags + 1 - try))%nat
  | OutOfFuel => False
  end.
Proof.
  induction fuel as [|fuel IH]; intros try w Hmin Hfuel; [lia|].
  simpl. destruct (is_failure _).
  - destruct (Z.gtb_spec try (flagMaxRetry flags)) as [Hgt|Hle].
    + destruct (negb _).
      * eexists. split; [cbn [trace]; rewrite <- app_assoc; reflexivity|].
        apply Nat.le_0_l.
      * eexists. split; [reflexivity|]. apply Nat.le_0_l.
    + unfold bind, Logf. rewrite !emit_add, add_events_app.
      unfold int_add. rewrite wrap64_small by (unfold int_min, int_max in *; lia).
      specialize (IH (try + 1)
                     (add_events w [EvLog 1 "executor failed, retrying";
                                    EvSleep Second])
                     ltac:(lia) ltac:(lia)).
      destruct (execute_loop fuel _ _ _ _ _ _ _ _ _) as [a w1|msg w1|msg w1|];
        try done; destruct IH as (evs & Ht & Hs);
        exists (app [EvLog 1 "executor failed, retrying"; EvSleep Second] evs);
        (split; [by rewrite Ht; cbn [trace add_events]; rewrite <- app_assoc|]);
        rewrite sleeps_app; change (sleeps [_; _]) with 1%nat; lia.
  - pose proof (appends_execute_success (fun e => is_sleep e = false)
                  ltac:(done) ltac:(done) ltac:(done)
                  flags env ctx p progIndex covType (exec try) w) as Ha.
    pose proof (terminates_execute_success flags env ctx p progIndex covType
                  (exec try) w) as Hterm.
    destruct (execute_success _ _ _ _ _ _ _ _) as [a w1|msg w1|msg w1|];
      try done; destruct Ha as (evs & Ht & HP); exists evs;
      (split; [done|]); rewrite (sleeps_none _ HP); lia.
Qed.
End Budget.

(** X12: the retry loop ends, whatever the executor returns.  When the
    budget is below the largest [int], the loop makes at most
    [max-retry + 2] attempts (so that much fuel is enough for the model
    never to run out) and a dispatch sleeps at most [max-retry + 1] times
    one second, also when it ends in a fatal exit or a panic. *)
Theorem execute_loop_ends_within_budget
    (fuel : nat) (flags : FlagSet) (env : Env) (ctx : Context)
    (exec : Z -> ExecResult) (p : Prog) (progIndex covType : Z) (w : World) :
  flagMaxRetry flags < int_max ->
  (Z.to_nat (flagMaxRetry flags + 1) < fuel)%nat ->
  match execute_loop fuel flags env ctx exec p progIndex covType 0 w with
  | Ret _ w' | Fatal _ w' | Panic _ w' =>
      exists evs, trace w' = app (trace w) evs /\
                  (sleeps evs <= Z.to_nat (flagMaxRetry flags + 1))%nat
  | OutOfFuel => False
  end.
Proof.
  intros Hmax Hfuel.
  pose proof (execute_loop_bounded flags env ctx exec p progIndex covType Hmax
                fuel 0 w) as H.
  rewrite Z.sub_0_r in H. apply H; [unfold int_min; lia | done].
Qed.

Lemma execute_loop_ends_within_budget_witness :
  match execute_loop 12 (retry_flags "" 10) plain_env one_prog_context
          (mock_executor 11) {| Serialize := "r0 = getpid()" |} 0 0 0
          initial_world with
  | Ret _ w' | Fatal _ w' | Panic _ w' =>
      exists evs, trace w' = app (trace initial_world) evs /\
                  (sleeps evs <= Z.to_nat (flagMaxRetry (retry_flags "" 10) + 1))%nat
  | OutOfFuel => False
  end.
Proof.
  apply (execute_loop_ends_within_budget 12 (retry_flags "" 10) plain_env
           one_prog_context (mock_executor 11)
           {| Serialize := "r0 = getpid()" |} 0 0 initial_world);
    [reflexivity | vm_compute; lia].
Defined.

(** X13: a program whose executor fails on every attempt is given up
    after [max-retry + 1] one-second sleeps.  With [-progdir] the
    dispatch returns: it logs the failure and the skip, adds one to the
    failure counter, stores no coverage record and gives the gate ticket
    back.  Without [-progdir] the process exits through [log.Fatalf]
    with the failure message, the ticket still held. *)
Theorem execute_gives_up_after_budget
    (fuel : nat) (flags : FlagSet) (env : Env) (ctx : Context)
    (exec : Z -> ExecResult) (pid : Z) (p : Prog) (progIndex covType : Z)
    (w : World) :
  0 <= flagMaxRetry flags < int_max ->
  (forall t, 0 <= t <= flagMaxRetry flags + 1 ->
             is_failure (ex_err (exec t)) = true) ->
  (Z.to_nat (flagMaxRetry flags + 1) < fuel)%nat ->
  let n := Z.to_nat (flagMaxRetry flags + 1) in
  let try := flagMaxRetry flags + 1 in
  let failed := "executor failed " ++ itoa try ++ " times: "
                ++ from_option error_text "<nil>" (ex_err (exec try))
                ++ String "010" (ex_output (exec try)) in
  let started :=
    EvGateEnter ::
    (if flagOutput flags
     then [EvLog 0 ("executing program " ++ itoa pid ++ ":"
                    ++ String "010" (Serialize p))]
     else []) in
  execute fuel flags env ctx exec pid p progIndex covType w
  = if decide (batch_mode flags)
    then Ret tt
           {| coverRecord := coverRecord w;
              execFailCnt := int_add (execFailCnt w) 1;
              trace := app (trace w)
                         (app started
                            (app (retry_events n)
                               [EvLog 0 failed;
                                EvLog 0 ("[semantic dump mode] the "
                                         ++ itoa progIndex
                                         ++ " prog failed, skip it");
                                EvGateLeave])) |}
    else Fatal failed
           (add_events w (app started (app (retry_events n) [EvLog 0 failed]))).
Proof.
  intros Hm Hfail Hfuel n try failed started.
  replace fuel with (n + S (fuel - S n))%nat by (unfold n; lia).
  unfold execute, defer, bind at 1. rewrite emit_add.
  unfold bind at 1 2.
  assert (Hpre : (if flagOutput flags then logProgram pid p else ret tt)
                   (add_events w [EvGateEnter])
                 = Ret tt (add_events w started)).
  { unfold started. destruct (flagOutput flags).
    - unfold logProgram, Logf. by rewrite emit_add, add_events_app.
    - done. }
  rewrite Hpre.
  pose proof (execute_loop_exhausted flags env ctx exec p progIndex covType
                (fuel - S n) (add_events w started) Hm Hfail) as Hex.
  cbv zeta in Hex. fold n try failed in Hex. rewrite Hex.
  destruct (decide (batch_mode flags)).
  - unfold bind, emit, ret. cbn [coverRecord execFailCnt trace add_events].
    by rewrite <- !app_assoc.
  - by rewrite add_events_app.
Qed.

Lemma execute_gives_up_after_budget_witness :
  execute 3 (retry_flags "progs" 1) plain_env one_prog_context
    (mock_executor 5) 0 {| Serialize := "getpid()" |} 0 0 initial_world
  = Ret tt
      {| coverRecord := ∅; execFailCnt := 1;
         trace := [EvGateEnter;
                   EvLog 1 "executor failed, retrying"; EvSleep Second;
                   EvLog 1 "executor failed, retrying"; EvSleep Second;
                   EvLog 0 ("executor failed 2 times: executor failed"
                            ++ String "010" "SYZFAIL");
                   EvLog 0 "[semantic dump mode] the 0 prog failed, skip it";
                   EvGateLeave] |}.
Proof.
  etransitivity;
    [apply (execute_gives_up_after_budget 3 (retry_flags "progs" 1) plain_env
              one_prog_context (mock_executor 5) 0
              {| Serialize := "getpid()" |} 0 0 initial_world);
     [vm_compute; split; [discriminate | reflexivity]
     | intros t Ht; cbn in Ht; unfold mock_executor;
       destruct (Z.ltb_spec t 5) as [_|Hge]; [reflexivity | lia]
     | vm_compute; lia]
    | reflexivity].
Defined.

(** ** Cover file names *)

Lemma itoa_inj a b : itoa a = itoa b -> a = b.
Proof.
  unfold itoa. intros H. apply DecimalZ.to_int_inj.
  assert (Hnn : forall z, Z.to_int z <> Decimal.Pos Decimal.Nil /\
                          Z.to_int z <> Decimal.Neg Decimal.Nil).
  { intros [|q|q]; split; try discriminate; simpl; intros E; injection E;
      apply DecimalPos.Unsigned.to_uint_nonnil. }
  pose proof (DecimalString.NilZero.isi _ (proj1 (Hnn a)) (proj2 (Hnn a))) as Ha.
  pose proof (DecimalString.NilZero.isi _ (proj1 (Hnn b)) (proj2 (Hnn b))) as Hb.
  rewrite H in Ha. congruence.
Qed.

(** X14: without [-progdir] the cover file name of a dispatch is the
    [-coverfile] prefix followed by [_prog] and the tag in decimal; it
    needs no look-up, so it never panics, and two dispatches get the same
    name only if they carry the same tag. *)
Theorem covFile_name_distinct_per_tag
    (flags : FlagSet) (ctx : Context) (i j : Z) (w : World) :
  flagProgDir flags = "" ->
  covFile_name flags ctx i w = Ret (flagCoverFile flags ++ "_prog" ++ itoa i) w /\
  (covFile_name flags ctx i w = covFile_name flags ctx j w <-> i = j).
Proof.
  intros Hdir. unfold covFile_name. rewrite Hdir. simpl.
  split; [reflexivity|]. split; [|by intros ->].
  unfold ret. intros H. injection H as H.
  apply string_app_inv_head in H.
  apply (string_app_inv_head "_prog") in H.
  by apply itoa_inj.
Qed.

Lemma covFile_name_distinct_per_tag_witness :
  covFile_name (cover_flags false) one_prog_context 3 initial_world
  = Ret (flagCoverFile (cover_flags false) ++ "_prog" ++ itoa 3) initial_world /\
  (covFile_name (cover_flags false) one_prog_context 3 initial_world
   = covFile_name (cover_flags false) one_prog_context 4 initial_world
   <-> 3 = 4).
Proof.
  apply (covFile_name_distinct_per_tag (cover_flags false) one_prog_context 3 4
           initial_world).
  reflexivity.
Defined.

(** X15: with [-progdir] the cover file name is the [-coverfile] prefix
    followed by [_] and the file name at position [tag mod n] of the [n]
    file names; for a tag that is not negative the look-up succeeds, and
    the tag one round later ([tag + n], as [-repeat] produces) gets the
    same name again. *)
Theorem covFile_name_progdir_repeats
    (flags : FlagSet) (ctx : Context) (i : Z) (w : World) :
  flagProgDir flags <> "" ->
  progFns ctx <> [] ->
  0 <= i ->
  exists fn,
    progFns ctx !! Z.to_nat (i mod len (progFns ctx)) = Some fn /\
    covFile_name flags ctx i w = Ret (flagCoverFile flags ++ "_" ++ fn) w /\
    covFile_name flags ctx (i + len (progFns ctx)) w
    = covFile_name flags ctx i w.
Proof.
  intros Hdir Hne Hi.
  assert (Hlen : 0 < len (progFns ctx)).
  { unfold len. destruct (progFns ctx); [done|]. simpl length. lia. }
  assert (Hrange : 0 <= i mod len (progFns ctx) < len (progFns ctx))
    by (apply Z.mod_pos_bound; lia).
  destruct (lookup_lt_is_Some_2 (progFns ctx) (Z.to_nat (i mod len (progFns ctx))))
    as [fn Hfn]; [unfold len in *; lia|].
  assert (Hname : forall k, 0 <= k -> k mod len (progFns ctx) = i mod len (progFns ctx) ->
            covFile_name flags ctx k w = Ret (flagCoverFile flags ++ "_" ++ fn) w).
  { intros k Hk Hmod. unfold covFile_name.
    destruct (String.eqb_spec (flagProgDir flags) "") as [E|_]; [done|]. simpl.
    destruct (Z.eqb_spec (len (progFns ctx)) 0) as [E|_]; [lia|].
    rewrite Z.rem_mod_nonneg by lia. rewrite Hmod. unfold index.
    destruct (Z.ltb_spec (i mod len (progFns ctx)) 0) as [E|_]; [lia|].
    by rewrite Hfn. }
  exists fn. split; [done|]. split; [by apply Hname|].
  rewrite (Hname i) by done. apply Hname; [lia|].
  rewrite <- (Z.mul_1_l (len (progFns ctx))) at 1.
  apply Z.mod_add. lia.
Qed.

Lemma covFile_name_progdir_repeats_witness :
  exists fn,
    progFns four_progs_context !! Z.to_nat (5 mod len (progFns four_progs_context))
    = Some fn /\
    covFile_name (retry_flags "progs" 1) four_progs_context 5 initial_world
    = Ret (flagCoverFile (retry_flags "progs" 1) ++ "_" ++ fn) initial_world /\
    covFile_name (retry_flags "progs" 1) four_progs_context
      (5 + len (progFns four_progs_context)) initial_world
    = covFile_name (retry_flags "progs" 1) four_progs_context 5 initial_world.
Proof.
  apply (covFile_name_progdir_repeats (retry_flags "progs" 1) four_progs_context
           5 initial_world); [discriminate | discriminate | lia].
Defined.

(** ** Shutdown and the repeat limit *)

Lemma worker_turn_shutdown dispatch env covType pid now pl w :
  shutdown (pool_ctx pl) = true ->
  (forall p, MakeEnv_ok env p = true) ->
  exists b pl',
    worker_turn dispatch env covType pid now pl w = Ret (b, pl') w /\
    pool_ctx pl' = pool_ctx pl /\
    length (workers pl') = length (workers pl) /\
    forall q st, workers pl !! q = Some st ->
      exists st', workers pl' !! q = Some st' /\
        turns_to_return st'
        = (turns_to_return st - (if decide (pid = q) then 1 else 0))%nat.
Proof.
  intros Hsh Henv. unfold worker_turn.
  destruct (workers pl !! pid) as [[| |]|] eqn:Hpid.
  - rewrite Henv. eexists _, _. split; [reflexivity|]. cbn [pool_ctx workers].
    split; [done|]. split; [by rewrite length_insert|].
    intros q st Hq. destruct (decide (pid = q)) as [<-|Hne].
    + rewrite list_lookup_insert_eq by (by eapply lookup_lt_Some).
      eexists. split; [done|]. rewrite Hpid in Hq. by injection Hq as <-.
    + rewrite list_lookup_insert_ne by done. eexists. split; [done|]. lia.
  - unfold run_iteration. rewrite Hsh. unfold bind, ret.
    eexists _, _. split; [reflexivity|]. cbn [pool_ctx workers negb].
    split; [done|]. split; [by rewrite length_insert|].
    intros q st Hq. destruct (decide (pid = q)) as [<-|Hne].
    + rewrite list_lookup_insert_eq by (by eapply lookup_lt_Some).
      eexists. split; [done|]. rewrite Hpid in Hq. by injection Hq as <-.
    + rewrite list_lookup_insert_ne by done. eexists. split; [done|]. lia.
  - eexists _, _. split; [reflexivity|]. repeat split.
    intros q st Hq. exists st. split; [done|].
    destruct (decide (pid = q)) as [<-|Hne]; [|lia].
    rewrite Hpid in Hq. by injection Hq as <-.
  - eexists _, _. split; [reflexivity|]. repeat split.
    intros q st Hq. exists st. split; [done|].
    destruct (decide (pid = q)) as [<-|Hne]; [|lia].
    by rewrite Hpid in Hq.
Qed.

Lemma run_schedule_shutdown dispatch env covType sched : forall pl w,
  shutdown (pool_ctx pl) = true ->
  (forall p, MakeEnv_ok env p = true) ->
  exists pl',
    run_schedule dispatch env covType sched pl w = Ret pl' w /\
    pool_ctx pl' = pool_ctx pl /\
    length (workers pl') = length (workers pl) /\
    forall q st, workers pl !! q = Some st ->
      exists st', workers pl' !! q = Some st' /\
        turns_to_return st' = (turns_to_return st - turns_of q sched)%nat.
Proof.
  induction sched as [|[pid now] rest IH]; intros pl w Hsh Henv.
  - exists pl. split; [done|]. repeat split.
    intros q st Hq. exists st. split; [done|]. unfold turns_of. simpl. lia.
  - destruct (worker_turn_shutdown dispatch env covType pid now pl w Hsh Henv)
      as (b & pl1 & Hturn & Hctx1 & Hlen1 & Hst1).
    destruct (IH pl1 w ltac:(by rewrite Hctx1) Henv)
      as (pl' & Hrun & Hctx & Hlen & Hst).
    exists pl'. split.
    { simpl. unfold bind. by rewrite Hturn. }
    split; [congruence|]. split; [congruence|].
    intros q st Hq.
    destruct (Hst1 q st Hq) as (st1 & Hq1 & Hr1).
    destruct (Hst q st1 Hq1) as (st' & Hq' & Hr').
    exists st'. split; [done|]. rewrite turns_of_cons. lia.
Qed.

(** X16: a pool whose shutdown channel is closed while none of its
    workers is inside an iteration (each is still to create its
    environment, stands at the top of its loop, or has returned) makes no
    further draw and no further dispatch: under any schedule the shared
    context, the record map and the trace stay as they are, and each
    worker that gets two turns has returned (one turn creates its
    environment, the next sees the closed channel).  The channel is read
    at the top of the loop only, so a dispatch that is under way when
    the channel is closed runs to its end; the pool states here have no
    such dispatch. *)
Theorem shutdown_pool_returns_without_dispatch
    (dispatch : dispatcher) (env : Env) (covType : Z)
    (sched : list (nat * Z)) (pl : Pool) (w : World) :
  shutdown (pool_ctx pl) = true ->
  (forall pid, MakeEnv_ok env pid = true) ->
  exists pl',
    run_schedule dispatch env covType sched pl w = Ret pl' w /\
    pool_ctx pl' = pool_ctx pl /\
    length (workers pl') = length (workers pl) /\
    forall pid, (pid < length (workers pl))%nat ->
                (2 <= turns_of pid sched)%nat ->
                workers pl' !! pid = Some WDone.
Proof.
  intros Hsh Henv.
  destruct (run_schedule_shutdown dispatch env covType sched pl w Hsh Henv)
    as (pl' & Hrun & Hctx & Hlen & Hst).
  exists pl'. repeat (split; [done|]).
  intros pid Hpid Hturns.
  destruct (lookup_lt_is_Some_2 (workers pl) pid Hpid) as [st Hq].
  destruct (Hst pid st Hq) as (st' & Hq' & Hr).
  rewrite Hq'. f_equal.
  destruct st, st'; simpl in Hr; try done; lia.
Qed.

Lemma shutdown_pool_returns_without_dispatch_witness :
  exists pl',
    run_schedule quiet_dispatch plain_env 0 alternating_schedule
      (close_shutdown (start_pool four_progs_context 2)) initial_world
    = Ret pl' initial_world /\
    pool_ctx pl' = pool_ctx (close_shutdown (start_pool four_progs_context 2)) /\
    length (workers pl')
    = length (workers (close_shutdown (start_pool four_progs_context 2))) /\
    forall pid,
      (pid < length (workers (close_shutdown (start_pool four_progs_context 2))))%nat ->
      (2 <= turns_of pid alternating_schedule)%nat ->
      workers pl' !! pid = Some WDone.
Proof.
  apply (shutdown_pool_returns_without_dispatch quiet_dispatch plain_env 0
           alternating_schedule (close_shutdown (start_pool four_progs_context 2))
           initial_world); [reflexivity | intros pid; reflexivity].
Defined.

(** X17: [-repeat 0] (or a negative value) switches the end of the round
    off.  However far the cursor has come, an iteration of a worker of a
    pool that is not shut down draws the next index, hands the program at
    that index modulo the number of programs to the dispatcher, tagged
    with the index and with the worker and coverage type of the
    iteration, and goes on. *)
Theorem run_iteration_without_repeat_limit
    (dispatch : dispatcher) (now pid covType : Z) (ctx : Context) (w : World) :
  records_calls dispatch ->
  repeat ctx <= 0 ->
  shutdown ctx = false ->
  progs ctx <> [] ->
  0 <= pos ctx ->
  exists ctx' w' p,
    run_iteration dispatch now pid covType ctx w = Ret (true, ctx') w' /\
    pos ctx' = int_add (pos ctx) 1 /\
    progs ctx !! Z.to_nat (pos ctx mod len (progs ctx)) = Some p /\
    executions (trace w')
    = app (executions (trace w))
          [{| call_pid := pid; call_prog := p; call_tag := pos ctx;
              call_covType := covType |}].
Proof.
  intros Hrec Hrep Hsh Hne Hpos.
  destruct (getProgramIndex_marks_nothing now ctx w Hne)
    as (ctx' & evs & Hget & Hpos' & (Hprogs & _ & _ & _ & Hrep') & _ & Hevs).
  assert (Hlen : 0 < len (progs ctx)).
  { unfold len. destruct (progs ctx); [done|]. simpl length. lia. }
  assert (Hrange : 0 <= pos ctx mod len (progs ctx) < len (progs ctx))
    by (apply Z.mod_pos_bound; lia).
  destruct (lookup_lt_is_Some_2 (progs ctx) (Z.to_nat (pos ctx mod len (progs ctx))))
    as [entry Hentry]; [unfold len in *; lia|].
  unfold run_iteration. rewrite Hsh. unfold bind at 1. rewrite Hget.
  rewrite Hrep', Hprogs.
  destruct (Z.gtb_spec (repeat ctx) 0) as [E|_]; [lia|]. cbn [andb].
  rewrite Z.rem_mod_nonneg by lia. unfold index.
  destruct (Z.ltb_spec (pos ctx mod len (progs ctx)) 0) as [E|_]; [lia|].
  rewrite Hentry. unfold bind. rewrite emit_add.
  destruct (Hrec ctx' pid entry (pos ctx) covType
              (add_events (add_events w evs)
                 [EvDispatch pid (pos ctx mod len (progs ctx)) (pos ctx)]))
    as (w' & Hrun & _ & Htr).
  rewrite Hrun. exists ctx', w', entry. split; [reflexivity|].
  split; [done|]. split; [done|].
  rewrite Htr. cbn [trace add_events]. rewrite !executions_app, Hevs.
  simpl. by rewrite !app_nil_r.
Qed.

Lemma run_iteration_without_repeat_limit_witness :
  exists ctx' w' p,
    run_iteration (recording quiet_dispatch) 0 1 0
      (set_pos (new_context four_progs [] false 0) 6) initial_world
    = Ret (true, ctx') w' /\
    pos ctx' = int_add (pos (set_pos (new_context four_progs [] false 0) 6)) 1 /\
    progs (set_pos (new_context four_progs [] false 0) 6)
      !! Z.to_nat (pos (set_pos (new_context four_progs [] false 0) 6)
                   mod len (progs (set_pos (new_context four_progs [] false 0) 6)))
    = Some p /\
    executions (trace w')
    = app (executions (trace initial_world))
          [{| call_pid := 1; call_prog := p;
              call_tag := pos (set_pos (new_context four_progs [] false 0) 6);
              call_covType := 0 |}].
Proof.
  apply (run_iteration_without_repeat_limit (recording quiet_dispatch) 0 1 0
           (set_pos (new_context four_progs [] false 0) 6) initial_world);
    [exact recording_quiet_dispatch_records | simpl; lia | reflexivity
    | discriminate | simpl; lia].
Defined.

(** ** The cursor on an empty list, and its progress line *)

(** X18: [main] does not guard the original pool against an empty
    program list.  It returns early only when both lists are empty; when
    the original list is empty and the reverse list is not, it starts the
    original pool, and the first iteration of its first worker panics in
    [getProgramIndex] with an integer division by zero, before anything
    is dispatched. *)
Theorem empty_original_list_panics
    (flags : FlagSet) (env : Env) (dispatch : dispatcher) (inp : MainInput)
    (now1 now2 : Z) (w : World) :
  in_progs inp = [] ->
  in_reverseProgs inp <> [] ->
  0 < flagProcs flags ->
  MakeEnv_ok env 0 = true ->
  exists s0 w0,
    main_start flags inp w = Ret (Some s0) w0 /\
    sys_run flags env dispatch inp [ActMain; ActOrig 0 now1; ActOrig 0 now2] s0 w0
    = Panic "integer divide by zero" w0.
Proof.
  intros Hprogs Hrev Hprocs Henv.
  unfold main_start. rewrite Hprogs.
  assert (Hlen : (len (in_reverseProgs inp) =? 0) = false).
  { apply Z.eqb_neq. unfold len. destruct (in_reverseProgs inp); [done|].
    simpl length. lia. }
  rewrite Hlen, andb_false_r.
  unfold bind at 1, Logf. rewrite emit_add.
  destruct (Z.ltb_spec (flagProcs flags) 0) as [E|_]; [lia|].
  eexists _, _. split; [reflexivity|].
  cbn [sys_run]. unfold bind at 1.
  unfold sys_step at 1. cbn [main_at exited main_step].
  destruct (Z.ltb_spec 0 (flagProcs flags)) as [_|E]; [|lia].
  unfold ret at 1. unfold bind at 1.
  unfold sys_step at 1.
  cbn [main_at exited origPool spawn workers pool_ctx app].
  unfold worker_turn at 1. cbn [workers lookup list_lookup].
  change (Z.of_nat 0) with 0. rewrite Henv.
  unfold bind at 1 2, ret at 1 2. cbn [fst snd].
  unfold bind at 1. unfold sys_step at 1.
  cbn [main_at exited origPool workers pool_ctx list_insert insert].
  unfold worker_turn at 1. cbn [workers lookup list_lookup pool_ctx].
  unfold run_iteration, new_context. cbn [shutdown].
  unfold getProgramIndex. cbn [progs set_pos len length Z.of_nat Z.eqb].
  reflexivity.
Qed.

Lemma empty_original_list_panics_witness :
  exists s0 w0,
    main_start dual_flags
      {| in_progs := []; in_fileNameList := [];
         in_reverseProgs := [ {| Serialize := "getpid()" |} ];
         in_reverseFileNameList := ["p0.rev"]; in_debug := false |}
      initial_world = Ret (Some s0) w0 /\
    sys_run dual_flags plain_env quiet_dispatch
      {| in_progs := []; in_fileNameList := [];
         in_reverseProgs := [ {| Serialize := "getpid()" |} ];
         in_reverseFileNameList := ["p0.rev"]; in_debug := false |}
      [ActMain; ActOrig 0 1; ActOrig 0 2] s0 w0
    = Panic "integer divide by zero" w0.
Proof.
  apply (empty_original_list_panics dual_flags plain_env quiet_dispatch
           {| in_progs := []; in_fileNameList := [];
              in_reverseProgs := [ {| Serialize := "getpid()" |} ];
              in_reverseFileNameList := ["p0.rev"]; in_debug := false |}
           1 2 initial_world);
    [reflexivity | discriminate | reflexivity | reflexivity].
Defined.

(** X19: the progress line is rate-limited.  In a sequence of draws
    whose clock readings all lie within five seconds of the last progress
    line, no draw logs anything (not even those at the start of a round),
    the world stays as it is, and the time of the last line is kept. *)
Theorem getProgramIndex_progress_line_rate_limit
    (calls : list (Z * Z)) (ctx : Context) (t : Z) (w : World) :
  progs ctx <> [] ->
  lastPrint ctx = Some t ->
  (forall c, c ∈ calls -> c.2 - t <= 5 * Second) ->
  exists idxs ctx',
    getProgramIndex_calls calls ctx w = Ret (idxs, ctx') w /\
    lastPrint ctx' = Some t /\
    length idxs = length calls.
Proof.
  revert ctx. induction calls as [|[pid now] rest IH]; intros ctx Hne Hlast Hnear.
  - by exists [], ctx.
  - assert (Hone : getProgramIndex now ctx w
                   = Ret (pos ctx, set_pos ctx (int_add (pos ctx) 1)) w).
    { unfold getProgramIndex. cbn [progs set_pos lastPrint].
      rewrite len_zero_nil, bool_decide_eq_false_2 by done.
      rewrite Hlast. unfold Since.
      specialize (Hnear (pid, now) ltac:(by left)). cbn [snd] in Hnear.
      destruct (Z.gtb_spec (now - t) (5 * Second)) as [E|_]; [lia|].
      by rewrite andb_false_r. }
    destruct (IH (set_pos ctx (int_add (pos ctx) 1)) Hne Hlast)
      as (idxs & ctx' & Hrest & Hlast' & Hlen).
    { intros c Hc. apply Hnear. by right. }
    exists (pos ctx :: idxs), ctx'. split.
    + cbn [getProgramIndex_calls]. unfold bind at 1. rewrite Hone. cbn [fst snd].
      unfold bind. by rewrite Hrest.
    + split; [done|]. simpl. by rewrite Hlen.
Qed.

Lemma getProgramIndex_progress_line_rate_limit_witness :
  exists idxs ctx',
    getProgramIndex_calls [(0, 11); (1, 12); (0, 14)]
      (set_lastPrint four_progs_context 10) initial_world
    = Ret (idxs, ctx') initial_world /\
    lastPrint ctx' = Some 10 /\
    length idxs = length [(0, 11); (1, 12); (0, 14)].
Proof.
  apply (getProgramIndex_progress_line_rate_limit [(0, 11); (1, 12); (0, 14)]
           (set_lastPrint four_progs_context 10) 10 initial_world);
    [discriminate | reflexivity |].
  intros c Hc. unfold Second.
  repeat (apply elem_of_cons in Hc as [->|Hc]; [simpl; lia|]).
  by apply elem_of_nil in Hc.
Defined.

(** ** The reverse pool and the report *)

Lemma count_done_le ws : (count_done ws <= length ws)%nat.
Proof. unfold count_done. apply length_filter. Qed.

Lemma main_start_rev_inv flags inp w s w' :
  main_start flags inp w = Ret (Some s) w' -> rev_inv flags s.
Proof.
  unfold main_start.
  destruct ((len (in_progs inp) =? 0) && (len (in_reverseProgs inp) =? 0));
    [discriminate|].
  unfold bind, Logf. rewrite emit_add.
  destruct (flagProcs flags <? 0); [discriminate|].
  intros [= <- <-]. by unfold rev_inv.
Qed.

Lemma main_step_rev_inv flags env inp s w s' w' :
  sys_inv flags s ->
  rev_inv flags s ->
  main_step flags env inp s w = Ret s' w' ->
  rev_inv flags s'.
Proof.
  intros [_ Hsys] Hrev Hstep. unfold main_step in Hstep. unfold rev_inv in *.
  destruct (main_at s) as [p| | |p| | |] eqn:Hat.
  - destruct (p <? flagProcs flags); injection Hstep as <- <-;
      cbn [revPool main_at revWg]; by destruct (revPool s).
  - destruct (wg s =? 0); injection Hstep as <- <-;
      cbn [revPool main_at revWg]; rewrite ?Hat; by destruct (revPool s).
  - destruct (revPool s) as [pl|]; [by destruct Hrev as (_ & _ & ?)|].
    destruct Hrev as [Hz _]. destruct Hsys as [Hlen _].
    destruct (flagSemantic flags) eqn:Hsem; injection Hstep as <- <-;
      cbn [revPool main_at revWg workers]; [|done].
    change (count_done []) with 0%nat. unfold len in *. simpl length.
    repeat split; lia.
  - destruct (revPool s) as [pl|]; [|by destruct Hrev].
    destruct Hrev as (Hsem & Hwg & Hp & Hlen).
    destruct (Z.ltb_spec p (flagProcs flags)); injection Hstep as <- <-;
      cbn [revPool main_at revWg fmap option_fmap option_map spawn workers].
    + rewrite count_done_snoc, decide_False by discriminate.
      unfold len in *. rewrite length_app. simpl length.
      repeat split; try done; lia.
    + repeat split; try done; lia.
  - destruct (revPool s) as [pl|] eqn:Hpool; [|by destruct Hrev].
    destruct Hrev as (Hsem & Hwg & Hlen).
    destruct (Z.eqb_spec (revWg s) 0) as [Hz|Hnz]; injection Hstep as <- <-;
      cbn [revPool main_at revWg]; rewrite ?Hpool, ?Hat; [|done].
    repeat split; try done.
    apply count_done_full. unfold len in Hlen. lia.
  - assert (Hdone : rev_inv flags
                      {| main_at := MainExit; wg := wg s; revWg := revWg s;
                         origPool := origPool s; revPool := revPool s |}).
    { unfold rev_inv. cbn [revPool main_at revWg]. by destruct (revPool s). }
    destruct (flagSemantic flags && negb (flagCoverFile flags =? "")%string).
    + unfold bind in Hstep.
      destruct (saveToFile env (flagCoverFile flags ++ "_Evaluation_Results") w)
        as [[e|] w1| | |]; try discriminate.
      unfold Logf in Hstep. rewrite emit_add in Hstep.
      cbv beta iota in Hstep. unfold ret in Hstep.
      by injection Hstep as <- <-.
    + by injection Hstep as <- <-.
  - injection Hstep as <- <-. by rewrite Hat.
Qed.

Lemma sys_step_rev_inv flags env dispatch inp a s w s' w' :
  sys_inv flags s ->
  rev_inv flags s ->
  sys_step flags env dispatch inp a s w = Ret s' w' ->
  rev_inv flags s'.
Proof.
  intros Hsys Hrev Hstep. unfold sys_step in Hstep.
  destruct (exited (main_at s)); [by injection Hstep as <- <-|].
  destruct a as [|pid now|pid now|].
  - by eapply main_step_rev_inv.
  - unfold bind in Hstep.
    destruct (worker_turn dispatch env 0 pid now (origPool s) w)
      as [[b pl'] w1| | |]; try discriminate.
    injection Hstep as <- <-. exact Hrev.
  - unfold rev_inv in *.
    destruct (revPool s) as [pl|] eqn:Hpool;
      [|injection Hstep as <- <-; by rewrite Hpool].
    unfold bind in Hstep.
    destruct (worker_turn dispatch env 1 pid now pl w)
      as [[b pl'] w1| | |] eqn:Hturn; try discriminate.
    injection Hstep as <- <-. cbn [revPool main_at revWg fst snd].
    destruct (worker_turn_count _ _ _ _ _ _ _ _ _ _ Hturn) as [Hlen Hcnt].
    destruct Hrev as (Hsem & Hwg & Hpc).
    split; [done|]. split; [destruct b; lia|].
    unfold len, all_returned in *. rewrite Hlen.
    destruct (main_at s); try done.
    all: destruct Hpc as [Hl Hall]; split; [done|];
         apply count_done_full;
         pose proof (count_done_all _ Hall);
         pose proof (count_done_le (workers pl'));
         destruct b; lia.
  - injection Hstep as <- <-. unfold rev_inv in *.
    cbn [revPool main_at revWg].
    destruct (revPool s) as [pl|];
      destruct (rev_handler_installed (main_at s)); done.
Qed.

Lemma sys_run_invs flags env dispatch inp acts : forall s w s' w',
  sys_inv flags s ->
  rev_inv flags s ->
  sys_run flags env dispatch inp acts s w = Ret s' w' ->
  sys_inv flags s' /\ rev_inv flags s'.
Proof.
  induction acts as [|a rest IH]; intros s w s' w' Hsys Hrev Hrun.
  - by injection Hrun as <- <-.
  - simpl in Hrun. unfold bind in Hrun.
    destruct (sys_step flags env dispatch inp a s w) as [s1 w1| | |] eqn:Hstep;
      try discriminate.
    eapply IH; [| |exact Hrun].
    + by eapply sys_step_inv.
    + by eapply sys_step_rev_inv.
Qed.

Lemma reachable_invs flags env dispatch inp w0 s0 w1 acts s w :
  main_start flags inp w0 = Ret (Some s0) w1 ->
  sys_run flags env dispatch inp acts s0 w1 = Ret s w ->
  sys_inv flags s /\ rev_inv flags s.
Proof.
  intros Hstart Hrun. eapply sys_run_invs; [| |exact Hrun].
  - by eapply main_start_inv.
  - by eapply main_start_rev_inv.
Qed.

(** X20: the wait-group counters stay in range.  In every run, under
    every interleaving, [wg] and [revWg] lie between 0 and [-procs]: no
    deferred [Done] drives a counter below zero, so the only wait-group
    panic is that of a negative [-procs] at the first [Add]. *)
Theorem wait_group_counters_in_range
    (flags : FlagSet) (env : Env) (dispatch : dispatcher) (inp : MainInput)
    (w0 : World) (s0 : Sys) (w1 : World) (acts : list action)
    (s : Sys) (w : World) :
  main_start flags inp w0 = Ret (Some s0) w1 ->
  sys_run flags env dispatch inp acts s0 w1 = Ret s w ->
  0 <= wg s <= flagProcs flags /\ 0 <= revWg s <= flagProcs flags.
Proof.
  intros Hstart Hrun.
  destruct (reachable_invs _ _ _ _ _ _ _ _ _ _ Hstart Hrun) as [[Hwg Hsys] Hrev].
  pose proof (count_done_le (workers (origPool s))) as Hle.
  assert (Hprocs : len (workers (origPool s)) <= flagProcs flags).
  { destruct (main_at s); try (destruct Hsys as [Hl _]; lia).
    - destruct Hsys as (? & ? & _). lia. }
  split; [unfold len in *; lia|].
  unfold rev_inv in Hrev. destruct (revPool s) as [pl|].
  - destruct Hrev as (_ & Hrwg & Hpc).
    pose proof (count_done_le (workers pl)).
    assert (len (workers pl) <= flagProcs flags).
    { destruct (main_at s); try done; try lia; destruct Hpc; lia. }
    unfold len in *. lia.
  - destruct Hrev as [-> _]. unfold len in *. lia.
Qed.

Lemma wait_group_counters_in_range_witness :
  match main_start dual_flags dual_input initial_world with
  | Ret (Some s0) w1 =>
      match sys_run dual_flags plain_env quiet_dispatch dual_input
              dual_actions s0 w1 with
      | Ret s w =>
          0 <= wg s <= flagProcs dual_flags /\
          0 <= revWg s <= flagProcs dual_flags
      | _ => False
      end
  | _ => False
  end.
Proof.
  pose proof (wait_group_counters_in_range dual_flags plain_env quiet_dispatch
                dual_input initial_world) as H.
  destruct (main_start dual_flags dual_input initial_world)
    as [[s0|] w1| | |] eqn:Hstart; try (vm_compute in Hstart; discriminate).
  specialize (H s0 w1 dual_actions).
  pose proof Hstart as Hs. vm_compute in Hs. injection Hs as <- <-.
  destruct (sys_run dual_flags plain_env quiet_dispatch dual_input dual_actions _ _)
    as [s w| | |] eqn:Hrun; try (vm_compute in Hrun; discriminate).
  exact (H s w eq_refl eq_refl).
Defined.

(** X21: the report is written after both pools have finished.  In
    every run, once the main goroutine stands at the report (or has
    left), every original worker has returned, and so has every worker of
    the reverse pool, all [-procs] of them; there is no reverse pool only
    when [-semantic] is not given. *)
Theorem report_after_both_pools_returned
    (flags : FlagSet) (env : Env) (dispatch : dispatcher) (inp : MainInput)
    (w0 : World) (s0 : Sys) (w1 : World) (acts : list action)
    (s : Sys) (w : World) :
  main_start flags inp w0 = Ret (Some s0) w1 ->
  sys_run flags env dispatch inp acts s0 w1 = Ret s w ->
  main_at s = MainReport \/ main_at s = MainExit ->
  orig_workers_returned flags s /\
  match revPool s with
  | Some pl => len (workers pl) = flagProcs flags /\ all_returned pl
  | None => flagSemantic flags = false
  end.
Proof.
  intros Hstart Hrun Hat.
  destruct (reachable_invs _ _ _ _ _ _ _ _ _ _ Hstart Hrun) as [[_ Hsys] Hrev].
  unfold rev_inv in Hrev.
  split.
  - by destruct Hat as [Hat|Hat]; rewrite Hat in Hsys.
  - destruct (revPool s) as [pl|].
    + destruct Hrev as (_ & _ & Hpc). by destruct Hat as [Hat|Hat]; rewrite Hat in Hpc.
    + destruct Hrev as (_ & Hpc). by destruct Hat as [Hat|Hat]; rewrite Hat in Hpc.
Qed.

Lemma report_after_both_pools_returned_witness :
  match main_start dual_flags dual_input initial_world with
  | Ret (Some s0) w1 =>
      match sys_run dual_flags plain_env quiet_dispatch dual_input
              dual_full_actions s0 w1 with
      | Ret s w =>
          main_at s = MainReport /\
          orig_workers_returned dual_flags s /\
          match revPool s with
          | Some pl => len (workers pl) = flagProcs dual_flags /\ all_returned pl
          | None => flagSemantic dual_flags = false
          end
      | _ => False
      end
  | _ => False
  end.
Proof.
  pose proof (report_after_both_pools_returned dual_flags plain_env
                quiet_dispatch dual_input initial_world) as H.
  destruct (main_start dual_flags dual_input initial_world)
    as [[s0|] w1| | |] eqn:Hstart; try (vm_compute in Hstart; discriminate).
  specialize (H s0 w1 dual_full_actions).
  pose proof Hstart as Hs. vm_compute in Hs. injection Hs as <- <-.
  destruct (sys_run dual_flags plain_env quiet_dispatch dual_input
              dual_full_actions _ _)
    as [s w| | |] eqn:Hrun; try (vm_compute in Hrun; discriminate).
  assert (Hat : main_at s = MainReport).
  { pose proof Hrun as Hr. vm_compute in Hr. by injection Hr as <- <-. }
  split; [exact Hat|].
  exact (H s w eq_refl eq_refl (or_introl Hat)).
Defined.

(** X22: without [-semantic] the reverse pool is never constructed.  In
    every run the reverse context stays absent and [revWg] stays 0, and a
    turn given to a reverse worker changes nothing. *)
Theorem no_reverse_pool_without_semantic
    (flags : FlagSet) (env : Env) (dispatch : dispatcher) (inp : MainInput)
    (w0 : World) (s0 : Sys) (w1 : World) (acts : list action)
    (s : Sys) (w : World) :
  flagSemantic flags = false ->
  main_start flags inp w0 = Ret (Some s0) w1 ->
  sys_run flags env dispatch inp acts s0 w1 = Ret s w ->
  revPool s = None /\ revWg s = 0 /\
  forall pid now, sys_step flags env dispatch inp (ActRev pid now) s w = Ret s w.
Proof.
  intros Hsem Hstart Hrun.
  destruct (reachable_invs _ _ _ _ _ _ _ _ _ _ Hstart Hrun) as [_ Hrev].
  unfold rev_inv in Hrev.
  destruct (revPool s) as [pl|] eqn:Hpool.
  - destruct Hrev as [Hs _]. congruence.
  - destruct Hrev as [Hz _]. split; [done|]. split; [done|].
    intros pid now. unfold sys_step. rewrite Hpool.
    by destruct (exited (main_at s)).
Qed.

Lemma no_reverse_pool_without_semantic_witness :
  match main_start (retry_flags "" 10) dual_input initial_world with
  | Ret (Some s0) w1 =>
      match sys_run (retry_flags "" 10) plain_env quiet_dispatch dual_input
              dual_full_actions s0 w1 with
      | Ret s w =>
          revPool s = None /\ revWg s = 0 /\
          forall pid now,
            sys_step (retry_flags "" 10) plain_env quiet_dispatch dual_input
              (ActRev pid now) s w = Ret s w
      | _ => False
      end
  | _ => False
  end.
Proof.
  pose proof (no_reverse_pool_without_semantic (retry_flags "" 10) plain_env
                quiet_dispatch dual_input initial_world) as H.
  destruct (main_start (retry_flags "" 10) dual_input initial_world)
    as [[s0|] w1| | |] eqn:Hstart; try (vm_compute in Hstart; discriminate).
  specialize (H s0 w1 dual_full_actions).
  pose proof Hstart as Hs. vm_compute in Hs. injection Hs as <- <-.
  destruct (sys_run (retry_flags "" 10) plain_env quiet_dispatch dual_input
              dual_full_actions _ _)
    as [s w| | |] eqn:Hrun; try (vm_compute in Hrun; discriminate).
  exact (H s w eq_refl eq_refl eq_refl).
Defined.

(** ** Cover files are named after the sources *)

Lemma loaded_singletons src paths :
  Forall (fun fn => length (source_programs src fn) = 1%nat) paths ->
  length (loaded src paths) = length paths /\
  forall (i : nat) path,
    paths !! i = Some path ->
    exists p, loaded src paths !! i = Some p /\ source_programs src path = [p].
Proof.
  induction 1 as [|fn rest Hfn _ [IHlen IH]]; [by split|].
  unfold loaded in *.
  change (mjoin (map (source_programs src) (fn :: rest)))
    with (app (source_programs src fn) (mjoin (map (source_programs src) rest))).
  destruct (source_programs src fn) as [|p [|q l]] eqn:Hsrc; try done.
  cbn [app length]. split; [by rewrite IHlen|].
  intros [|i] path Hi; cbn [lookup list_lookup] in *.
  - injection Hi as <-. by exists p.
  - by apply IH.
Qed.

(** X23: with [-progdir], when every source is readable and contributes
    exactly one program, the loader returns one program per source, in
    order, and the coverage of the program at position [i] goes to the
    cover file named after the [i]-th file name.  (The names are looked
    up by program position, so the pairing rests on that one-to-one
    correspondence.) *)
Theorem progdir_cover_file_named_after_source
    (flags : FlagSet) (src : Sources) (paths names : list string)
    (debug : bool) (rep : Z) (w : World) :
  flagProgDir flags <> "" ->
  length names = length paths ->
  Forall (fun fn => readable src fn /\
                    length (source_programs src fn) = 1%nat) paths ->
  exists ps w',
    loadPrograms src paths w = Ret ps w' /\
    length ps = length paths /\
    forall (i : nat) path name,
      paths !! i = Some path ->
      names !! i = Some name ->
      (exists p, ps !! i = Some p /\ source_programs src path = [p]) /\
      forall w2,
        covFile_name flags (new_context ps names debug rep) (Z.of_nat i) w2
        = Ret (flagCoverFile flags ++ "_" ++ name) w2.
Proof.
  intros Hdir Hlen Hall.
  apply Forall_and in Hall as [Hread Hone].
  destruct (loaded_singletons src paths Hone) as [Hlen' Hnth].
  exists (loaded src paths). eexists. split.
  { unfold loadPrograms, bind. rewrite loadPrograms_from_readable by done.
    unfold Logf. rewrite emit_add. reflexivity. }
  split; [done|].
  intros i path name Hi Hname. split; [by apply Hnth|].
  intros w2. unfold covFile_name, new_context. cbn [progFns].
  destruct (String.eqb_spec (flagProgDir flags) "") as [E|_]; [done|]. simpl negb.
  cbv iota.
  pose proof (lookup_lt_Some _ _ _ Hname) as Hlt.
  destruct (Z.eqb_spec (len names) 0) as [E|_]; [unfold len in E; lia|].
  rewrite Z.rem_mod_nonneg by (unfold len; lia).
  rewrite Z.mod_small by (unfold len; lia).
  unfold index. destruct (Z.ltb_spec (Z.of_nat i) 0) as [E|_]; [lia|].
  by rewrite Nat2Z.id, Hname.
Qed.

Lemma progdir_cover_file_named_after_source_witness :
  exists ps w',
    loadPrograms two_sources ["corpus.db"] initial_world = Ret ps w' /\
    length ps = length ["corpus.db"] /\
    forall (i : nat) path name,
      ["corpus.db"] !! i = Some path ->
      ["corpus"] !! i = Some name ->
      (exists p, ps !! i = Some p /\ source_programs two_sources path = [p]) /\
      forall w2,
        covFile_name (retry_flags "progs" 1) (new_context ps ["corpus"] false 1)
          (Z.of_nat i) w2
        = Ret (flagCoverFile (retry_flags "progs" 1) ++ "_" ++ name) w2.
Proof.
  apply (progdir_cover_file_named_after_source (retry_flags "progs" 1)
           two_sources ["corpus.db"] ["corpus"] false 1 initial_world);
    [discriminate | reflexivity |].
  constructor; [|constructor].
  split; [left; by eexists | reflexivity].
Defined.

(** ** A dispatch without [-coverfile] *)

Section Stable.
Variable R : World -> World -> Prop.
Hypothesis R_refl : forall w, R w w.
Hypothesis R_trans : forall w1 w2 w3, R w1 w2 -> R w2 w3 -> R w1 w3.

Lemma stable_ret {A} (a : A) : stable R (ret a).
Proof. intros w. apply R_refl. Qed.

Lemma stable_panic {A} msg : stable R (@panic A msg).
Proof. intros w. apply R_refl. Qed.

Lemma stable_bind {A B} (m : M A) (k : A -> M B) :
  stable R m -> (forall a, stable R (k a)) -> stable R (bind m k).
Proof.
  intros Hm Hk w. unfold bind. specialize (Hm w).
  destruct (m w) as [a w1|msg w1|msg w1|]; try done.
  specialize (Hk a w1).
  destruct (k a w1) as [b w2|msg w2|msg w2|]; try done; by eapply R_trans.
Qed.

Lemma stable_defer {A} (body : M A) (f : M unit) :
  stable R body -> stable R f -> stable R (defer body f).
Proof.
  intros Hb Hf w. unfold defer. specialize (Hb w).
  destruct (body w) as [a w1|msg w1|msg w1|]; try done.
  - unfold bind, ret. specialize (Hf w1).
    destruct (f w1) as [[] w2|msg w2|msg w2|]; try done; by eapply R_trans.
  - specialize (Hf w1).
    destruct (f w1) as [[] w2|msg2 w2|msg2 w2|]; try done. by eapply R_trans.
Qed.
End Stable.

Lemma no_artifacts_refl w : no_artifacts w w.
Proof. split; [done|]. exists []. by rewrite app_nil_r. Qed.

Lemma no_artifacts_trans w1 w2 w3 :
  no_artifacts w1 w2 -> no_artifacts w2 w3 -> no_artifacts w1 w3.
Proof.
  intros [Hc1 (e1 & Ht1 & Hp1)] [Hc2 (e2 & Ht2 & Hp2)]. split; [congruence|].
  exists (app e1 e2). split; [by rewrite Ht2, Ht1, app_assoc|].
  by apply Forall_app.
Qed.

Lemma no_artifacts_emit e :
  is_file_event e = false -> stable no_artifacts (emit e).
Proof.
  intros He w. split; [done|]. exists [e]. split; [done|]. by constructor.
Qed.

Lemma no_artifacts_Fatalf {A} msg : stable no_artifacts (@Fatalf A msg).
Proof.
  intros w. split; [done|]. exists [EvLog 0 msg]. split; [done|]. by constructor.
Qed.

Lemma no_artifacts_bind {A B} (m : M A) (k : A -> M B) :
  stable no_artifacts m -> (forall a, stable no_artifacts (k a)) ->
  stable no_artifacts (bind m k).
Proof. apply stable_bind, no_artifacts_trans. Qed.

Lemma no_artifacts_ret {A} (a : A) : stable no_artifacts (ret a).
Proof. apply stable_ret, no_artifacts_refl. Qed.

Lemma no_artifacts_for_each {A} (xs : list A) (body : A -> M unit) :
  (forall x, stable no_artifacts (body x)) ->
  stable no_artifacts (for_each xs body).
Proof.
  intros Hbody. induction xs as [|x rest IH]; simpl; [apply no_artifacts_ret|].
  apply no_artifacts_bind; [apply Hbody | intros _; apply IH].
Qed.

Lemma no_artifacts_printHints flags env p info :
  stable no_artifacts (printHints flags env p info).
Proof.
  assert (H : forall n i ncomps ncandidates,
            stable no_artifacts
              (printHints_from flags env p info i n ncomps ncandidates));
    [|apply H].
  induction n as [|n IH]; intros i ncomps ncandidates; simpl;
    [by apply no_artifacts_emit|].
  apply no_artifacts_bind.
  { destruct (flagOutput flags);
      [by apply no_artifacts_emit | apply no_artifacts_ret]. }
  intros _. destruct (index (Calls info) i) as [inf|];
    [|apply stable_panic, no_artifacts_refl].
  apply no_artifacts_bind.
  { destruct (flagOutput flags); [|apply no_artifacts_ret].
    apply no_artifacts_for_each. intros c. unfold print_comp.
    apply no_artifacts_bind; [by apply no_artifacts_emit|]. intros _.
    apply no_artifacts_bind; [|intros _; by apply no_artifacts_emit].
    apply no_artifacts_for_each. intros arg. by apply no_artifacts_emit. }
  intros _. apply no_artifacts_bind; [|intros _; apply IH].
  destruct (flagOutput flags); [|apply no_artifacts_ret].
  apply no_artifacts_for_each. intros c. by apply no_artifacts_emit.
Qed.

Section NoCoverFile.
Variables (flags : FlagSet) (env : Env) (ctx : Context).
Variables (exec : Z -> ExecResult) (p : Prog) (progIndex covType : Z).
Hypothesis no_coverfile : flagCoverFile flags = "".

Lemma no_artifacts_execute_success r :
  stable no_artifacts (execute_success flags env ctx p progIndex covType r).
Proof.
  unfold execute_success. rewrite no_coverfile. apply no_artifacts_bind.
  { destruct (cfgDebug ctx || _); [by apply no_artifacts_emit | apply no_artifacts_ret]. }
  intros _. destruct (ex_info r) as [info|]; [|by apply no_artifacts_emit].
  apply no_artifacts_bind.
  { unfold printCallResults. generalize 0.
    induction (Calls info) as [|inf rest IH]; intros i; simpl; [apply no_artifacts_ret|].
    apply no_artifacts_bind; [|intros _; apply IH].
    unfold printCallResult. destruct (N.land (Flags inf) CallExecuted =? 0)%N;
      [apply no_artifacts_ret | by apply no_artifacts_emit]. }
  intros _. apply no_artifacts_bind.
  { destruct (flagHints flags);
      [apply no_artifacts_printHints | apply no_artifacts_ret]. }
  intros _. simpl. apply no_artifacts_ret.
Qed.

Lemma no_artifacts_execute_loop fuel : forall try,
  stable no_artifacts
    (execute_loop fuel flags env ctx exec p progIndex covType try).
Proof.
  induction fuel as [|fuel IH]; intros try; [by intros w|].
  simpl. destruct (is_failure _); [|apply no_artifacts_execute_success].
  destruct (try >? flagMaxRetry flags).
  - destruct (negb _); [|apply no_artifacts_Fatalf].
    apply no_artifacts_bind; [by apply no_artifacts_emit|]. intros _.
    apply no_artifacts_bind; [by apply no_artifacts_emit|]. intros _.
    intros w. split; [done|]. exists []. by rewrite app_nil_r.
  - apply no_artifacts_bind; [by apply no_artifacts_emit|]. intros _.
    apply no_artifacts_bind; [by apply no_artifacts_emit|]. intros _.
    apply IH.
Qed.

Lemma no_artifacts_execute fuel pid :
  stable no_artifacts (execute fuel flags env ctx exec pid p progIndex covType).
Proof.
  unfold execute. apply no_artifacts_bind; [by apply no_artifacts_emit|]. intros _.
  apply (stable_defer no_artifacts no_artifacts_trans);
    [|by apply no_artifacts_emit].
  apply no_artifacts_bind; [|intros _; apply no_artifacts_execute_loop].
  destruct (flagOutput flags); [by apply no_artifacts_emit | apply no_artifacts_ret].
Qed.
End NoCoverFile.

(** X24: without [-coverfile] a dispatch leaves no artifact.  Whatever
    the executor returns and however the dispatch ends, it touches no
    file and stores no coverage record: all it adds to the trace are log
    lines, sleeps, the gate moves and the text [printHints] prints. *)
Theorem execute_without_coverfile_leaves_no_artifact
    (fuel : nat) (flags : FlagSet) (env : Env) (ctx : Context)
    (exec : Z -> ExecResult) (pid : Z) (p : Prog) (progIndex covType : Z)
    (w : World) :
  flagCoverFile flags = "" ->
  match execute fuel flags env ctx exec pid p progIndex covType w with
  | Ret _ w' | Fatal _ w' | Panic _ w' =>
      coverRecord w' = coverRecord w /\
      exists evs, trace w' = app (trace w) evs /\
                  Forall (fun e => is_file_event e = false) evs
  | OutOfFuel => True
  end.
Proof.
  intros Hcf.
  exact (no_artifacts_execute flags env ctx exec p progIndex covType Hcf fuel pid w).
Qed.

Lemma execute_without_coverfile_leaves_no_artifact_witness :
  match execute 1 (retry_flags "" 10) plain_env one_prog_context
          (mock_executor 0) 0 {| Serialize := "getpid()" |} 0 0 initial_world with
  | Ret _ w' | Fatal _ w' | Panic _ w' =>
      coverRecord w' = coverRecord initial_world /\
      exists evs, trace w' = app (trace initial_world) evs /\
                  Forall (fun e => is_file_event e = false) evs
  | OutOfFuel => True
  end.
Proof.
  exact (execute_without_coverfile_leaves_no_artifact 1 (retry_flags "" 10)
           plain_env one_prog_context (mock_executor 0) 0
           {| Serialize := "getpid()" |} 0 0 initial_world eq_refl).
Defined.

(** ** A successful dispatch records its coverage *)

Lemma printCallResults_run info w :
  exists evs, printCallResults info w = Ret tt (add_events w evs).
Proof.
  unfold printCallResults. generalize 0. revert w.
  induction (Calls info) as [|inf rest IH]; intros w i; simpl.
  - exists []. unfold ret. by rewrite add_events_nil.
  - unfold bind, printCallResult.
    destruct (N.land (Flags inf) CallExecuted =? 0)%N.
    + apply IH.
    + unfold Logf. rewrite emit_add.
      destruct (IH (add_events w [EvLog 1
                      ("CALL " ++ itoa i ++ ": signal " ++ itoa (len (Signal inf))
                       ++ ", coverage " ++ itoa (len (Cover inf))
                       ++ " errno " ++ itoa (Errno inf)
                       ++ (if (N.land (Flags inf) CallFinished =? 0)%N
                           then " unfinished" else "")
                       ++ (if negb (N.land (Flags inf) CallBlocked =? 0)%N
                           then " blocked" else "")
                       ++ (if negb (N.land (Flags inf) CallFaultInjected =? 0)%N
                           then " faulted" else ""))]) (i + 1))
        as (evs & ->).
      eexists. by rewrite add_events_app.
Qed.

Lemma adds_ret : adds (ret tt).
Proof. intros w. exists []. unfold ret. by rewrite add_events_nil. Qed.

Lemma adds_emit e : adds (emit e).
Proof. intros w. exists [e]. apply emit_add. Qed.

Lemma adds_bind (m k : M unit) : adds m -> adds k -> adds (m ;;; k).
Proof.
  intros Hm Hk w. unfold bind. destruct (Hm w) as (evs1 & ->).
  destruct (Hk (add_events w evs1)) as (evs2 & ->).
  eexists. by rewrite add_events_app.
Qed.

Lemma adds_for_each {A} (xs : list A) (body : A -> M unit) :
  (forall x, adds (body x)) -> adds (for_each xs body).
Proof.
  intros Hbody. induction xs as [|x rest IH]; simpl; [apply adds_ret|].
  by apply adds_bind.
Qed.

(** When the executor reported at least as many calls as the program
    has, [printHints] returns. *)
Lemma printHints_run flags env p info :
  (NumCalls env p <= length (Calls info))%nat ->
  adds (printHints flags env p info).
Proof.
  intros Hlen.
  assert (H : forall n (i : nat) ncomps ncandidates,
            (i + n <= length (Calls info))%nat ->
            adds (printHints_from flags env p info (Z.of_nat i) n
                    ncomps ncandidates)).
  { induction n as [|n IH]; intros i ncomps ncandidates Hi; simpl;
      [apply adds_emit|].
    apply adds_bind.
    { destruct (flagOutput flags); [apply adds_emit | apply adds_ret]. }
    unfold index. destruct (Z.ltb_spec (Z.of_nat i) 0) as [E|_]; [lia|].
    rewrite Nat2Z.id.
    destruct (lookup_lt_is_Some_2 (Calls info) i ltac:(lia)) as [inf ->].
    apply adds_bind.
    { destruct (flagOutput flags); [|apply adds_ret].
      apply adds_for_each. intros c. unfold print_comp.
      apply adds_bind; [apply adds_emit|].
      apply adds_bind; [|apply adds_emit].
      apply adds_for_each. intros arg. apply adds_emit. }
    apply adds_bind.
    { destruct (flagOutput flags); [|apply adds_ret].
      apply adds_for_each. intros c. apply adds_emit. }
    replace (Z.of_nat i + 1) with (Z.of_nat (S i)) by lia.
    apply IH. lia. }
  apply (H (NumCalls env p) 0%nat). lia.
Qed.

(** X25: a dispatch whose first attempt succeeds records its coverage.
    With [-coverfile] and without [-progdir], when every write succeeds
    and the executor returns call information at the first attempt (with
    [-hints]: for at least as many calls as the program has, or
    [printHints] would run out of the reported calls), a dispatch of the
    original pool returns without retry, writes the [.total] artifact of
    the cover file [<coverfile>_prog<tag>], and stores under that name
    (cut at a trailing [.rev]), if it has no entry yet, the number of
    distinct program counters, 0 for the reverse run still to come, and
    the number of calls.  The failure counter stays as it is. *)
Theorem execute_records_coverage
    (fuel : nat) (flags : FlagSet) (env : Env) (ctx : Context)
    (exec : Z -> ExecResult) (pid : Z) (p : Prog) (tag : Z)
    (info : ProgInfo) (w : World) :
  (forall name, WriteFile_ok env name = true) ->
  flagCoverFile flags <> "" ->
  flagProgDir flags = "" ->
  is_failure (ex_err (exec 0)) = false ->
  ex_info (exec 0) = Some info ->
  (flagHints flags = true -> (NumCalls env p <= length (Calls info))%nat) ->
  coverRecord w !! TrimSuffix (flagCoverFile flags ++ "_prog" ++ itoa tag) ".rev"
  = None ->
  exists w',
    execute (S fuel) flags env ctx exec pid p tag 0 w = Ret tt w' /\
    coverRecord w'
    = <[TrimSuffix (flagCoverFile flags ++ "_prog" ++ itoa tag) ".rev" :=
          (Z.of_nat (size (union_cover env info)), 0, len (Calls info))]>
        (coverRecord w) /\
    execFailCnt w' = execFailCnt w /\
    EvWriteFile (flagCoverFile flags ++ "_prog" ++ itoa tag ++ ".total")
      (total_buf env (total_cover env info).1.1) ∈ trace w'.
Proof.
  intros Hw Hcf Hdir Hok Hinfo Hcalls Hnone.
  set (name := flagCoverFile flags ++ "_prog" ++ itoa tag) in *.
  unfold execute, bind at 1. rewrite emit_add.
  assert (Hpre : exists evs0,
            forall k : unit -> M unit,
              ((if flagOutput flags then logProgram pid p else ret tt) ;;; k tt)
                (add_events w [EvGateEnter])
              = k tt (add_events w evs0)).
  { destruct (flagOutput flags).
    - eexists. intros k. unfold bind, logProgram, Logf.
      by rewrite emit_add, add_events_app.
    - eexists. intros k. reflexivity. }
  destruct Hpre as (evs0 & Hpre).
  unfold defer.
  rewrite (Hpre (fun _ => execute_loop (S fuel) flags env ctx exec p tag 0 0)).
  cbn [execute_loop]. rewrite Hok. unfold execute_success. rewrite Hinfo.
  assert (Hlog : exists evs1,
            (if cfgDebug ctx || bool_decide (is_Some (ex_err (exec 0)))
             then Logf 0 ("result: hanged="
                          ++ (if ex_hanged (exec 0) then "true" else "false")
                          ++ " err=" ++ from_option error_text "<nil>" (ex_err (exec 0))
                          ++ String "010" (String "010" (ex_output (exec 0))))
             else ret tt) (add_events w evs0)
            = Ret tt (add_events w evs1)).
  { destruct (cfgDebug ctx || _).
    - eexists. unfold Logf. by rewrite emit_add, add_events_app.
    - by eexists. }
  destruct Hlog as (evs1 & Hlog).
  unfold bind at 1. rewrite Hlog.
  destruct (printCallResults_run info (add_events w evs1)) as (evs2 & Hprint).
  unfold bind at 1. rewrite Hprint, add_events_app.
  assert (Hhints : exists evs3,
            (if flagHints flags then printHints flags env p info else ret tt)
              (add_events w (app evs1 evs2))
            = Ret tt (add_events w evs3)).
  { destruct (flagHints flags).
    - destruct (printHints_run flags env p info (Hcalls eq_refl)
                  (add_events w (app evs1 evs2))) as (evs & ->).
      eexists. by rewrite add_events_app.
    - by eexists. }
  destruct Hhints as (evs3 & Hhints).
  unfold bind at 1. rewrite Hhints.
  destruct (String.eqb_spec (flagCoverFile flags) "") as [E|_]; [done|].
  cbn [negb]. unfold covFile_name. rewrite Hdir. cbn [String.eqb negb].
  unfold bind at 1, ret at 1. fold name.
  destruct (dumpCoverage_files flags env Hw (pos ctx) name info 0
              (add_events w evs3))
    as (r1 & evs4 & Hrec & Hrun & Hfiles).
  rewrite recordCoverage_cases in Hrec. cbn [coverRecord add_events] in Hrec.
  rewrite Hnone in Hrec. cbn [Z.eqb] in Hrec. injection Hrec as <-.
  rewrite Hrun. unfold bind, ret. rewrite emit_add.
  eexists. split; [reflexivity|].
  cbn [coverRecord execFailCnt trace add_events set_record].
  split; [done|]. split; [done|].
  rewrite !elem_of_app. left. right.
  apply Hfiles. right. left. split; [|done].
  unfold name. by rewrite !string_app_assoc.
Qed.

Lemma execute_records_coverage_witness :
  exists w',
    execute 1 (hints_flags "cov" true) plain_env one_prog_context cover_executor 0
      {| Serialize := "getpid()" |} 0 0 initial_world = Ret tt w' /\
    coverRecord w'
    = <[TrimSuffix (flagCoverFile (hints_flags "cov" true) ++ "_prog" ++ itoa 0)
          ".rev" :=
          (Z.of_nat (size (union_cover plain_env overlap_info)), 0,
           len (Calls overlap_info))]>
        (coverRecord initial_world) /\
    execFailCnt w' = execFailCnt initial_world /\
    EvWriteFile (flagCoverFile (hints_flags "cov" true) ++ "_prog" ++ itoa 0
                 ++ ".total")
      (total_buf plain_env (total_cover plain_env overlap_info).1.1) ∈ trace w'.
Proof.
  apply (execute_records_coverage 0 (hints_flags "cov" true) plain_env
           one_prog_context cover_executor 0 {| Serialize := "getpid()" |} 0
           overlap_info initial_world);
    [intros name; reflexivity | discriminate | reflexivity | reflexivity
    | reflexivity | intros _; simpl; lia | reflexivity].
Defined.

(** ** Hints for a program the executor cut short *)

Lemma printHints_short flags env p info w :
  (length (Calls info) < NumCalls env p)%nat ->
  exists evs,
    printHints flags env p info w
    = Panic "index out of range" (add_events w evs).
Proof.
  intros Hshort.
  assert (H : forall n (i : nat) ncomps ncandidates w0,
            (i <= length (Calls info))%nat ->
            (length (Calls info) < i + n)%nat ->
            exists evs,
              printHints_from flags env p info (Z.of_nat i) n ncomps
                ncandidates w0
              = Panic "index out of range" (add_events w0 evs)).
  { induction n as [|n IH]; intros i ncomps ncandidates w0 Hi Hn; [lia|].
    simpl. unfold bind at 1.
    assert (Hcall : adds (if flagOutput flags
                          then emit (EvPrint ("call " ++ itoa (Z.of_nat i) ++ ":" ++ nl))
                          else ret tt)).
    { destruct (flagOutput flags); [apply adds_emit | apply adds_ret]. }
    destruct (Hcall w0) as (evs1 & ->).
    unfold index. destruct (Z.ltb_spec (Z.of_nat i) 0) as [E|_]; [lia|].
    rewrite Nat2Z.id.
    destruct (Calls info !! i) as [inf|] eqn:Hinf.
    - apply lookup_lt_Some in Hinf.
      assert (Hcomps : adds (if flagOutput flags
                             then for_each (Comps inf) print_comp else ret tt)).
      { destruct (flagOutput flags); [|apply adds_ret].
        apply adds_for_each. intros c. unfold print_comp.
        apply adds_bind; [apply adds_emit|].
        apply adds_bind; [|apply adds_emit].
        apply adds_for_each. intros arg. apply adds_emit. }
      assert (Hcands : adds (if flagOutput flags
                             then for_each
                                    (MutateWithHints env p (Z.of_nat i) (Comps inf))
                                    (fun c => Logf 1 ("PROGRAM:" ++ nl ++ Serialize c))
                             else ret tt)).
      { destruct (flagOutput flags); [|apply adds_ret].
        apply adds_for_each. intros c. apply adds_emit. }
      unfold bind at 1. destruct (Hcomps (add_events w0 evs1)) as (evs2 & ->).
      unfold bind at 1.
      destruct (Hcands (add_events (add_events w0 evs1) evs2)) as (evs3 & ->).
      replace (Z.of_nat i + 1) with (Z.of_nat (S i)) by lia.
      destruct (IH (S i) (add_comps ncomps (Comps inf))
                  (ncandidates
                   + len (MutateWithHints env p (Z.of_nat i) (Comps inf)))
                  (add_events (add_events (add_events w0 evs1) evs2) evs3)
                  ltac:(lia) ltac:(lia)) as (evs4 & ->).
      eexists. by rewrite !add_events_app.
    - by exists evs1. }
  apply (H (NumCalls env p) 0%nat); lia.
Qed.

(** X28: with [-hints], a program for which the executor reports fewer
    calls than it has makes the dispatch panic.  [printHints] indexes the
    reported calls by the calls of the program; when the first attempt
    succeeds with call information that is too short, the dispatch ends
    in the runtime's index panic after the call results are logged and
    before any coverage is dumped: the record map and the failure counter
    are as before, and the deferred [Leave] of the gate has run. *)
Theorem execute_hints_panics_on_short_info
    (fuel : nat) (flags : FlagSet) (env : Env) (ctx : Context)
    (exec : Z -> ExecResult) (pid : Z) (p : Prog) (tag covType : Z)
    (info : ProgInfo) (w : World) :
  flagHints flags = true ->
  is_failure (ex_err (exec 0)) = false ->
  ex_info (exec 0) = Some info ->
  (length (Calls info) < NumCalls env p)%nat ->
  exists evs,
    execute (S fuel) flags env ctx exec pid p tag covType w
    = Panic "index out of range"
        {| coverRecord := coverRecord w; execFailCnt := execFailCnt w;
           trace := app (trace w) (EvGateEnter :: app evs [EvGateLeave]) |} /\
    Forall (fun e => forall name data, e <> EvWriteFile name data) evs.
Proof.
  intros Hhints Hok Hinfo Hshort.
  unfold execute, bind at 1. rewrite emit_add.
  assert (Hpre : exists evs0,
            (if flagOutput flags then logProgram pid p else ret tt)
              (add_events w [EvGateEnter])
            = Ret tt (add_events (add_events w [EvGateEnter]) evs0) /\
            Forall (fun e => forall name data, e <> EvWriteFile name data) evs0).
  { destruct (flagOutput flags).
    - eexists. split; [unfold logProgram, Logf; by rewrite emit_add|].
      by repeat constructor.
    - exists []. split; [unfold ret; by rewrite add_events_nil|]. constructor. }
  destruct Hpre as (evs0 & Hpre & Hevs0).
  unfold defer, bind at 1. rewrite Hpre.
  cbn [execute_loop]. rewrite Hok. unfold execute_success. rewrite Hinfo, Hhints.
  assert (Hlog : exists evs1,
            (if cfgDebug ctx || bool_decide (is_Some (ex_err (exec 0)))
             then Logf 0 ("result: hanged="
                          ++ (if ex_hanged (exec 0) then "true" else "false")
                          ++ " err=" ++ from_option error_text "<nil>" (ex_err (exec 0))
                          ++ String "010" (String "010" (ex_output (exec 0))))
             else ret tt) (add_events (add_events w [EvGateEnter]) evs0)
            = Ret tt (add_events (add_events (add_events w [EvGateEnter]) evs0)
                        evs1) /\
            Forall (fun e => forall name data, e <> EvWriteFile name data) evs1).
  { destruct (cfgDebug ctx || _).
    - eexists. split; [unfold Logf; by rewrite emit_add|]. by repeat constructor.
    - exists []. split; [unfold ret; by rewrite add_events_nil|]. constructor. }
  destruct Hlog as (evs1 & Hlog & Hevs1).
  unfold bind at 1. rewrite Hlog.
  pose proof (appends_printCallResults
                (fun e => forall name data, e <> EvWriteFile name data)
                ltac:(done) info
                (add_events (add_events (add_events w [EvGateEnter]) evs0) evs1))
    as Hprint.
  destruct (printCallResults_run info
              (add_events (add_events (add_events w [EvGateEnter]) evs0) evs1))
    as (evs2 & Hprun).
  rewrite Hprun in Hprint. destruct Hprint as (evs2' & Ht2 & Hevs2).
  cbn [trace add_events] in Ht2. apply app_inv_head in Ht2 as ->.
  unfold bind at 1. rewrite Hprun.
  pose proof (appends_printHints
                (fun e => forall name data, e <> EvWriteFile name data)
                ltac:(done) ltac:(done) flags env p info
                (add_events (add_events (add_events (add_events w [EvGateEnter])
                                           evs0) evs1) evs2'))
    as Hh.
  destruct (printHints_short flags env p info
              (add_events (add_events (add_events (add_events w [EvGateEnter])
                                         evs0) evs1) evs2') Hshort)
    as (evs3 & Hhrun).
  rewrite Hhrun in Hh. destruct Hh as (evs3' & Ht3 & Hevs3).
  cbn [trace add_events] in Ht3. apply app_inv_head in Ht3 as ->.
  unfold bind at 1. rewrite Hhrun. rewrite emit_add.
  exists (app evs0 (app evs1 (app evs2' evs3'))). split.
  - unfold add_events. cbn [coverRecord execFailCnt trace].
    f_equal. f_equal. rewrite <- !app_assoc. reflexivity.
  - by repeat apply Forall_app_2.
Qed.

Lemma execute_hints_panics_on_short_info_witness :
  exists evs,
    execute 1 (hints_flags "cov" true) plain_env one_prog_context
      (fun _ => {| ex_output := "";
                   ex_info := Some {| Calls := []; Extra := call_with [] |};
                   ex_hanged := false; ex_err := None |})
      0 {| Serialize := "getpid()" |} 0 0 initial_world
    = Panic "index out of range"
        {| coverRecord := coverRecord initial_world;
           execFailCnt := execFailCnt initial_world;
           trace := app (trace initial_world)
                        (EvGateEnter :: app evs [EvGateLeave]) |} /\
    Forall (fun e => forall name data, e <> EvWriteFile name data) evs.
Proof.
  apply (execute_hints_panics_on_short_info 0 (hints_flags "cov" true) plain_env
           one_prog_context
           (fun _ => {| ex_output := "";
                        ex_info := Some {| Calls := []; Extra := call_with [] |};
                        ex_hanged := false; ex_err := None |})
           0 {| Serialize := "getpid()" |} 0 0
           {| Calls := []; Extra := call_with [] |} initial_world);
    [reflexivity | reflexivity | reflexivity | simpl; lia].
Defined.

(** ** The program directory in plain mode *)

Lemma add_dir_entries_plain flags fs files : forall acc w,
  flagSemantic flags = false ->
  add_dir_entries flags fs acc files w
  = Ret {| fileNameList :=
             app (fileNameList acc)
                 (map Name (List.filter (fun f => negb (IsDir f)) files));
           filePathList :=
             app (filePathList acc)
                 (map (fun f => filepath_Join fs (flagProgDir flags) (Name f))
                      (List.filter (fun f => negb (IsDir f)) files));
           reverseFileNameList := reverseFileNameList acc;
           reverseFilePathList := reverseFilePathList acc |} w.
Proof.
  induction files as [|file rest IH]; intros acc w Hsem.
  - simpl. rewrite !app_nil_r. by destruct acc.
  - simpl add_dir_entries. unfold bind, add_dir_entry. rewrite Hsem.
    cbn [List.filter]. destruct (IsDir file); cbn [negb].
    + by apply IH.
    + unfold ret. rewrite IH by done.
      cbn [fileNameList filePathList reverseFileNameList reverseFilePathList map].
      by rewrite <- !app_assoc.
Qed.

(** X27: with [-progdir] and without [-semantic], [main] lists every
    entry of the directory that is not itself a directory, in directory
    order, under its own name and the path joined to the directory; the
    reverse lists stay empty, so the reverse pool would have nothing to
    run. *)
Theorem build_file_lists_progdir_plain
    (flags : FlagSet) (fs : Paths) (args : list string)
    (files : list DirEntry) (w : World) :
  flagProgDir flags <> "" ->
  flagSemantic flags = false ->
  os_ReadDir fs (flagProgDir flags) = inl files ->
  build_file_lists flags fs args w
  = Ret {| fileNameList :=
             map Name (List.filter (fun f => negb (IsDir f)) files);
           filePathList :=
             map (fun f => filepath_Join fs (flagProgDir flags) (Name f))
                 (List.filter (fun f => negb (IsDir f)) files);
           reverseFileNameList := [];
           reverseFilePathList := [] |} w.
Proof.
  intros Hdir Hsem Hread. unfold build_file_lists.
  destruct (String.eqb_spec (flagProgDir flags) "") as [E|_]; [done|].
  cbn [negb]. rewrite Hread.
  by rewrite add_dir_entries_plain.
Qed.

Lemma build_file_lists_progdir_plain_witness :
  build_file_lists (progdir_flags false) example_paths [] initial_world
  = Ret {| fileNameList := ["open"; "open.rev"; "read.rev"];
           filePathList := ["progs/open"; "progs/open.rev"; "progs/read.rev"];
           reverseFileNameList := [];
           reverseFilePathList := [] |} initial_world.
Proof.
  apply (build_file_lists_progdir_plain (progdir_flags false) example_paths []
           [ {| Name := "open"; IsDir := false |};
             {| Name := "open.rev"; IsDir := false |};
             {| Name := "old.rev"; IsDir := true |};
             {| Name := "read.rev"; IsDir := false |} ] initial_world);
    [discriminate | reflexivity | reflexivity].
Defined.
